(* ===================================================================== *)
(* Lead-generation agents: a shallow embedding of                        *)
(*   src/cursor_dxb_video_agent.py  (module Agent)                       *)
(*   src/mian.py                    (module LeadGen)                     *)
(* and the properties of their specification.                            *)
(*                                                                       *)
(* Conventions.  Python [str] is modelled by [string], a character being *)
(* a code point below 256; Python [int] by [Z]; a float by the rational  *)
(* it stands for, float arithmetic rounding its results (module Py);     *)
(* [Optional[T]] by [option T]; a [dict] with string keys by             *)
(* [gmap string _]; a [set] of strings by [gset string]; a SQLite table  *)
(* by the list of its rows in rowid order.                               *)
(* ===================================================================== *)

From Stdlib Require Import ZArith QArith Qround Qabs Qpower Lqa Ascii String
  List Bool Lia.
From stdpp Require Import gmap strings list fin_maps pretty.

Local Open Scope Z_scope.
Local Open Scope string_scope.
Local Open Scope list_scope.

(* --------------------------------------------------------------------- *)
(* Regular expressions, as used by [re.compile(...).search].              *)
(* --------------------------------------------------------------------- *)
Module Regex.

(** A character class is the list of inclusive code ranges it accepts. *)
Definition cls := list (nat * nat).

Definition in_cls (c : ascii) (k : cls) : bool :=
  existsb (fun r => Nat.leb (fst r) (nat_of_ascii c)
                    && Nat.leb (nat_of_ascii c) (snd r)) k.

Inductive re : Type :=
| Eps  : re                      (* matches the empty string *)
| Cls  : cls -> re               (* one character of a class *)
| Cat  : re -> re -> re
| Alt  : re -> re -> re
| Star : re -> re.

(** Backtracking matcher in continuation-passing style: [accepts r s k]
    holds when [r] matches a prefix of [s] whose remainder satisfies [k].
    An iteration of a starred pattern must consume input, as in the
    [re] engine, which bounds the iterations by the length of the text. *)
Fixpoint accepts (r : re) (s : string) (k : string -> bool) : bool :=
  match r with
  | Eps => k s
  | Cls c =>
      match s with
      | String a s' => if in_cls a c then k s' else false
      | EmptyString => false
      end
  | Cat a b => accepts a s (fun s' => accepts b s' k)
  | Alt a b => if accepts a s k then true else accepts b s k
  | Star a =>
      (fix iter (n : nat) (s : string) : bool :=
         if k s then true else
         match n with
         | O => false
         | S n' =>
             accepts a s
               (fun s' =>
                  if Nat.ltb (String.length s') (String.length s)
                  then iter n' s' else false)
         end) (String.length s) s
  end.

Definition at_end (s : string) : bool :=
  match s with
  | EmptyString => true
  | String _ _ => false
  end.

(** [fullmatch r s]: the whole of [s] is a word of [r]. *)
Definition fullmatch (r : re) (s : string) : bool := accepts r s at_end.

(** [r] matches at the very start of [s]. *)
Definition match_here (r : re) (s : string) : bool :=
  accepts r s (fun _ => true).

Definition opt (r : re) : re := Alt Eps r.
Definition plus (r : re) : re := Cat r (Star r).

(** [r{n}] *)
Fixpoint rep (n : nat) (r : re) : re :=
  match n with
  | O => Eps
  | S n' => Cat r (rep n' r)
  end.

(** [r{n,}] *)
Definition at_least (n : nat) (r : re) : re := Cat (rep n r) (Star r).

(** [r{n,m}] for [n <= m] *)
Definition between (n m : nat) (r : re) : re :=
  Cat (rep n r) (rep (m - n) (opt r)).

Definition chr (c : ascii) : re :=
  Cls [(nat_of_ascii c, nat_of_ascii c)].
Arguments chr c%_char.

(** [pattern.search(s)] is truthy exactly when the (unanchored) pattern
    matches at some position of [s]. *)
Fixpoint search (r : re) (s : string) : bool :=
  if match_here r s then true else
  match s with
  | EmptyString => false
  | String _ s' => search r s'
  end.

(** A pattern written [^r$]: [^] holds at the start only, and [$] at the
    end of the text or just before a newline that ends the text. *)
Definition search_anchored (r : re) (s : string) : bool :=
  fullmatch (Cat r (opt (chr "010"))) s.

(* character classes of the patterns below *)
Definition upper : cls := [(65, 90)%nat].
Definition lower : cls := [(97, 122)%nat].
Definition digit : cls := [(48, 57)%nat].
Definition one (c : ascii) : cls := [(nat_of_ascii c, nat_of_ascii c)].
Arguments one c%_char.
(** [\s], and [str.isspace], below code point 256: TAB..CR, FS..US, space,
    NEL and the no-break space. *)
Definition space : cls :=
  [(9, 13)%nat; (28, 32)%nat; (133, 133)%nat; (160, 160)%nat].

End Regex.

(* --------------------------------------------------------------------- *)
(* A few operations of Python's [str].                                    *)
(* --------------------------------------------------------------------- *)
Module PyStr.

Fixpoint prefix_of (p s : string) : bool :=
  match p, s with
  | EmptyString, _ => true
  | String a p', String b s' => bool_decide (a = b) && prefix_of p' s'
  | String _ _, EmptyString => false
  end.

(** [p in s] *)
Fixpoint contains (p s : string) : bool :=
  if prefix_of p s then true else
  match s with
  | EmptyString => false
  | String _ s' => contains p s'
  end.

(** [sep.join(l)] *)
Fixpoint join (sep : string) (l : list string) : string :=
  match l with
  | [] => EmptyString
  | [x] => x
  | x :: l' => x +:+ sep +:+ join sep l'
  end.

(** Truthiness of a string, of an optional string. *)
Definition truthy (s : string) : bool := negb (bool_decide (s = EmptyString)).
Definition truthy_opt (o : option string) : bool :=
  match o with
  | Some s => truthy s
  | None => false
  end.

End PyStr.

(* --------------------------------------------------------------------- *)
(* src/cursor_dxb_video_agent.py                                          *)
(* --------------------------------------------------------------------- *)
Module Agent.
Import Regex.

(** [[A-Za-z0-9._%+-]+@[A-Za-z0-9.-]+\.[A-Za-z]{2,}] *)
Definition EMAIL_RE : re :=
  Cat (plus (Cls (concat [upper; lower; digit; one "."; one "_"; one "%";
                          one "+"; one "-"])))
 (Cat (chr "@")
 (Cat (plus (Cls (concat [upper; lower; digit; one "."; one "-"])))
 (Cat (chr ".")
      (at_least 2 (Cls (concat [upper; lower])))))).

(** [\+?\d[\d\s-]{6,}\d] *)
Definition PHONE_RE : re :=
  Cat (opt (chr "+"))
 (Cat (Cls digit)
 (Cat (at_least 6 (Cls (concat [digit; space; one "-"])))
      (Cls digit))).

(** [^@?[A-Za-z0-9_.]{2,30}$]: the part between the anchors. *)
Definition IG_RE : re :=
  Cat (opt (chr "@"))
      (between 2 30 (Cls (concat [upper; lower; digit; one "_"; one "."]))).

Definition NICHE_WEIGHTS : gmap string Z :=
  list_to_map [("real estate", 3); ("restaurant", 2); ("gym", 2);
               ("clinic", 3); ("auto", 2); ("salon", 2); ("cafe", 2)].

Definition PLATFORM_WEIGHTS : gmap string Z :=
  list_to_map [("email", 3); ("whatsapp", 3); ("instagram", 2);
               ("linkedin", 2)].

Definition VISUAL_NICHES : gset string :=
  list_to_set ["real estate"; "restaurant"; "clinic"; "auto"; "salon";
               "gym"; "cafe"].

Record Lead : Type := mkLead {
  id : string;
  name : string;
  niche : string;
  contact : string;
  platform : string;
  score : Z;
  notes : string
}.

(** [d.get(k, dflt)] *)
Definition get (d : gmap string Z) (k : string) (dflt : Z) : Z :=
  default dflt (d !! k).

(** One [if cond: score += w; notes.append(tag)] of [qualify]. *)
Definition bonus (cond : bool) (w : Z) (tag : string)
    (acc : Z * list string) : Z * list string :=
  if cond then (fst acc + w, snd acc ++ [tag]) else acc.

(** The running [(score, notes)] of [qualify] just before it is stored. *)
Definition qualify_acc (lead : Lead) : Z * list string :=
  let acc := (0, []) in
  let acc := (fst acc + get NICHE_WEIGHTS (niche lead) 1, snd acc) in
  let acc := (fst acc + get PLATFORM_WEIGHTS (platform lead) 1, snd acc) in
  let acc := bonus (bool_decide (platform lead = "email")
                    && search EMAIL_RE (contact lead))
                   2 "valid_email" acc in
  let acc := bonus (bool_decide (platform lead = "whatsapp")
                    && search PHONE_RE (contact lead))
                   2 "valid_phone" acc in
  let acc := bonus (bool_decide (platform lead = "instagram")
                    && search_anchored IG_RE (contact lead))
                   1 "handle_ok" acc in
  let acc := bonus (bool_decide (platform lead = "linkedin")
                    && PyStr.contains "linkedin.com" (contact lead))
                   1 "linkedin_url" acc in
  let acc := bonus (bool_decide (niche lead ∈ VISUAL_NICHES))
                   1 "visual_niche" acc in
  acc.

Definition qualify (lead : Lead) (city : string) : Lead :=
  let acc := qualify_acc lead in
  {| id := id lead; name := name lead; niche := niche lead;
     contact := contact lead; platform := platform lead;
     score := fst acc; notes := PyStr.join "," (snd acc) |}.

Definition al_noor : Lead :=
  {| id := "0"; name := "Al Noor Realty"; niche := "real estate";
     contact := "info@alnoorrealty.ae"; platform := "email";
     score := 0; notes := EmptyString |}.

End Agent.


(* --------------------------------------------------------------------- *)
(* Outcomes of Python code: a value, or a raised exception.               *)
(* --------------------------------------------------------------------- *)
Module Py.

Inductive exn : Type :=
| KeyError (key : string)
| ValueError (msg : string).

Inductive result (A : Type) : Type :=
| Ok (a : A)
| Raise (e : exn).
Arguments Ok {A} a.
Arguments Raise {A} e.

Definition rbind {A B : Type} (r : result A) (k : A -> result B)
    : result B :=
  match r with
  | Ok a => k a
  | Raise e => Raise e
  end.

(** The values passed to [str.format] in this program. *)
Inductive value : Type :=
| VNone
| VStr (s : string)
| VInt (z : Z).

(** [str(v)], which is what an empty format spec yields. *)
Definition str (v : value) : string :=
  match v with
  | VNone => "None"
  | VStr s => s
  | VInt z => pretty z
  end.

Definition is_brace_open (c : ascii) : bool := bool_decide (c = "{"%char).
Definition is_brace_close (c : ascii) : bool := bool_decide (c = "}"%char).

Definition snoc (s : string) (c : ascii) : string :=
  s +:+ String c EmptyString.

(** [template.format] with keyword arguments [kw], for templates whose replacement fields are
    plain keyword names (no conversion, format spec, attribute or index):
    the text between the braces is the key looked up in [kw], and a
    missing key raises [KeyError].  [fld] is [Some acc] while a
    replacement field is being read.  Fields are substituted from left to
    right, so the first failure is the one raised. *)
Fixpoint format_from (kw : gmap string value) (fld : option string)
    (s : string) : result string :=
  match fld, s with
  | None, EmptyString => Ok EmptyString
  | None, String c r =>
      if is_brace_open c then
        match r with
        | String c' r' =>
            if is_brace_open c'
            then rbind (format_from kw None r') (fun t => Ok (String c t))
            else format_from kw (Some EmptyString) r
        | EmptyString => Raise (ValueError "Single '{' encountered in format string")
        end
      else if is_brace_close c then
        match r with
        | String c' r' =>
            if is_brace_close c'
            then rbind (format_from kw None r') (fun t => Ok (String c t))
            else Raise (ValueError "Single '}' encountered in format string")
        | EmptyString => Raise (ValueError "Single '}' encountered in format string")
        end
      else rbind (format_from kw None r) (fun t => Ok (String c t))
  | Some acc, EmptyString =>
      Raise (ValueError "expected '}' before end of string")
  | Some acc, String c r =>
      if is_brace_close c then
        match kw !! acc with
        | Some v =>
            rbind (format_from kw None r) (fun t => Ok (str v +:+ t))
        | None => Raise (KeyError acc)
        end
      else format_from kw (Some (snoc acc c)) r
  end.

Definition format (template : string) (kw : gmap string value)
    : result string :=
  format_from kw None template.

(** [str.isspace] on one character. *)
Definition is_space (c : ascii) : bool :=
  Regex.in_cls c Regex.space.

(** [s.split()]: the maximal runs of non-blank characters.  [cur] is the
    run being read. *)
Fixpoint split_from (cur : string) (s : string) : list string :=
  match s with
  | EmptyString => if PyStr.truthy cur then [cur] else []
  | String c r =>
      if is_space c
      then (if PyStr.truthy cur then cur :: split_from EmptyString r
            else split_from EmptyString r)
      else split_from (snoc cur c) r
  end.

Definition split (s : string) : list string := split_from EmptyString s.

(** [s.split(sep)[0]] for a one-character separator. *)
Fixpoint before (sep : ascii) (s : string) : string :=
  match s with
  | EmptyString => EmptyString
  | String c r =>
      if bool_decide (c = sep) then EmptyString else String c (before sep r)
  end.

Fixpoint lstrip (s : string) : string :=
  match s with
  | EmptyString => EmptyString
  | String c r => if is_space c then lstrip r else s
  end.

Fixpoint rev_string (acc s : string) : string :=
  match s with
  | EmptyString => acc
  | String c r => rev_string (String c acc) r
  end.

Definition rstrip (s : string) : string :=
  rev_string EmptyString (lstrip (rev_string EmptyString s)).

(** [s.strip()] *)
Definition strip (s : string) : string := rstrip (lstrip s).

(** [int(x)] for a float [x]: rounding towards zero. *)
Definition int_of (x : Q) : Z := Z.quot (Qnum x) (Z.pos (Qden x)).

(* ---- float ---- *)

(** A [float] is an IEEE 754 binary64 number, taken here as the rational
    it stands for: 53 significant bits, the exponent of the last bit not
    below -1074 (the subnormal numbers), results rounded to the nearest
    float, ties to the one whose last bit is 0.  The format's largest
    exponent is not modelled: a result of 2^1024 or more (infinity, or
    [OverflowError] when an [int] is converted) is beyond these
    definitions. *)

(** [floor(log2 |x|)], for [x] other than 0. *)
Definition binade (x : Q) : Z :=
  let e := (Z.log2 (Z.abs (Qnum x)) - Z.log2 (Z.pos (Qden x)))%Z in
  if Qle_bool (Qpower 2 e) (Qabs x) then e else (e - 1)%Z.

(** The nearest integer, ties to the even one. *)
Definition round_half_even (y : Q) : Z :=
  let f := Qfloor y in
  match Qcompare (y - inject_Z f) (1 # 2) with
  | Lt => f
  | Gt => (f + 1)%Z
  | Eq => if Z.even f then f else (f + 1)%Z
  end.

(** The exponent of the last bit of the floats around [x]. *)
Definition quantum (x : Q) : Z := Z.max (-1074) (binade x - 52).

(** The float nearest to [x]. *)
Definition round_float (x : Q) : Q :=
  (inject_Z (round_half_even (x / Qpower 2 (quantum x)))
   * Qpower 2 (quantum x))%Q.

(** [float(n)] for an [int] [n]. *)
Definition float_of_int (n : Z) : Q := round_float (inject_Z n).

(** [x - y] and [x / y] on floats. *)
Definition float_sub (x y : Q) : Q := round_float (x - y).
Definition float_div (x y : Q) : Q := round_float (x / y).

(** Half the distance between 1 and the next float, 2^-53, and half the
    smallest positive float, 2^-1075: a rounding moves a number by no more
    than the first times the number, or by no more than the second. *)
Definition unit_roundoff : Q := Eval vm_compute in (1 # (2 ^ 53)).
Definition tiny : Q := Eval vm_compute in (1 # (2 ^ 1075)).

End Py.

(* --------------------------------------------------------------------- *)
(* src/mian.py                                                            *)
(* --------------------------------------------------------------------- *)
Module LeadGen.
Import Py.

(** The module-level configuration read from the process environment. *)
Record Config : Type := mkConfig {
  SMTP_HOST : option string;
  SMTP_USER : option string;
  SMTP_PASS : option string;
  SMTP_FROM : option string;
  SMTP_RATE_PER_MIN : Z;
  ORGANIZATION_NAME : string;
  ORGANIZATION_ADDRESS : string;
  UNSUB_URL : string
}.

(** [class Lead].  A rating is a Python float, modelled by an exact
    rational; [extras] keeps each value as its JSON text. *)
Record Lead : Type := mkLead {
  id : string;
  source : string;
  name : string;
  category : option string;
  rating : option Q;
  review_count : option Z;
  email : option string;
  phone : option string;
  website : option string;
  address : option string;
  city : option string;
  state : option string;
  country : option string;
  extras : list (string * string);
  stage : string
}.

(** A row of table [leads]: the columns of a [Lead] (what [Lead.from_row]
    reads back) and the two timestamps. *)
Record LeadRow : Type := mkLeadRow {
  from_row : Lead;
  created_at : Z;
  updated_at : Z
}.

(** A row of table [outreach]. *)
Module Outreach.
Record row : Type := mk {
  id : string;
  lead_id : string;
  subject : string;
  body : string;
  status : string;
  sent_at : option Z;
  message_id : option string
}.
End Outreach.

(** What one call of [send_email] did. *)
Inductive outcome : Type :=
| NotConfigured                       (* returned before any SMTP session *)
| Failed                              (* the SMTP session raised *)
| Delivered (mid : option string).    (* [sendmail] returned *)

(** History entry for one call of [send_email]: its arguments, the clock
    when it was entered and when it returned, and what it did. *)
Record Call : Type := mkCall {
  c_to : option string;
  c_subject : string;
  c_body : string;
  c_start : Q;
  c_end : Q;
  c_outcome : outcome
}.

(** The world the program runs in: the two tables (rows in rowid order),
    the wall clock, and the history of what the program asked of its
    environment. *)
Record World : Type := mkWorld {
  leads : list LeadRow;
  outreach : list Outreach.row;
  clock : Q;
  ticks : nat;                 (* environment steps taken so far *)
  uuids : nat;                 (* calls of [uuid.uuid4] so far *)
  calls : list Call            (* calls of [send_email], oldest first *)
}.

(** The environment: how long each step takes, which identifier each call
    of [uuid.uuid4] returns, and how each SMTP session ends ([None]: it
    raised; [Some b]: [sendmail] returned, [b] telling whether its
    dictionary of refused recipients was empty). *)
Record Env : Type := mkEnv {
  elapse : nat -> Q;
  uuid4 : nat -> string;
  smtp : nat -> option string -> string -> string -> option bool
}.

Definition empty_world : World :=
  {| leads := []; outreach := []; clock := 0; ticks := 0; uuids := 0;
     calls := [] |}.

(* ---- a state-and-exception monad over [World] ---- *)

Definition M (A : Type) : Type := World -> result A * World.

Definition ret {A : Type} (a : A) : M A := fun w => (Ok a, w).

Definition bind {A B : Type} (m : M A) (k : A -> M B) : M B :=
  fun w =>
    match m w with
    | (Ok a, w') => k a w'
    | (Raise e, w') => (Raise e, w')
    end.

Definition lift {A : Type} (r : result A) : M A := fun w => (r, w).

Definition gets {A : Type} (f : World -> A) : M A := fun w => (Ok (f w), w).

Definition modify (f : World -> World) : M unit := fun w => (Ok tt, f w).

Declare Scope monad_scope.
Delimit Scope monad_scope with monad.
Notation "x <- c ;; k" := (bind c (fun x => k))
  (at level 100, c at next level, right associativity) : monad_scope.
Notation "c ;;; k" := (bind c (fun _ => k))
  (at level 100, right associativity) : monad_scope.
Local Open Scope monad_scope.

(** [for x in l: ...] threading the loop variables [s]. *)
Fixpoint for_each {A S : Type} (l : list A) (body : A -> S -> M S) (s : S)
    : M S :=
  match l with
  | [] => ret s
  | x :: l' => s' <- body x s ;; for_each l' body s'
  end.

Definition set_leads (f : list LeadRow -> list LeadRow) (w : World)
    : World :=
  {| leads := f (leads w); outreach := outreach w; clock := clock w;
     ticks := ticks w; uuids := uuids w; calls := calls w |}.

Definition set_outreach (f : list Outreach.row -> list Outreach.row)
    (w : World) : World :=
  {| leads := leads w; outreach := f (outreach w); clock := clock w;
     ticks := ticks w; uuids := uuids w; calls := calls w |}.

Section Program.
Variable E : Env.
Variable cfg : Config.

(* ---- primitives ---- *)

(** One step of the environment: some time passes. *)
Definition tick : M unit :=
  modify (fun w =>
    {| leads := leads w; outreach := outreach w;
       clock := (clock w + elapse E (ticks w))%Q;
       ticks := S (ticks w); uuids := uuids w; calls := calls w |}).

(** [time.time()]: the clock as the program reads it. *)
Definition time_time : M Q := tick ;;; gets clock.

(** [time.sleep(d)]: at least [d] seconds pass. *)
Definition time_sleep (d : Q) : M unit :=
  modify (fun w =>
    {| leads := leads w; outreach := outreach w;
       clock := (clock w + d)%Q;
       ticks := ticks w; uuids := uuids w; calls := calls w |}) ;;;
  tick.

(** [str(uuid.uuid4())] *)
Definition new_uuid : M string :=
  n <- gets uuids ;;
  modify (fun w =>
    {| leads := leads w; outreach := outreach w; clock := clock w;
       ticks := ticks w; uuids := S (uuids w); calls := calls w |}) ;;;
  ret (uuid4 E n).

(** [now()]: [int(time.time())] *)
Definition now : M Z := t <- time_time ;; ret (int_of t).

(** One SQL statement that writes. *)
Definition execute (f : World -> World) : M unit := tick ;;; modify f.

(** One [SELECT ... fetchall()]. *)
Definition fetchall {A : Type} (q : World -> list A) : M (list A) :=
  tick ;;; gets q.


(* ---- Database ---- *)

Definition has_id (i : string) (r : LeadRow) : bool :=
  bool_decide (id (from_row r) = i).

Definition has_oid (i : string) (o : Outreach.row) : bool :=
  bool_decide (Outreach.id o = i).

(** The [DO UPDATE SET] clause of [upsert_lead]: every column of the
    proposed row except [id], [stage] and [created_at]. *)
Definition do_update (lead : Lead) (u : Z) (r : LeadRow) : LeadRow :=
  {| from_row :=
       {| id := id (from_row r);
          source := source lead;
          name := name lead;
          category := category lead;
          rating := rating lead;
          review_count := review_count lead;
          email := email lead;
          phone := phone lead;
          website := website lead;
          address := address lead;
          city := city lead;
          state := state lead;
          country := country lead;
          extras := extras lead;
          stage := stage (from_row r) |};
     created_at := created_at r;
     updated_at := u |}.

(** [INSERT INTO leads ... ON CONFLICT(id) DO UPDATE SET ...] *)
Definition insert_or_update (lead : Lead) (c u : Z)
    (rows : list LeadRow) : list LeadRow :=
  if existsb (has_id (id lead)) rows
  then map (fun r => if has_id (id lead) r then do_update lead u r else r)
           rows
  else rows ++ [ {| from_row := lead; created_at := c; updated_at := u |} ].

Definition upsert_lead (lead : Lead) : M unit :=
  c <- now ;;
  u <- now ;;
  execute (set_leads (insert_or_update lead c u)).

Definition with_stage (st : string) (l : Lead) : Lead :=
  {| id := id l; source := source l; name := name l;
     category := category l; rating := rating l;
     review_count := review_count l; email := email l;
     phone := phone l; website := website l; address := address l;
     city := city l; state := state l; country := country l;
     extras := extras l; stage := st |}.

(** [UPDATE leads SET stage=?, updated_at=? WHERE id=?] *)
Definition update_stage (st : string) (t : Z) (i : string)
    (rows : list LeadRow) : list LeadRow :=
  map (fun r =>
         if has_id i r
         then {| from_row := with_stage st (from_row r);
                 created_at := created_at r; updated_at := t |}
         else r) rows.

Definition set_stage (lead_id : string) (st : string) : M unit :=
  t <- now ;;
  execute (set_leads (update_stage st t lead_id)).

(** [SELECT * FROM leads WHERE stage=?] *)
Definition leads_at (st : string) (w : World) : list LeadRow :=
  filter (fun r => stage (from_row r) = st) (leads w).

(* ---- Qualification ---- *)

Definition rule_based_score (lead : Lead) (min_rating : Q)
    (min_reviews : Z) : Z * gmap string Q :=
  let score := 0 in
  let notes : gmap string Q := ∅ in
  let '(score, notes) :=
    match rating lead with
    | Some r =>
        ((if Qle_bool min_rating r then score + 2 else score),
         <["rating" := r]> notes)
    | None => (score, notes)
    end in
  let '(score, notes) :=
    match review_count lead with
    | Some n =>
        if Z.leb min_reviews n
        then (score + 1, <["reviews" := inject_Z n]> notes)
        else (score, notes)
    | None => (score, notes)
    end in
  let score := if PyStr.truthy_opt (website lead) then score + 1
               else score in
  let score := if PyStr.truthy_opt (email lead) then score + 2
               else score in
  (score, notes).

Definition qualify_all (min_rating : Q) (min_reviews : Z) (min_score : Z)
    : M Z :=
  rows <- fetchall (leads_at "NEW") ;;
  for_each rows
    (fun row count =>
       let lead := from_row row in
       let score := fst (rule_based_score lead min_rating min_reviews) in
       if Z.leb min_score score
       then set_stage (id lead) "QUALIFIED" ;;; ret (count + 1)
       else set_stage (id lead) "DISQUALIFIED" ;;; ret count)
    0.


(* ---- Email Generation ---- *)

(** The text of [EMAIL_TEMPLATE] after [.strip()]. *)
Definition EMAIL_TEMPLATE : string :=
"Subject: {subject}

Hi {first_name or 'there'},

I noticed {observation}. {value_prop}.

We helped similar {category or 'businesses'} achieve {social_proof}. I'd be happy to send a quick {lead_magnet}.

Would a {cta_duration}-minute chat sometime this week work?

Best,
{sender_name}
{org_name}
{org_address}
Unsubscribe: {unsub_url}".

Definition split_name (biz_name : string) : string * string :=
  match split biz_name with
  | [] => (EmptyString, EmptyString)
  | p :: ps => (p, List.last ps p)
  end.

Definition opt_value (o : option string) : value :=
  match o with
  | Some s => VStr s
  | None => VNone
  end.

(** [x or None] for a string [x]. *)
Definition or_none (s : string) : value :=
  if PyStr.truthy s then VStr s else VNone.

Definition sender_name : string :=
  match SMTP_FROM cfg with
  | Some f => if PyStr.truthy f then strip (before "<" f)
              else ORGANIZATION_NAME cfg
  | None => ORGANIZATION_NAME cfg
  end.

Definition generate_email_body (lead : Lead) (offer : string)
    (lead_magnet : string) (cta_duration : Z)
    : result (string * string) :=
  let first := fst (split_name (name lead)) in
  let subject :=
    "Quick question about " +:+
    (if PyStr.truthy (name lead) then name lead else "your site") in
  let observation :=
    match rating lead with
    | Some r => if Qle_bool (42 # 10) r then "your strong reviews"
                else "your presence in the area"
    | None => "your presence in the area"
    end in
  (* the en dash of this text stands here as the bytes of its encoding *)
  let social_proof :=
    "20–30% increase in qualified inquiries in 60 days" in
  rbind
    (format EMAIL_TEMPLATE
       (list_to_map
          [("subject", VStr subject);
           ("first_name", or_none first);
           ("observation", VStr observation);
           ("value_prop", VStr offer);
           ("category", opt_value (category lead));
           ("social_proof", VStr social_proof);
           ("lead_magnet", VStr lead_magnet);
           ("cta_duration", VInt cta_duration);
           ("sender_name", VStr sender_name);
           ("org_name", VStr (ORGANIZATION_NAME cfg));
           ("org_address", VStr (ORGANIZATION_ADDRESS cfg));
           ("unsub_url", VStr (UNSUB_URL cfg))]))
    (fun body => Ok (subject, body)).

(** [INSERT OR REPLACE INTO outreach ...]: a row with the same primary
    key is deleted before the new row is added. *)
Definition insert_or_replace (m : Outreach.row)
    (rows : list Outreach.row) : list Outreach.row :=
  filter (fun r => Outreach.id r ≠ Outreach.id m) rows ++ [m].

(** [draft_emails_for_stage], with the call it makes to render a lead's
    message taken as the argument [render]. *)
Definition draft_emails_with
    (render : Lead -> string -> result (string * string))
    (st : string) (offer : string) : M Z :=
  rows <- fetchall (leads_at st) ;;
  for_each rows
    (fun row count =>
       let lead := from_row row in
       if negb (PyStr.truthy_opt (email lead)) then ret count
       else
         sb <- lift (render lead offer) ;;
         u <- new_uuid ;;
         execute (set_outreach (insert_or_replace
           {| Outreach.id := u; Outreach.lead_id := id lead;
              Outreach.subject := fst sb; Outreach.body := snd sb;
              Outreach.status := "DRAFT"; Outreach.sent_at := None;
              Outreach.message_id := None |})) ;;;
         ret (count + 1))
    0.

Definition draft_emails_for_stage (st : string) (offer : string) : M Z :=
  draft_emails_with
    (fun lead offer => generate_email_body lead offer "free audit" 15)
    st offer.

(* ---- SMTP Send ---- *)

Definition smtp_configured : bool :=
  PyStr.truthy_opt (SMTP_HOST cfg) && PyStr.truthy_opt (SMTP_USER cfg)
  && PyStr.truthy_opt (SMTP_PASS cfg) && PyStr.truthy_opt (SMTP_FROM cfg).

Definition record_call (c : Call) : M unit :=
  modify (fun w =>
    {| leads := leads w; outreach := outreach w; clock := clock w;
       ticks := ticks w; uuids := uuids w; calls := calls w ++ [c] |}).

Definition send_email (to_addr : option string) (subject body : string)
    : M (bool * option string) :=
  t0 <- gets clock ;;
  if negb smtp_configured then
    record_call {| c_to := to_addr; c_subject := subject;
                   c_body := body; c_start := t0; c_end := t0;
                   c_outcome := NotConfigured |} ;;;
    ret (false, None)
  else
    n <- gets (fun w => length (calls w)) ;;
    tick ;;;
    match smtp E n to_addr subject body with
    | Some accepted =>
        mid <- (if accepted then u <- new_uuid ;; ret (Some u)
                else ret None) ;;
        t1 <- gets clock ;;
        record_call {| c_to := to_addr; c_subject := subject;
                       c_body := body; c_start := t0; c_end := t1;
                       c_outcome := Delivered mid |} ;;;
        ret (true, mid)
    | None =>
        t1 <- gets clock ;;
        record_call {| c_to := to_addr; c_subject := subject;
                       c_body := body; c_start := t0; c_end := t1;
                       c_outcome := Failed |} ;;;
        ret (false, None)
    end.

(** A row of the join that [send_all] reads. *)
Record Draft : Type := mkDraft {
  oid : string;
  d_subject : string;
  d_body : string;
  d_email : option string;
  lid : string
}.

(** [SELECT o.id as oid, o.subject, o.body, l.email, l.id as lid
     FROM outreach o JOIN leads l ON o.lead_id=l.id
     WHERE o.status='DRAFT'] *)
Definition drafts (w : World) : list Draft :=
  flat_map
    (fun o =>
       if bool_decide (Outreach.status o = "DRAFT") then
         map (fun l =>
                {| oid := Outreach.id o;
                   d_subject := Outreach.subject o;
                   d_body := Outreach.body o;
                   d_email := email (from_row l);
                   lid := id (from_row l) |})
             (filter (fun l => id (from_row l) = Outreach.lead_id o)
                     (leads w))
       else [])
    (outreach w).

(** [UPDATE outreach SET status=?, sent_at=?, message_id=? WHERE id=?] *)
Definition update_outreach (st : string) (t : Z) (mid : option string)
    (i : string) (rows : list Outreach.row) : list Outreach.row :=
  map (fun o =>
         if has_oid i o
         then {| Outreach.id := Outreach.id o;
                 Outreach.lead_id := Outreach.lead_id o;
                 Outreach.subject := Outreach.subject o;
                 Outreach.body := Outreach.body o;
                 Outreach.status := st;
                 Outreach.sent_at := Some t;
                 Outreach.message_id := mid |}
         else o) rows.

(** [60.0 / max(1, SMTP_RATE_PER_MIN)]: the [int] is converted and the
    quotient rounded. *)
Definition interval : Q :=
  float_div 60 (float_of_int (Z.max 1 (SMTP_RATE_PER_MIN cfg))).

(** The [else] branch of the loop of [send_all]: wait out the rate limit,
    send, and note the time.  It yields [(success, mid, last_sent)]. *)
Definition paced_send (r : Draft) (last_sent : Q)
    : M (bool * option string * Q) :=
  t <- time_time ;;
  let delta := float_sub t last_sent in
  (if Qlt_le_dec delta interval
   then time_sleep (float_sub interval delta)
   else ret tt) ;;;
  sm <- send_email (d_email r) (d_subject r) (d_body r) ;;
  t' <- time_time ;;
  ret (fst sm, snd sm, t').

(** The body of the loop of [send_all]; the loop variables are
    [(sent, last_sent)]. *)
Definition send_one (dry_run : bool) (r : Draft) (st : Z * Q)
    : M (Z * Q) :=
  let '(sent, last_sent) := st in
  res <-
    (if dry_run then ret (true, None, last_sent)
     else paced_send r last_sent) ;;
  let '(success, mid, last_sent') := res in
  t1 <- now ;;
  execute (set_outreach
             (update_outreach (if success then "SENT" else "ERROR")
                              t1 mid (oid r))) ;;;
  (if success
   then t2 <- now ;;
        execute (set_leads (update_stage "CONTACTED" t2 (lid r)))
   else ret tt) ;;;
  ret ((if success then sent + 1 else sent), last_sent').

Definition send_all (dry_run : bool) : M Z :=
  rows <- fetchall drafts ;;
  st <- for_each rows (send_one dry_run) (0, 0%Q) ;;
  ret (fst st).

(* ---- Sourcing and the command line ---- *)

(** One entry of [local_results] as [search_serpapi] reads it, together
    with what [try_extract_email_from_site] finds on its website. *)
Record Item : Type := mkItem {
  title : option string;
  type : option string;
  i_rating : option Q;
  reviews : option Z;
  i_phone : option string;
  i_website : option string;
  i_address : option string;
  raw : string;
  site_email : option string
}.

(** [x or None] for an optional string [x]. *)
Definition or_None (o : option string) : option string :=
  if PyStr.truthy_opt o then o else None.

Definition lead_of_item (lid : string) (item : Item) : Lead :=
  {| id := lid;
     source := "serpapi";
     name := if PyStr.truthy_opt (title item) then default EmptyString (title item)
             else EmptyString;
     category := or_None (type item);
     rating := i_rating item;
     review_count := reviews item;
     email := if PyStr.truthy_opt (i_website item) then site_email item
              else None;
     phone := or_None (i_phone item);
     website := i_website item;
     address := or_None (i_address item);
     city := None;
     state := None;
     country := None;
     extras := [("raw", raw item)];
     stage := "NEW" |}.

(** [search_serpapi] on the entries [results] returned by the service. *)
Definition search_serpapi (results : list Item) (limit : nat)
    : M (list Lead) :=
  for_each (take limit results)
    (fun item out =>
       lid <- new_uuid ;;
       ret (out ++ [lead_of_item lid item]))
    [].

Definition cmd_search (results : list Item) (limit : nat) : M unit :=
  found <- search_serpapi results limit ;;
  for_each found (fun lead _ => upsert_lead lead) tt.

Definition cmd_qualify (min_rating : Q) (min_reviews min_score : Z)
    : M unit :=
  qualify_all min_rating min_reviews min_score ;;; ret tt.

Definition cmd_draft_emails (offer : string) : M unit :=
  draft_emails_for_stage "QUALIFIED" offer ;;; ret tt.

Definition cmd_send_emails (dry_run : bool) : M unit :=
  send_all dry_run ;;; ret tt.

(** One invocation of the command-line tool. *)
Inductive command : Type :=
| Search (results : list Item) (limit : nat)
| Qualify (min_rating : Q) (min_reviews min_score : Z)
| DraftEmails (offer : string)
| SendEmails (dry_run : bool).

Definition run (c : command) : M unit :=
  match c with
  | Search results limit => cmd_search results limit
  | Qualify a b c => cmd_qualify a b c
  | DraftEmails offer => cmd_draft_emails offer
  | SendEmails dry_run => cmd_send_emails dry_run
  end.

(** The world left by a computation, whether it returned or raised: what
    was written before an exception stays written. *)
Definition after {A : Type} (m : M A) (w : World) : World := snd (m w).

(** Running the tool several times in a row. *)
Fixpoint run_all (cs : list command) (w : World) : World :=
  match cs with
  | [] => w
  | c :: cs' => run_all cs' (after (run c) w)
  end.

End Program.

(* ---- observations on the store ---- *)

(** [SELECT * FROM leads WHERE id=?] (the first such row). *)
Definition find_lead (i : string) (w : World) : option LeadRow :=
  find (has_id i) (leads w).

Definition lead_ids (w : World) : list string :=
  map (fun r => id (from_row r)) (leads w).

Definition outreach_ids (w : World) : list string :=
  map Outreach.id (outreach w).

(** The primary keys: no two rows of a table share an [id]. *)
Definition keys_unique (w : World) : Prop :=
  NoDup (lead_ids w) /\ NoDup (outreach_ids w).

(** A message that is neither sent nor failed. *)
Definition non_terminal (o : Outreach.row) : bool :=
  bool_decide (Outreach.status o = "DRAFT")
  || bool_decide (Outreach.status o = "SENDING").

(** How many non-terminal messages lead [i] owns among [rows]. *)
Definition in_flight_rows (i : string) (rows : list Outreach.row) : nat :=
  length (filter (fun o => Outreach.lead_id o = i /\ non_terminal o = true)
                 rows).

(** How many non-terminal messages lead [i] owns. *)
Definition in_flight (i : string) (w : World) : nat :=
  in_flight_rows i (outreach w).

(** The row the draft step inserts for [lead] under the identifier [u],
    [sb] being the subject and body rendered for it. *)
Definition new_draft (u : string) (lead : Lead) (sb : string * string)
    : Outreach.row :=
  {| Outreach.id := u; Outreach.lead_id := id lead;
     Outreach.subject := fst sb; Outreach.body := snd sb;
     Outreach.status := "DRAFT"; Outreach.sent_at := None;
     Outreach.message_id := None |}.

(** The leads the draft step writes to: those of the stage that have an
    email address, in table order. *)
Definition draft_targets (st : string) (w : World) : list LeadRow :=
  filter (fun r => PyStr.truthy_opt (email (from_row r)) = true)
         (leads_at st w).

(** The identifiers the next [n] calls of [uuid.uuid4] return. *)
Definition next_uuids (E : Env) (w : World) (n : nat) : list string :=
  map (uuid4 E) (seq (uuids w) n).

(** [SELECT * FROM outreach WHERE id=?] (the first such row). *)
Definition find_message (i : string) (w : World) : option Outreach.row :=
  find (has_oid i) (outreach w).

(** The timestamp [now()] returns in world [w]. *)
Definition now_at (E : Env) (w : World) : Z :=
  int_of (clock w + elapse E (ticks w)).

(** The value [upsert_lead] stores in [updated_at] when run in [w]: the
    second of its two readings of the clock. *)
Definition upsert_time (E : Env) (w : World) : Z :=
  int_of (clock w + elapse E (ticks w) + elapse E (S (ticks w))).

(** The clock never runs backwards, and a sleep lasts at least as long as
    asked. *)
Definition steady (E : Env) : Prop := forall n, (0 <= elapse E n)%Q.

Definition succeeded (c : Call) : bool :=
  match c_outcome c with
  | Delivered _ => true
  | _ => false
  end.

(** The provider message id a call of [send_email] returned. *)
Definition mid_of (c : Call) : option string :=
  match c_outcome c with
  | Delivered m => m
  | _ => None
  end.

(** The call [c] was made for the message [r]. *)
Definition addressed (r : Draft) (c : Call) : Prop :=
  c_to c = d_email r /\ c_subject c = d_subject r /\ c_body c = d_body r.

Definition count_succeeded (cs : list Call) : Z :=
  Z.of_nat (length (filter (fun c => succeeded c = true) cs)).

(** The test of [qualify_all] on one lead, and the stage it leads to. *)
Definition qualifies (min_rating : Q) (min_reviews min_score : Z)
    (lead : Lead) : bool :=
  Z.leb min_score (fst (rule_based_score lead min_rating min_reviews)).

Definition verdict (min_rating : Q) (min_reviews min_score : Z)
    (lead : Lead) : string :=
  if qualifies min_rating min_reviews min_score lead then "QUALIFIED"
  else "DISQUALIFIED".

(** What a qualification pass makes of a row [r]: a NEW lead gets the stage
    of its verdict (and a new [updated_at]); any other row is kept. *)
Definition resolved (min_rating : Q) (min_reviews min_score : Z)
    (r r' : LeadRow) : Prop :=
  if decide (stage (from_row r) = "NEW")
  then from_row r' = with_stage (verdict min_rating min_reviews min_score
                                         (from_row r)) (from_row r)
       /\ created_at r' = created_at r
  else r' = r.

(** The state of a row while the pass is under way: resolved if its id is
    among the rows already visited, untouched otherwise. *)
Definition partly (min_rating : Q) (min_reviews min_score : Z)
    (done : list LeadRow) (r r' : LeadRow) : Prop :=
  (In (id (from_row r)) (map (fun r => id (from_row r)) done) ->
   from_row r' = with_stage (verdict min_rating min_reviews min_score
                                     (from_row r)) (from_row r)
   /\ created_at r' = created_at r) /\
  (~ In (id (from_row r)) (map (fun r => id (from_row r)) done) -> r' = r).

(** The computation [m] leaves the observation [f] of the world as it
    was, whether it returns or raises. *)
Definition keeps {A X : Type} (f : World -> X) (m : M A) : Prop :=
  forall w, f (after m w) = f w.

(** The stand-in, in the history of a dry run, for the call that is not
    made: dry-run mode takes every send to have succeeded without a
    provider id. *)
Definition simulated : Call :=
  {| c_to := None; c_subject := EmptyString; c_body := EmptyString;
     c_start := 0; c_end := 0; c_outcome := Delivered None |}.

(** The two tables. *)
Definition Tables : Type := list LeadRow * list Outreach.row.

Definition tables (w : World) : Tables := (leads w, outreach w).

(** The two [UPDATE]s that close one iteration of [send_all]: the message
    [r] gets the status its call [c] earned, and on success its lead moves
    to CONTACTED. *)
Definition dispatch (r : Draft) (c : Call) (t1 t2 : Z) (T : Tables)
    : Tables :=
  ((if succeeded c then update_stage "CONTACTED" t2 (lid r) (fst T)
    else fst T),
   update_outreach (if succeeded c then "SENT" else "ERROR") t1 (mid_of c)
                   (oid r) (snd T)).

(** [dispatched rows cs T T']: the tables go from [T] to [T'] by the updates
    of one iteration for each message of [rows], in order, [cs] being the
    calls made for them. *)
Inductive dispatched : list Draft -> list Call -> Tables -> Tables -> Prop :=
| dispatched_nil (T : Tables) : dispatched [] [] T T
| dispatched_cons (r : Draft) (c : Call) (t1 t2 : Z) (rows : list Draft)
    (cs : list Call) (T T' : Tables) :
    dispatched rows cs (dispatch r c t1 t2 T) T' ->
    dispatched (r :: rows) (c :: cs) T T'.

(** The pause [send_all] is sure to keep between two calls: its interval
    less what the two subtractions of the rate limit may lose to
    rounding. *)
Definition pace (cfg : Config) : Q :=
  (interval cfg * (1 - unit_roundoff) - 2 * tiny)%Q.

(** Each call starts at least [gap] after the call before it returned. *)
Definition spaced (gap : Q) (cs : list Call) : Prop :=
  forall k c1 c2,
    cs !! k = Some c1 -> cs !! S k = Some c2 ->
    (c_end c1 + gap <= c_start c2)%Q.

End LeadGen.

(* --------------------------------------------------------------------- *)
(* Concrete environments, configurations and stores used in examples.     *)
(* --------------------------------------------------------------------- *)
Module Samples.
Import Py LeadGen.

(** Every step takes a quarter of a second; the n-th identifier is "u"
    followed by n; the second SMTP session of a run raises, the others
    deliver. *)
Definition env : Env :=
  {| elapse := fun _ => 1 # 4;
     uuid4 := fun n => "u" +:+ pretty (Z.of_nat n);
     smtp := fun n _ _ _ => if Nat.eqb n 1 then None else Some true |}.

Definition configured : Config :=
  {| SMTP_HOST := Some "smtp.sendgrid.net";
     SMTP_USER := Some "apikey";
     SMTP_PASS := Some "secret";
     SMTP_FROM := Some "Your Name <you@domain.com>";
     SMTP_RATE_PER_MIN := 20;
     ORGANIZATION_NAME := "Acme Growth";
     ORGANIZATION_ADDRESS := "123 Example St, City, ST 00000";
     UNSUB_URL := "https://example.com/unsubscribe" |}.

(** The same, at 7 messages a minute. *)
Definition seven_a_minute : Config :=
  {| SMTP_HOST := Some "smtp.sendgrid.net";
     SMTP_USER := Some "apikey";
     SMTP_PASS := Some "secret";
     SMTP_FROM := Some "Your Name <you@domain.com>";
     SMTP_RATE_PER_MIN := 7;
     ORGANIZATION_NAME := "Acme Growth";
     ORGANIZATION_ADDRESS := "123 Example St, City, ST 00000";
     UNSUB_URL := "https://example.com/unsubscribe" |}.

(** An environment whose clock stands while the program computes: every
    step takes no time, and only sleeping moves the clock. *)
Definition still : Env :=
  {| elapse := fun _ => 0%Q;
     uuid4 := fun n => "u" +:+ pretty (Z.of_nat n);
     smtp := fun _ _ _ _ => Some true |}.

(** No SMTP variable is set. *)
Definition unconfigured : Config :=
  {| SMTP_HOST := None;
     SMTP_USER := None;
     SMTP_PASS := None;
     SMTP_FROM := None;
     SMTP_RATE_PER_MIN := 20;
     ORGANIZATION_NAME := "Acme Growth";
     ORGANIZATION_ADDRESS := "123 Example St, City, ST 00000";
     UNSUB_URL := "https://example.com/unsubscribe" |}.

Definition lead (i nm : string) (r : option Q) (n : option Z)
    (mail site : option string) (st : string) : Lead :=
  {| id := i; source := "serpapi"; name := nm; category := Some "Dentist";
     rating := r; review_count := n; email := mail; phone := None;
     website := site; address := None; city := None; state := None;
     country := None; extras := []; stage := st |}.

Definition bright : Lead :=
  lead "a" "Bright Smiles" (Some (45 # 10)) (Some 120)
       (Some "hello@brightsmiles.com") (Some "https://brightsmiles.com")
       "NEW".

Definition corner : Lead :=
  lead "b" "Corner Dental" (Some (31 # 10)) (Some 2) None None "NEW".

Definition oak : Lead :=
  lead "c" "Oak Orthodontics" None None (Some "team@oak.example")
       (Some "https://oak.example") "CONTACTED".

Definition row (l : Lead) : LeadRow :=
  {| from_row := l; created_at := 100; updated_at := 100 |}.

Definition draft (i owner : string) : Outreach.row :=
  {| Outreach.id := i; Outreach.lead_id := owner;
     Outreach.subject := "Quick question";
     Outreach.body := "Hi there";
     Outreach.status := "DRAFT"; Outreach.sent_at := None;
     Outreach.message_id := None |}.

(** Three leads, none with a message. *)
Definition leads_only : World :=
  {| leads := [row bright; row corner; row oak]; outreach := [];
     clock := 1000; ticks := 0; uuids := 0; calls := [] |}.

(** Three leads, each with one DRAFT message. *)
Definition with_drafts : World :=
  {| leads := [row (with_stage "QUALIFIED" bright);
               row (with_stage "QUALIFIED" corner);
               row (with_stage "QUALIFIED" oak)];
     outreach := [draft "m1" "a"; draft "m2" "b"; draft "m3" "c"];
     clock := 1000; ticks := 0; uuids := 0; calls := [] |}.

(** One search result. *)
Definition dentist : Item :=
  {| title := Some "Bright Smiles"; type := Some "Dentist";
     i_rating := Some (45 # 10); reviews := Some 120;
     i_phone := Some "+1 512 555 0100";
     i_website := Some "https://brightsmiles.com";
     i_address := Some "1 Main St";
     raw := "{}";
     site_email := Some "hello@brightsmiles.com" |}.

(** A renderer that succeeds, for comparison with [generate_email_body]. *)
Definition plain_text (l : Lead) (offer : string) : string * string :=
  ("Quick question about " +:+ name l, offer).

Definition plain_render (l : Lead) (offer : string)
    : result (string * string) :=
  Ok (plain_text l offer).

End Samples.

(* --------------------------------------------------------------------- *)
(* src/cursor_dxb_video_agent.py: loading, filtering and exporting leads. *)
(* --------------------------------------------------------------------- *)
Module AgentLeads.
Import Agent.

(** [c.lower()] for a code point below 256: the capitals of ASCII and of
    Latin-1 (the multiplication sign is not one). *)
Definition lower_char (c : ascii) : ascii :=
  let n := nat_of_ascii c in
  if (Nat.leb 65 n && Nat.leb n 90)
     || (Nat.leb 192 n && Nat.leb n 222 && negb (Nat.eqb n 215))
  then ascii_of_nat (n + 32)
  else c.

(** [s.lower()] *)
Fixpoint lower (s : string) : string :=
  match s with
  | EmptyString => EmptyString
  | String c r => String (lower_char c) (lower r)
  end.

(** The key [dedupe] compares leads by. *)
Definition key (l : Lead) : string * string * string :=
  (lower (name l), lower (contact l), lower (platform l)).

(** The loop of [dedupe], [seen] being the keys met so far. *)
Fixpoint dedupe_from (seen : gset (string * string * string))
    (leads : list Lead) : list Lead :=
  match leads with
  | [] => []
  | l :: rest =>
      if decide (key l ∈ seen) then dedupe_from seen rest
      else l :: dedupe_from ({[ key l ]} ∪ seen) rest
  end.

Definition dedupe (leads : list Lead) : list Lead := dedupe_from ∅ leads.

(** The filters of [CONFIG]. *)
Record Filters : Type := mkFilters {
  FILTER_NICHES : list string;
  FILTER_PLATFORMS : list string
}.

Definition CONFIG : Filters :=
  {| FILTER_NICHES := ["real estate"; "restaurant"; "gym"; "clinic"];
     FILTER_PLATFORMS := ["email"; "whatsapp"; "instagram"; "linkedin"] |}.

(** [x in l] for a list of strings. *)
Definition mem (x : string) (l : list string) : bool :=
  existsb (fun y => bool_decide (x = y)) l.

(** Truthiness of a list. *)
Definition nonempty {A : Type} (l : list A) : bool :=
  match l with
  | [] => false
  | _ :: _ => true
  end.

Definition apply_filters (cfg : Filters) (leads : list Lead) : list Lead :=
  let niches := map lower (FILTER_NICHES cfg) in
  let platforms := map lower (FILTER_PLATFORMS cfg) in
  List.filter
    (fun l =>
       if nonempty niches && negb (mem (niche l) niches) then false
       else if nonempty platforms && negb (mem (platform l) platforms)
       then false
       else true)
    leads.

(** A row as [csv.DictReader] yields it, or an entry of [EMBEDDED_LEADS]. *)
Definition Row : Type := gmap string string.

(** [row.get(k) or EmptyString] *)
Definition get_or_empty (row : Row) (k : string) : string :=
  match row !! k with
  | Some v => v
  | None => EmptyString
  end.

(** [row.get(k1) or row.get(k2) or EmptyString] *)
Definition get2_or_empty (row : Row) (k1 k2 : string) : string :=
  match row !! k1 with
  | Some v => if PyStr.truthy v then v else get_or_empty row k2
  | None => get_or_empty row k2
  end.

(** The loop shared by [read_csv_leads] and [embedded_leads]: [field row k]
    reads column [k] of a row; the [n]-th lead built takes the identifier
    [uuid4 n]; a row lacking a name, a contact or a platform is skipped. *)
Fixpoint collect (field : Row -> string -> string) (uuid4 : nat -> string)
    (n : nat) (rows : list Row) : list Lead :=
  match rows with
  | [] => []
  | row :: rest =>
      let name := Py.strip (field row "Name") in
      let niche := lower (Py.strip (field row "Niche")) in
      let contact := Py.strip (field row "Contact") in
      let platform := lower (Py.strip (field row "Platform")) in
      if negb (PyStr.truthy name) || negb (PyStr.truthy contact)
         || negb (PyStr.truthy platform)
      then collect field uuid4 n rest
      else mkLead (uuid4 n) name niche contact platform 0 EmptyString
           :: collect field uuid4 (S n) rest
  end.

(** The two spellings of a column that [read_csv_leads] accepts. *)
Definition csv_field (row : Row) (k : string) : string :=
  get2_or_empty row k (lower k).

(** [read_csv_leads] on the rows read from the file. *)
Definition read_csv_leads (uuid4 : nat -> string) (rows : list Row)
    : list Lead :=
  dedupe (collect csv_field uuid4 0 rows).

Definition entry (nm nc ct pf : string) : Row :=
  list_to_map [("Name", nm); ("Niche", nc); ("Contact", ct);
               ("Platform", pf)].

Definition EMBEDDED_LEADS : list Row :=
  [entry "Al Noor Realty" "real estate" "info@alnoorrealty.ae" "email";
   entry "Emaar Agent Team" "real estate"
         "https://linkedin.com/in/agentxyz" "linkedin";
   entry "Taste of Dubai" "restaurant" "@tasteofdubai" "instagram";
   entry "Marina Fitness JLT" "gym" "+971501234567" "whatsapp";
   entry "Glow Aesthetics Clinic" "clinic" "hello@glowaesthetics.ae"
         "email";
   entry "Prime Motors Deira" "auto" "@primemotorsdxb" "instagram"].

(** [embedded_leads] on a list of entries. *)
Definition embedded_leads (uuid4 : nat -> string) (rows : list Row)
    : list Lead :=
  dedupe (collect get_or_empty uuid4 0 rows).

(** [sorted(leads, key=lambda x: x.score, reverse=True)]: a stable sort by
    decreasing score, here by insertion.  [insert_desc x l] puts [x], which
    came before the leads of [l], ahead of the first lead of [l] whose
    score is not above its own. *)
Fixpoint insert_desc (x : Lead) (l : list Lead) : list Lead :=
  match l with
  | [] => [x]
  | y :: l' =>
      if Z.ltb (score x) (score y) then y :: insert_desc x l' else x :: l
  end.

Definition sorted_by_score (leads : list Lead) : list Lead :=
  foldr insert_desc [] leads.

(** The rows [export_scored_csv] hands to its [csv.writer]. *)
Definition export_scored_csv (leads : list Lead) : list (list string) :=
  ["ID"; "Name"; "Niche"; "Contact"; "Platform"; "Score"; "Notes"]
  :: map (fun l => [id l; name l; niche l; contact l; platform l;
                    pretty (score l); notes l])
         (sorted_by_score leads).

(** [[a-z0-9]] *)
Definition slug_char (c : ascii) : bool :=
  Regex.in_cls c (concat [Regex.lower; Regex.digit]).

(** [re.sub("[^a-z0-9]+", "-", s)]: every maximal run of other characters
    becomes one hyphen.  [in_run] tells that such a run is being read. *)
Fixpoint hyphenate (in_run : bool) (s : string) : string :=
  match s with
  | EmptyString => EmptyString
  | String c r =>
      if slug_char c then String c (hyphenate false r)
      else if in_run then hyphenate true r
      else String "-" (hyphenate true r)
  end.

(** [s[:n]] *)
Fixpoint prefix (n : nat) (s : string) : string :=
  match n, s with
  | S n', String c r => String c (prefix n' r)
  | _, _ => EmptyString
  end.

(** The directory name [export_outreach_pack] derives from a lead's name. *)
Definition slug (nm : string) : string :=
  prefix 40 (hyphenate false
               (lower (if PyStr.truthy nm then nm else "lead"))).

(** What a message template evaluates to: a text, or [IndexError] raised by
    [lead.name.split()[0]]. *)
Inductive rendered : Type :=
| Text (s : string)
| IndexError.

Definition personalize_observation (niche city : string) : string :=
  let obs : gmap string string :=
    list_to_map
      [("real estate",
        "Dubai property reels are exploding — agents winning use 4–7s hooks and subtitles");
       ("restaurant",
        "Food reels in " +:+ city +:+
        " perform best with overhead shots + on-screen prices");
       ("gym",
        "Fitness content with timer overlays and form tips drives saves in "
        +:+ city);
       ("clinic",
        "Before/after edits with compliant captions convert for clinics in "
        +:+ city);
       ("auto",
        "Showroom walkarounds with spec popups perform well in " +:+ city)]
  in
  default
    ("Short-form clips with captions and on-screen text are outperforming in "
     +:+ city)
    (obs !! niche).

Definition whatsapp_template (lead : Lead) (city brand offer_text : string)
    : rendered :=
  let obs := personalize_observation (niche lead) city in
  let finish (first : string) : rendered :=
    Text (Py.strip
            ("Hey " +:+ first +:+ "! " +:+ obs +:+ ". " +:+
             "I do fast video edits (Reels/TikTok/Shorts). " +:+ offer_text
             +:+ " — " +:+ "Want a free 20s sample? — " +:+ brand)) in
  if PyStr.truthy (name lead) then
    match Py.split (name lead) with
    | first :: _ => finish first
    | [] => IndexError
    end
  else finish EmptyString.

(* ---- observations ---- *)

(** No character of [s] is a blank. *)
Fixpoint no_blank (s : string) : bool :=
  match s with
  | EmptyString => true
  | String c r => negb (Py.is_space c) && no_blank r
  end.

(** Every character of [s] is a blank. *)
Fixpoint all_blank (s : string) : bool :=
  match s with
  | EmptyString => true
  | String c r => Py.is_space c && all_blank r
  end.

(** Every character of [s] is a lower-case letter, a digit or a hyphen. *)
Fixpoint slug_safe (s : string) : bool :=
  match s with
  | EmptyString => true
  | String c r => (slug_char c || bool_decide (c = "-"%char)) && slug_safe r
  end.

(** The tags [qualify] gives for the shape of a contact. *)
Definition contact_tags : list string :=
  ["valid_email"; "valid_phone"; "handle_ok"; "linkedin_url"].

(** What the loaders promise of a lead: name, contact and platform are not
    empty, name and contact carry no blank at either end, niche and
    platform are in lower case, and the lead is not scored yet. *)
Definition loaded (x : Lead) : Prop :=
  name x <> EmptyString /\ contact x <> EmptyString /\
  platform x <> EmptyString /\
  Py.strip (name x) = name x /\ Py.strip (contact x) = contact x /\
  lower (niche x) = niche x /\ lower (platform x) = platform x /\
  score x = 0 /\ notes x = EmptyString.

(** The test [apply_filters] makes on one lead. *)
Definition passes (cfg : Filters) (l : Lead) : Prop :=
  (FILTER_NICHES cfg = [] \/ In (niche l) (map lower (FILTER_NICHES cfg))) /\
  (FILTER_PLATFORMS cfg = []
   \/ In (platform l) (map lower (FILTER_PLATFORMS cfg))).

(** Scores do not increase along the list. *)
Fixpoint descending (l : list Lead) : Prop :=
  match l with
  | [] => True
  | x :: l' => Forall (fun y => score y <= score x) l' /\ descending l'
  end.

End AgentLeads.

(* --------------------------------------------------------------------- *)
(* src/mian.py: exporting.                                                *)
(* --------------------------------------------------------------------- *)
Module LeadGenExport.
Import Py LeadGen.

(** The columns of table [leads], the header [export_csv] writes. *)
Definition columns : list string :=
  ["id"; "source"; "name"; "category"; "rating"; "review_count"; "email";
   "phone"; "website"; "address"; "city"; "state"; "country"; "extras";
   "stage"; "created_at"; "updated_at"].

(** [export_csv]: the count it returns and the file it writes, if it writes
    one: the header and the rows handed to the [csv.writer]. *)
Definition export_csv (E : Env) (st : string)
    : M (Z * option (list string * list LeadRow)) :=
  bind (fetchall E (leads_at st))
    (fun rows =>
       match rows with
       | [] => ret (0, None)
       | _ :: _ => ret (Z.of_nat (length rows), Some (columns, rows))
       end).

(** The rows of [w] are still there, in place, with their ids and creation
    times, possibly followed by new rows. *)
Definition extends (w w' : World) : Prop :=
  exists kept added,
    leads w' = kept ++ added /\
    Forall2 (fun r r' => id (from_row r') = id (from_row r)
                         /\ created_at r' = created_at r)
            (leads w) kept.

(** The stage of a row never goes back to NEW. *)
Definition not_renewed (w w' : World) : Prop :=
  forall i r, find_lead i w = Some r -> stage (from_row r) <> "NEW" ->
  exists r', find_lead i w' = Some r' /\ stage (from_row r') <> "NEW".

(** A world with the given tables. *)
Definition world_of (T : Tables) : World :=
  {| leads := fst T; outreach := snd T; clock := 0; ticks := 0; uuids := 0;
     calls := [] |}.

(** Keeping the primary keys. *)
Definition keeps_keys (w w' : World) : Prop :=
  keys_unique w -> keys_unique w'.

End LeadGenExport.

(* --------------------------------------------------------------------- *)
(* Properties of the rounding of floats.                                   *)
(* --------------------------------------------------------------------- *)
Module FloatSpec.
Import Py.
Local Open Scope Q_scope.

Lemma pow2_pos (z : Z) : 0 < 2 ^ z.
Proof. apply Qpower_0_lt. reflexivity. Qed.

Lemma pow2_plus (a b : Z) : 2 ^ (a + b) == 2 ^ a * 2 ^ b.
Proof. apply Qpower_plus. discriminate. Qed.

Lemma pow2_inject (a : Z) : (0 <= a)%Z -> inject_Z (2 ^ a) == 2 ^ a.
Proof. intros Ha. apply (Zpower_Qpower 2 a Ha). Qed.

Lemma round_half_even_near (y : Q) :
  y - (1 # 2) <= inject_Z (round_half_even y) <= y + (1 # 2).
Proof.
  unfold round_half_even.
  pose proof (Qfloor_le y) as Hlo. pose proof (Qlt_floor y) as Hhi.
  rewrite inject_Z_plus in Hhi. change (inject_Z 1) with 1 in Hhi.
  destruct (Qcompare_spec (y - inject_Z (Qfloor y)) (1 # 2)) as [He|Hl|Hg].
  - destruct (Z.even (Qfloor y)); rewrite ?inject_Z_plus;
      change (inject_Z 1) with 1; split; lra.
  - split; lra.
  - rewrite inject_Z_plus. change (inject_Z 1) with 1. split; lra.
Qed.

Lemma round_half_even_integer (y : Q) (k : Z) :
  y == inject_Z k -> round_half_even y = k.
Proof.
  intros Hy. unfold round_half_even.
  assert (Hf : Qfloor y = k) by (rewrite Hy; apply Qfloor_Z).
  rewrite Hf.
  assert (Hc : Qcompare (y - inject_Z k) (1 # 2) = Lt).
  { rewrite <- Qlt_alt. lra. }
  rewrite Hc. reflexivity.
Qed.

(** [binade x] is the exponent of the power of 2 at or just below [x]. *)
Lemma binade_le (x : Q) : 0 < x -> 2 ^ binade x <= x.
Proof.
  intros Hx. unfold binade. destruct x as [n d]. cbn [Qnum Qden].
  set (a := Z.log2 (Z.abs n)). set (b := Z.log2 (Z.pos d)).
  destruct (Qle_bool (2 ^ (a - b)) (Qabs (n # d))) eqn:Ht.
  - apply Qle_bool_iff in Ht. rewrite Qabs_pos in Ht by lra. exact Ht.
  - assert (Hn : (0 < n)%Z).
    { unfold Qlt in Hx. simpl in Hx. lia. }
    assert (Ha : (2 ^ a <= n)%Z).
    { unfold a. rewrite Z.abs_eq by lia. apply Z.log2_spec. exact Hn. }
    assert (Hb : (Z.pos d < 2 ^ (b + 1))%Z).
    { unfold b. replace (Z.log2 (Z.pos d) + 1)%Z
        with (Z.succ (Z.log2 (Z.pos d))) by lia.
      apply Z.log2_spec. lia. }
    assert (Ha0 : (0 <= a)%Z) by apply Z.log2_nonneg.
    assert (Hb0 : (0 <= b)%Z) by apply Z.log2_nonneg.
    replace (a - b - 1)%Z with (a + - (b + 1))%Z by lia.
    rewrite pow2_plus, Qpower_opp.
    rewrite <- (pow2_inject a Ha0), <- (pow2_inject (b + 1)) by lia.
    assert (HA : inject_Z (2 ^ a) <= inject_Z n)
      by (rewrite <- Zle_Qle; exact Ha).
    assert (HB : inject_Z (Z.pos d) <= inject_Z (2 ^ (b + 1)))
      by (rewrite <- Zle_Qle; lia).
    assert (HD : 0 < inject_Z (Z.pos d))
      by (rewrite <- (Zlt_Qlt 0); lia).
    assert (HA' : 0 < inject_Z (2 ^ a)).
    { rewrite <- (Zlt_Qlt 0). apply Z.pow_pos_nonneg; lia. }
    rewrite (Qmake_Qdiv n d).
    apply Qle_shift_div_l; [exact HD|].
    rewrite <- Qmult_assoc.
    apply Qle_trans with (inject_Z (2 ^ a) * 1); [|lra].
    apply Qmult_le_l; [exact HA'|].
    rewrite Qmult_comm. apply Qle_shift_div_r; lra.
Qed.

Lemma binade_lt (x : Q) : 0 < x -> x < 2 ^ (binade x + 1).
Proof.
  intros Hx. unfold binade. destruct x as [n d]. cbn [Qnum Qden].
  set (a := Z.log2 (Z.abs n)). set (b := Z.log2 (Z.pos d)).
  destruct (Qle_bool (2 ^ (a - b)) (Qabs (n # d))) eqn:Ht.
  - assert (Hn : (0 < n)%Z).
    { unfold Qlt in Hx. simpl in Hx. lia. }
    assert (Ha : (n < 2 ^ (a + 1))%Z).
    { unfold a. rewrite Z.abs_eq by lia.
      replace (Z.log2 n + 1)%Z with (Z.succ (Z.log2 n)) by lia.
      apply Z.log2_spec. exact Hn. }
    assert (Hb : (2 ^ b <= Z.pos d)%Z).
    { unfold b. apply Z.log2_spec. lia. }
    assert (Ha0 : (0 <= a)%Z) by apply Z.log2_nonneg.
    assert (Hb0 : (0 <= b)%Z) by apply Z.log2_nonneg.
    replace (a - b + 1)%Z with (a + 1 + - b)%Z by lia.
    rewrite pow2_plus, Qpower_opp.
    rewrite <- (pow2_inject (a + 1)), <- (pow2_inject b Hb0) by lia.
    assert (HA : inject_Z n < inject_Z (2 ^ (a + 1)))
      by (rewrite <- Zlt_Qlt; exact Ha).
    assert (HB : inject_Z (2 ^ b) <= inject_Z (Z.pos d))
      by (rewrite <- Zle_Qle; exact Hb).
    assert (HB' : 0 < inject_Z (2 ^ b)).
    { rewrite <- (Zlt_Qlt 0). apply Z.pow_pos_nonneg; lia. }
    assert (HD : 0 < inject_Z (Z.pos d))
      by (rewrite <- (Zlt_Qlt 0); lia).
    assert (HN : 0 < inject_Z n) by (rewrite <- (Zlt_Qlt 0); lia).
    rewrite (Qmake_Qdiv n d).
    apply Qlt_shift_div_r; [exact HD|].
    apply Qlt_le_trans with (inject_Z (2 ^ (a + 1)) * 1); [lra|].
    rewrite <- Qmult_assoc. apply Qmult_le_l; [lra|].
    rewrite Qmult_comm. apply Qle_shift_div_l; lra.
  - replace (a - b - 1 + 1)%Z with (a - b)%Z by lia.
    apply Qnot_le_lt. intros Hle.
    rewrite <- (Qabs_pos (n # d)) in Hle by lra.
    apply Qle_bool_iff in Hle. congruence.
Qed.

(** Roundings by hand: one tenth; the two ties 2^53 + 1 and 3 * 2^-1075,
    which go to the even neighbour; half the smallest float, which goes to
    0; and 60 divided by 20 and by 7. *)
Example round_float_samples :
  round_float (1 # 10) == 3602879701896397 # (2 ^ 55) /\
  round_float (- (1 # 10)) == - (3602879701896397 # (2 ^ 55)) /\
  float_of_int 9007199254740993 == 9007199254740992 /\
  float_of_int 9007199254740995 == 9007199254740996 /\
  round_float (3 # (2 ^ 1075)) == 2 # (2 ^ 1074) /\
  round_float (1 # (2 ^ 1075)) == 0 /\
  float_div 60 (float_of_int 20) == 3 /\
  float_div 60 (float_of_int 7) == 4825285315039817 # (2 ^ 49) /\
  float_sub (1 # 10) 0 == round_float (1 # 10).
Proof. vm_compute. repeat split; reflexivity. Qed.

Lemma round_float_zero (x : Q) : x == 0 -> round_float x == 0.
Proof.
  intros Hx. unfold round_float.
  rewrite (round_half_even_integer _ 0);
    [change (inject_Z 0) with 0; ring|].
  change (inject_Z 0) with 0. unfold Qdiv.
  set (P := / 2 ^ quantum x). rewrite Hx. ring.
Qed.

(** A rounding moves a number that is not negative by no more than one
    part in 2^53 of it, or by 2^-1075 among the subnormal numbers. *)
Lemma round_float_error (x : Q) :
  0 <= x ->
  x - (unit_roundoff * x + tiny) <= round_float x
  /\ round_float x <= x + (unit_roundoff * x + tiny).
Proof.
  intros Hx.
  destruct (Qlt_le_dec 0 x) as [Hpos|Hle].
  2:{ assert (H0 : x == 0) by lra.
      rewrite (round_float_zero x H0). rewrite H0.
      unfold unit_roundoff, tiny. split; lra. }
  unfold round_float.
  set (P := 2 ^ quantum x).
  assert (HP : 0 < P) by apply pow2_pos.
  pose proof (round_half_even_near (x / P)) as [Hlo Hhi].
  set (m := inject_Z (round_half_even (x / P))) in *.
  assert (Hxy : x / P * P == x) by (field; lra).
  assert (Hhalf : P * (1 # 2) <= unit_roundoff * x + tiny).
  { unfold P, quantum.
    destruct (Z.max_spec (-1074) (binade x - 52)) as [[Hlt ->]|[Hge ->]].
    - replace (binade x - 52)%Z with (binade x + -52)%Z by lia.
      rewrite pow2_plus.
      pose proof (binade_le x Hpos) as Hb.
      assert (Hc : 2 ^ (-52) * (1 # 2) == unit_roundoff)
        by (vm_compute; reflexivity).
      rewrite <- Qmult_assoc, Hc.
      assert (Ht : 0 <= tiny) by (unfold tiny; discriminate).
      assert (Hu : 0 <= unit_roundoff) by (unfold unit_roundoff; discriminate).
      apply Qle_trans with (x * unit_roundoff); [|lra].
      apply Qmult_le_compat_r; assumption.
    - assert (Hc : 2 ^ (-1074) * (1 # 2) == tiny)
        by (vm_compute; reflexivity).
      rewrite Hc.
      assert (Hu : 0 <= unit_roundoff * x).
      { apply Qmult_le_0_compat; [unfold unit_roundoff; discriminate|lra]. }
      lra. }
  assert (H1 : (x / P - (1 # 2)) * P <= m * P)
    by (apply Qmult_le_compat_r; lra).
  assert (H2 : m * P <= (x / P + (1 # 2)) * P)
    by (apply Qmult_le_compat_r; lra).
  assert (E1 : (x / P - (1 # 2)) * P == x - P * (1 # 2))
    by (rewrite <- Hxy at 2; ring).
  assert (E2 : (x / P + (1 # 2)) * P == x + P * (1 # 2))
    by (rewrite <- Hxy at 2; ring).
  rewrite E1 in H1. rewrite E2 in H2. split; lra.
Qed.

(** The integers from 1 to 2^53 are floats: converting one changes
    nothing. *)
Lemma float_of_int_exact (n : Z) :
  (1 <= n <= 2 ^ 53)%Z -> float_of_int n == inject_Z n.
Proof.
  intros [H1 H53]. unfold float_of_int, round_float.
  assert (Hb : binade (inject_Z n) = Z.log2 n).
  { unfold binade. change (Qnum (inject_Z n)) with n.
    change (Qden (inject_Z n)) with 1%positive. rewrite Z.abs_eq by lia.
    change (Z.log2 1) with 0%Z. rewrite Z.sub_0_r.
    assert (Hle : 2 ^ Z.log2 n <= Qabs (inject_Z n)).
    { rewrite Qabs_pos by (rewrite <- (Zle_Qle 0); lia).
      rewrite <- pow2_inject by apply Z.log2_nonneg.
      rewrite <- Zle_Qle. apply Z.log2_spec. lia. }
    apply Qle_bool_iff in Hle. rewrite Hle. reflexivity. }
  assert (Ha0 : (0 <= Z.log2 n)%Z) by apply Z.log2_nonneg.
  assert (Ha : (Z.log2 n <= 53)%Z).
  { change 53%Z with (Z.log2 (2 ^ 53)). apply Z.log2_le_mono. exact H53. }
  unfold quantum. rewrite Hb.
  rewrite Z.max_r by lia.
  set (a := Z.log2 n) in *.
  destruct (Z_le_gt_dec a 52) as [Hle|Hgt].
  - rewrite (round_half_even_integer _ (n * 2 ^ (52 - a))).
    + rewrite inject_Z_mult, pow2_inject by lia.
      rewrite <- Qmult_assoc, <- pow2_plus.
      replace (52 - a + (a - 52))%Z with 0%Z by lia.
      change (2 ^ 0) with 1. ring.
    + rewrite inject_Z_mult, pow2_inject by lia.
      replace (a - 52)%Z with (- (52 - a))%Z by lia.
      rewrite Qpower_opp. unfold Qdiv. rewrite Qinv_involutive.
      reflexivity.
  - assert (a = 53%Z) by lia.
    assert (Hn : n = (2 ^ 53)%Z).
    { pose proof (Z.log2_spec n ltac:(lia)) as [Hlo _].
      fold a in Hlo. subst a. rewrite H in Hlo. lia. }
    subst n. rewrite H. vm_compute. reflexivity.
Qed.

Lemma round_float_nonneg (x : Q) : 0 <= x -> 0 <= round_float x.
Proof.
  intros Hx. unfold round_float.
  apply Qmult_le_0_compat; [|apply Qlt_le_weak, pow2_pos].
  set (y := x / 2 ^ quantum x).
  assert (Hy : 0 <= y).
  { unfold y. apply Qle_shift_div_l; [apply pow2_pos | lra]. }
  assert (Hf : (0 <= Qfloor y)%Z).
  { change 0%Z with (Qfloor 0). apply Qfloor_resp_le. exact Hy. }
  rewrite <- (Zle_Qle 0). unfold round_half_even. fold y.
  destruct (Qcompare (y - inject_Z (Qfloor y)) (1 # 2));
    [destruct (Z.even (Qfloor y))| |]; lia.
Qed.

(** The arithmetic of the rate limit.  [t] is the clock when the loop
    comes to a message, [last] the clock after the last send and [i] the
    interval: when the rounded difference is below [i] the loop sleeps for
    the rounded rest, and either way the next send is no sooner than [i],
    less the roundings, after the last. *)
Lemma paced_gap (i last t : Q) :
  0 <= i -> last <= t ->
  (float_sub t last < i ->
   last + (i * (1 - unit_roundoff) - 2 * tiny)
   <= t + float_sub i (float_sub t last)) /\
  (i <= float_sub t last ->
   last + (i * (1 - unit_roundoff) - 2 * tiny) <= t).
Proof.
  intros Hi Hx. unfold float_sub.
  assert (Hx0 : 0 <= t - last) by lra.
  pose proof (round_float_error (t - last) Hx0) as [_ Hup].
  set (fx := round_float (t - last)) in *.
  split.
  - intros Hlt.
    assert (Hy : 0 <= i - fx) by lra.
    pose proof (round_float_error (i - fx) Hy) as [Hlo _].
    set (d := round_float (i - fx)) in *.
    unfold unit_roundoff, tiny in *. lra.
  - intros Hge. unfold unit_roundoff, tiny in *. lra.
Qed.

End FloatSpec.

(* ===================================================================== *)
(* Properties of src/cursor_dxb_video_agent.py                            *)
(* ===================================================================== *)
Module AgentSpec.
Import Agent.

Lemma get_at_least (d : gmap string Z) (k : string) (dflt lo : Z) :
  map_Forall (fun _ v => lo <= v) d -> lo <= dflt -> lo <= get d k dflt.
Proof.
  intros Hd Hdflt. unfold get.
  destruct (d !! k) as [v|] eqn:Hk; simpl.
  - exact (Hd k v Hk).
  - exact Hdflt.
Qed.

Lemma niche_weights_positive : map_Forall (fun _ v => 1 <= v) NICHE_WEIGHTS.
Proof.
  unfold NICHE_WEIGHTS. simpl.
  repeat (apply map_Forall_insert_2; [lia|]).
  apply map_Forall_empty.
Qed.

Lemma platform_weights_positive :
  map_Forall (fun _ v => 1 <= v) PLATFORM_WEIGHTS.
Proof.
  unfold PLATFORM_WEIGHTS. simpl.
  repeat (apply map_Forall_insert_2; [lia|]).
  apply map_Forall_empty.
Qed.

Lemma bonus_grows (cond : bool) (w : Z) (tag : string)
    (acc : Z * list string) :
  0 <= w -> fst acc <= fst (bonus cond w tag acc).
Proof.
  intros Hw. unfold bonus. destruct cond; simpl; lia.
Qed.

(** C9. The lead "Al Noor Realty" (niche "real estate", contact
    "info@alnoorrealty.ae", platform "email") scores exactly 9: niche
    weight 3, platform weight 3, valid-email bonus 2, visual-niche bonus 1;
    the bonuses recorded are valid_email and visual_niche. *)
Theorem al_noor_scores_nine :
  NICHE_WEIGHTS !! "real estate" = Some 3 /\
  PLATFORM_WEIGHTS !! "email" = Some 3 /\
  Regex.search EMAIL_RE (contact al_noor) = true /\
  score (qualify al_noor "Dubai, UAE") = 9 /\
  notes (qualify al_noor "Dubai, UAE") = "valid_email,visual_niche".
Proof.
  repeat split; vm_compute; reflexivity.
Qed.

(** C10. For every lead and city, the score computed by [qualify] is at
    least 2: the niche weight and the platform weight are each at least 1
    (1 being the default for an unknown key) and no bonus is negative. *)
Theorem qualify_score_at_least_two (lead : Lead) (city : string) :
  2 <= score (qualify lead city).
Proof.
  unfold qualify; simpl. unfold qualify_acc.
  pose proof (get_at_least NICHE_WEIGHTS (niche lead) 1 1
                niche_weights_positive ltac:(lia)) as Hn.
  pose proof (get_at_least PLATFORM_WEIGHTS (platform lead) 1 1
                platform_weights_positive ltac:(lia)) as Hp.
  repeat (etransitivity; [|apply bonus_grows; lia]).
  simpl. lia.
Qed.

(** The bound is met: a lead of unknown niche and platform scores the two
    default weights and nothing else. *)
Example unknown_lead_scores_two :
  score (qualify {| id := "1"; name := "Harbour Books"; niche := "bookshop";
                    contact := "0123"; platform := "fax";
                    score := 0; notes := EmptyString |} "Dubai, UAE") = 2.
Proof. vm_compute. reflexivity. Qed.

(** The embedded leads, scored. *)
Example embedded_lead_scores :
  map (fun l => score (qualify l "Dubai, UAE"))
      [mkLead "1" "Emaar Agent Team" "real estate"
              "https://linkedin.com/in/agentxyz" "linkedin" 0 EmptyString;
       mkLead "2" "Taste of Dubai" "restaurant" "@tasteofdubai"
              "instagram" 0 EmptyString;
       mkLead "3" "Marina Fitness JLT" "gym" "+971501234567" "whatsapp"
              0 EmptyString;
       mkLead "4" "Prime Motors Deira" "auto" "@primemotorsdxb" "instagram"
              0 EmptyString]
  = [7; 6; 8; 6].
Proof. vm_compute. reflexivity. Qed.

End AgentSpec.

(* ===================================================================== *)
(* Properties of src/mian.py                                              *)
(* ===================================================================== *)
Module LeadGenSpec.
Import Py LeadGen Samples FloatSpec.

(* ---- loops ---- *)

(** A loop whose body always returns, and keeps an invariant [I] of the
    rows already processed, returns with the invariant of all rows. *)
Lemma for_each_inv {A S : Type} (body : A -> S -> M S) (rows : list A)
    (I : list A -> S -> World -> Prop) :
  (forall done x rest s w,
      rows = done ++ x :: rest -> I done s w ->
      exists s' w', body x s w = (Ok s', w') /\ I (done ++ [x]) s' w') ->
  forall s w, I [] s w ->
  exists s' w', for_each rows body s w = (Ok s', w') /\ I rows s' w'.
Proof.
  intros Hstep.
  assert (Hgen : forall rest done s w,
             rows = done ++ rest -> I done s w ->
             exists s' w', for_each rest body s w = (Ok s', w')
                           /\ I rows s' w').
  { induction rest as [|x rest IH]; intros done s w Hrows HI.
    - rewrite app_nil_r in Hrows. subst done. simpl. unfold ret. eauto.
    - destruct (Hstep done x rest s w Hrows HI) as (s1 & w1 & Hb & HI1).
      simpl. unfold bind at 1. rewrite Hb.
      apply (IH (done ++ [x])); [|exact HI1].
      rewrite <- app_assoc. exact Hrows. }
  intros s w HI. exact (Hgen rows [] s w eq_refl HI).
Qed.

(** The world after the environment step of a [SELECT]. *)
Lemma fetchall_run {A : Type} (E : Env) (q : World -> list A) (w : World) :
  fetchall E q w =
  (Ok (q {| leads := leads w; outreach := outreach w;
            clock := (clock w + elapse E (ticks w))%Q;
            ticks := S (ticks w); uuids := uuids w; calls := calls w |}),
   {| leads := leads w; outreach := outreach w;
      clock := (clock w + elapse E (ticks w))%Q;
      ticks := S (ticks w); uuids := uuids w; calls := calls w |}).
Proof. reflexivity. Qed.

(** Rounding towards zero keeps the order. *)
Lemma quot_neg (a : Z) (p : positive) :
  a < 0 -> Z.quot a (Z.pos p) = - ((- a) / Z.pos p).
Proof.
  intros Ha. rewrite <- (Z.quot_div_nonneg (- a)) by lia.
  rewrite Z.quot_opp_l by lia. lia.
Qed.

Lemma int_of_mono (x y : Q) : (x <= y)%Q -> int_of x <= int_of y.
Proof.
  unfold int_of, Qle. destruct x as [a p], y as [b q]. simpl. intros Hle.
  destruct (Z_lt_le_dec a 0) as [Ha|Ha], (Z_lt_le_dec b 0) as [Hb|Hb].
  - rewrite !quot_neg by assumption.
    apply Z.opp_le_mono. rewrite !Z.opp_involutive.
    apply Z.div_le_lower_bound; [lia|].
    pose proof (Z.mul_div_le (- b) (Z.pos q) ltac:(lia)). nia.
  - transitivity 0.
    + rewrite quot_neg by assumption.
      pose proof (Z.div_pos (- a) (Z.pos p) ltac:(lia) ltac:(lia)). lia.
    + apply Z.quot_pos; lia.
  - exfalso. nia.
  - rewrite !Z.quot_div_nonneg by lia.
    apply Z.div_le_lower_bound; [lia|].
    pose proof (Z.mul_div_le a (Z.pos p) ltac:(lia)). nia.
Qed.

(* ---- lookups by primary key ---- *)

Lemma find_map_keep (i : string) (f : LeadRow -> LeadRow)
    (rows : list LeadRow) :
  (forall r, has_id i (f r) = has_id i r) ->
  find (has_id i) (map f rows) = option_map f (find (has_id i) rows).
Proof.
  intros Hf. induction rows as [|r rows IH]; simpl; [reflexivity|].
  rewrite Hf. destruct (has_id i r); [reflexivity | exact IH].
Qed.

Lemma find_map_other (i : string) (f : LeadRow -> LeadRow)
    (rows : list LeadRow) :
  (forall r, has_id i (f r) = has_id i r) ->
  (forall r, has_id i r = true -> f r = r) ->
  find (has_id i) (map f rows) = find (has_id i) rows.
Proof.
  intros Hid Hf. induction rows as [|r rows IH]; simpl; [reflexivity|].
  rewrite Hid. destruct (has_id i r) eqn:Hr.
  - rewrite (Hf r Hr). reflexivity.
  - exact IH.
Qed.

Lemma find_none_map_id (i : string) (f : LeadRow -> LeadRow)
    (rows : list LeadRow) :
  find (has_id i) rows = None ->
  map (fun r => if has_id i r then f r else r) rows = rows.
Proof.
  induction rows as [|r rows IH]; simpl; [reflexivity|].
  destruct (has_id i r) eqn:Hr; [discriminate|].
  intros H. rewrite (IH H). reflexivity.
Qed.

Lemma has_id_true (i : string) (r : LeadRow) :
  has_id i r = true <-> id (from_row r) = i.
Proof. unfold has_id. apply bool_decide_eq_true. Qed.

Lemma has_id_false (i : string) (r : LeadRow) :
  has_id i r = false <-> id (from_row r) <> i.
Proof. unfold has_id. apply bool_decide_eq_false. Qed.

Lemma find_has_id (i : string) (rows : list LeadRow) (r : LeadRow) :
  find (has_id i) rows = Some r -> id (from_row r) = i.
Proof.
  intros H. apply find_some in H. apply has_id_true. tauto.
Qed.

Lemma existsb_find (i : string) (rows : list LeadRow) :
  existsb (has_id i) rows = true <-> exists r, find (has_id i) rows = Some r.
Proof.
  induction rows as [|r rows IH]; simpl.
  - split; [discriminate | intros [r H]; discriminate].
  - destruct (has_id i r); simpl; [|exact IH].
    split; eauto.
Qed.

(* ---- the Lead Store ---- *)

Lemma set_stage_run (E : Env) (i st : string) (w : World) :
  set_stage E i st w =
  (Ok tt,
   {| leads := update_stage st (now_at E w) i (leads w);
      outreach := outreach w;
      clock := (clock w + elapse E (ticks w) + elapse E (S (ticks w)))%Q;
      ticks := S (S (ticks w));
      uuids := uuids w;
      calls := calls w |}).
Proof. reflexivity. Qed.

Lemma update_stage_keeps_id (st : string) (t : Z) (i j : string)
    (r : LeadRow) :
  has_id j (if has_id i r
            then {| from_row := with_stage st (from_row r);
                    created_at := created_at r; updated_at := t |}
            else r) = has_id j r.
Proof. destruct (has_id i r); reflexivity. Qed.

Lemma find_update_stage_same (st : string) (t : Z) (i : string)
    (rows : list LeadRow) :
  find (has_id i) (update_stage st t i rows) =
  option_map (fun r => {| from_row := with_stage st (from_row r);
                          created_at := created_at r; updated_at := t |})
             (find (has_id i) rows).
Proof.
  induction rows as [|r rows IH]; simpl; [reflexivity|].
  destruct (has_id i r) eqn:Hr; simpl.
  - unfold has_id in *. simpl. rewrite Hr. reflexivity.
  - rewrite Hr. exact IH.
Qed.

Lemma find_update_stage_other (st : string) (t : Z) (i j : string)
    (rows : list LeadRow) :
  j <> i ->
  find (has_id j) (update_stage st t i rows) = find (has_id j) rows.
Proof.
  intros Hji. unfold update_stage. apply find_map_other.
  - intros r. apply update_stage_keeps_id.
  - intros r Hr. apply has_id_true in Hr.
    destruct (has_id i r) eqn:Hi; [|reflexivity].
    apply has_id_true in Hi. congruence.
Qed.

Lemma lead_ids_update_stage (st : string) (t : Z) (i : string)
    (rows : list LeadRow) :
  map (fun r => id (from_row r)) (update_stage st t i rows)
  = map (fun r => id (from_row r)) rows.
Proof.
  unfold update_stage. rewrite map_map. apply map_ext.
  intros r. destruct (has_id i r); reflexivity.
Qed.

(** C5 (as amended). [set_stage] never raises.  For an id unknown to the
    store it returns normally and leaves both tables unchanged; for a known
    id it overwrites the stage and [updated_at] of that lead, keeping every
    other column, and a subsequent read by id observes the new stage.  Rows
    with another id are not affected. *)
Theorem set_stage_overwrites_or_ignores (E : Env) (lead_id st : string)
    (w : World) :
  let w' := after (set_stage E lead_id st) w in
  fst (set_stage E lead_id st w) = Ok tt /\
  outreach w' = outreach w /\
  lead_ids w' = lead_ids w /\
  (find_lead lead_id w = None -> leads w' = leads w) /\
  (forall r, find_lead lead_id w = Some r ->
     find_lead lead_id w' =
       Some {| from_row := with_stage st (from_row r);
               created_at := created_at r;
               updated_at := now_at E w |} /\
     In {| from_row := with_stage st (from_row r);
           created_at := created_at r;
           updated_at := now_at E w |} (leads_at st w')) /\
  (forall j, j <> lead_id -> find_lead j w' = find_lead j w).
Proof.
  unfold after. rewrite set_stage_run. simpl.
  unfold find_lead, lead_ids. simpl.
  split; [reflexivity|]. split; [reflexivity|].
  split; [apply lead_ids_update_stage|].
  split; [|split].
  - intros Hnone. unfold update_stage. apply find_none_map_id. exact Hnone.
  - intros r Hr.
    assert (Hf : find (has_id lead_id)
                   (update_stage st (now_at E w) lead_id (leads w))
                 = Some {| from_row := with_stage st (from_row r);
                           created_at := created_at r;
                           updated_at := now_at E w |}).
    { rewrite find_update_stage_same, Hr. reflexivity. }
    split; [exact Hf|].
    apply find_some in Hf. destruct Hf as [Hin _].
    unfold leads_at. simpl.
    apply list_elem_of_In, list_elem_of_filter. split; [reflexivity|].
    apply list_elem_of_In. exact Hin.
  - intros j Hj. apply find_update_stage_other. exact Hj.
Qed.

(** Against C5 as first stated: for an id the store does not know,
    [set_stage] returns normally; nothing is raised. *)
Lemma set_stage_unknown_id_returns :
  find_lead "nobody" leads_only = None /\
  fst (set_stage env "nobody" "QUALIFIED" leads_only) = Ok tt /\
  ~ (exists e, fst (set_stage env "nobody" "QUALIFIED" leads_only)
               = Raise e).
Proof.
  split; [reflexivity|]. split; [reflexivity|].
  intros [e He]. rewrite set_stage_run in He. discriminate.
Qed.

Lemma upsert_lead_run (E : Env) (lead : Lead) (w : World) :
  upsert_lead E lead w =
  (Ok tt,
   {| leads := insert_or_update lead (now_at E w) (upsert_time E w) (leads w);
      outreach := outreach w;
      clock := (clock w + elapse E (ticks w) + elapse E (S (ticks w))
                + elapse E (S (S (ticks w))))%Q;
      ticks := S (S (S (ticks w)));
      uuids := uuids w;
      calls := calls w |}).
Proof. reflexivity. Qed.

Lemma do_update_shape (lead : Lead) (u : Z) (r : LeadRow) :
  has_id (id lead) r = true ->
  do_update lead u r =
  {| from_row := with_stage (stage (from_row r)) lead;
     created_at := created_at r; updated_at := u |}.
Proof.
  intros Hr. apply has_id_true in Hr.
  unfold do_update, with_stage. rewrite Hr. reflexivity.
Qed.

Lemma do_update_keeps_id (lead : Lead) (u : Z) (j : string) (r : LeadRow) :
  has_id j (if has_id (id lead) r then do_update lead u r else r)
  = has_id j r.
Proof. destruct (has_id (id lead) r); reflexivity. Qed.

Lemma ids_insert_or_update (lead : Lead) (c u : Z) (rows : list LeadRow) :
  map (fun r => id (from_row r)) (insert_or_update lead c u rows) =
  if existsb (has_id (id lead)) rows
  then map (fun r => id (from_row r)) rows
  else map (fun r => id (from_row r)) rows ++ [id lead].
Proof.
  unfold insert_or_update.
  destruct (existsb (has_id (id lead)) rows).
  - rewrite map_map. apply map_ext. intros r.
    destruct (has_id (id lead) r); reflexivity.
  - rewrite map_app. reflexivity.
Qed.

Lemma existsb_has_id_In (i : string) (rows : list LeadRow) :
  existsb (has_id i) rows = true <->
  In i (map (fun r => id (from_row r)) rows).
Proof.
  rewrite existsb_exists, in_map_iff. split.
  - intros (r & Hin & Hr). apply has_id_true in Hr. eauto.
  - intros (r & Hr & Hin). exists r. split; [exact Hin|].
    apply has_id_true. exact Hr.
Qed.

Lemma NoDup_insert_or_update (lead : Lead) (c u : Z)
    (rows : list LeadRow) :
  NoDup (map (fun r => id (from_row r)) rows) ->
  NoDup (map (fun r => id (from_row r)) (insert_or_update lead c u rows)).
Proof.
  intros Hnd. rewrite ids_insert_or_update.
  destruct (existsb (has_id (id lead)) rows) eqn:Hex; [exact Hnd|].
  apply NoDup_app. split; [exact Hnd|]. split.
  - intros x Hx Hx'. apply list_elem_of_In in Hx'. simpl in Hx'.
    destruct Hx' as [<-|[]].
    apply list_elem_of_In, existsb_has_id_In in Hx. congruence.
  - apply NoDup_singleton.
Qed.

Lemma find_insert_or_update_same (lead : Lead) (c u : Z)
    (rows : list LeadRow) :
  find (has_id (id lead)) (insert_or_update lead c u rows) =
  match find (has_id (id lead)) rows with
  | Some r => Some {| from_row := with_stage (stage (from_row r)) lead;
                      created_at := created_at r; updated_at := u |}
  | None => Some {| from_row := lead; created_at := c; updated_at := u |}
  end.
Proof.
  unfold insert_or_update.
  destruct (existsb (has_id (id lead)) rows) eqn:Hex.
  - induction rows as [|r rows IH]; simpl in *; [discriminate|].
    destruct (has_id (id lead) r) eqn:Hr; simpl.
    + assert (Hk : has_id (id lead) (do_update lead u r) = true)
        by (apply has_id_true; apply has_id_true in Hr; exact Hr).
      rewrite Hk. rewrite do_update_shape by exact Hr. reflexivity.
    + rewrite Hr. apply IH. exact Hex.
  - assert (Hnone : find (has_id (id lead)) rows = None).
    { destruct (find (has_id (id lead)) rows) as [r|] eqn:Hf;
        [|reflexivity].
      assert (existsb (has_id (id lead)) rows = true)
        by (apply existsb_find; eauto).
      congruence. }
    rewrite Hnone. clear Hex.
    induction rows as [|r rows IH]; simpl in *.
    + unfold has_id. simpl. rewrite bool_decide_eq_true_2; reflexivity.
    + destruct (has_id (id lead) r); [discriminate|]. apply IH. exact Hnone.
Qed.

Lemma find_insert_or_update_other (lead : Lead) (c u : Z) (j : string)
    (rows : list LeadRow) :
  j <> id lead ->
  find (has_id j) (insert_or_update lead c u rows) = find (has_id j) rows.
Proof.
  intros Hj. unfold insert_or_update.
  destruct (existsb (has_id (id lead)) rows).
  - apply find_map_other.
    + intros r. apply do_update_keeps_id.
    + intros r Hr. apply has_id_true in Hr.
      destruct (has_id (id lead) r) eqn:Hi; [|reflexivity].
      apply has_id_true in Hi. congruence.
  - induction rows as [|r rows IH]; simpl.
    + unfold has_id. simpl. rewrite bool_decide_eq_false_2; congruence.
    + destruct (has_id j r); [reflexivity | exact IH].
Qed.

(** Under a primary key, the rows with a given stored id are exactly one. *)
Lemma one_row_per_id (i : string) (rows : list LeadRow) :
  NoDup (map (fun r => id (from_row r)) rows) ->
  In i (map (fun r => id (from_row r)) rows) ->
  length (filter (fun r => id (from_row r) = i) rows) = 1%nat.
Proof.
  induction rows as [|r rows IH]; simpl; intros Hnd Hin; [contradiction|].
  apply NoDup_cons in Hnd. destruct Hnd as [Hr Hnd].
  rewrite filter_cons. destruct (decide (id (from_row r) = i)) as [Heq|Hne].
  - simpl. f_equal. subst i.
    apply length_zero_iff_nil.
    destruct (filter (fun r0 => id (from_row r0) = id (from_row r)) rows)
      as [|x xs] eqn:Hf; [reflexivity|].
    exfalso. apply Hr.
    assert (Hx : x ∈ filter (fun r0 => id (from_row r0) = id (from_row r))
                       rows) by (rewrite Hf; left).
    apply list_elem_of_filter in Hx. destruct Hx as [Hid Hx].
    rewrite <- Hid. apply list_elem_of_fmap. eauto.
  - destruct Hin as [Heq|Hin]; [contradiction|].
    apply IH; assumption.
Qed.

(** C1 (as amended). [upsert_lead] is idempotent on the lead's [id], the
    key of its [ON CONFLICT] clause: in a store with unique ids, upserting
    a lead twice leaves exactly one row with that id, the second upsert
    adds no row, keeps [id], [stage] and [created_at] of the stored row,
    overwrites every other column with the lead's values, and sets
    [updated_at] to the time of the second call (not earlier than the first
    when the clock does not run backwards); other rows and the outreach
    table are untouched. *)
Theorem upsert_lead_idempotent_on_id (E : Env) (lead : Lead) (w : World)
    (Hkey : NoDup (lead_ids w)) :
  let w1 := after (upsert_lead E lead) w in
  let w2 := after (upsert_lead E lead) w1 in
  fst (upsert_lead E lead w) = Ok tt /\
  fst (upsert_lead E lead w1) = Ok tt /\
  length (filter (fun r => id (from_row r) = id lead) (leads w2)) = 1%nat /\
  lead_ids w2 = lead_ids w1 /\
  NoDup (lead_ids w2) /\
  (exists r1,
      find_lead (id lead) w1 = Some r1 /\
      updated_at r1 = upsert_time E w /\
      find_lead (id lead) w2 =
        Some {| from_row := with_stage (stage (from_row r1)) lead;
                created_at := created_at r1;
                updated_at := upsert_time E w1 |} /\
      ((forall n, (0 <= elapse E n)%Q) ->
       updated_at r1 <= upsert_time E w1)) /\
  (forall j, j <> id lead -> find_lead j w2 = find_lead j w1) /\
  outreach w2 = outreach w.
Proof.
  intros w1 w2. subst w2 w1. unfold after.
  rewrite (upsert_lead_run E lead w). cbn [fst snd].
  set (rows1 := insert_or_update lead (now_at E w) (upsert_time E w)
                  (leads w)).
  set (w1 := {| leads := rows1; outreach := outreach w;
                clock := _; ticks := _; uuids := _; calls := _ |}).
  rewrite (upsert_lead_run E lead w1). cbn [fst snd].
  unfold find_lead, lead_ids in *. cbn [leads outreach].
  change (leads w1) with rows1.
  assert (Hin1 : In (id lead) (map (fun r => id (from_row r)) rows1)).
  { unfold rows1. rewrite ids_insert_or_update.
    destruct (existsb (has_id (id lead)) (leads w)) eqn:Hex.
    - apply existsb_has_id_In. exact Hex.
    - apply in_or_app. right. left. reflexivity. }
  assert (Hex1 : existsb (has_id (id lead)) rows1 = true)
    by (apply existsb_has_id_In; exact Hin1).
  assert (Hnd1 : NoDup (map (fun r => id (from_row r)) rows1))
    by (apply NoDup_insert_or_update; exact Hkey).
  assert (Hids2 : map (fun r => id (from_row r))
                    (insert_or_update lead (now_at E w1) (upsert_time E w1)
                       rows1)
                  = map (fun r => id (from_row r)) rows1).
  { rewrite ids_insert_or_update, Hex1. reflexivity. }
  split; [reflexivity|]. split; [reflexivity|].
  split.
  { apply one_row_per_id; rewrite Hids2; assumption. }
  split; [exact Hids2|].
  split; [rewrite Hids2; exact Hnd1|].
  split.
  { apply existsb_find in Hex1. destruct Hex1 as [r1 Hr1].
    exists r1. split; [exact Hr1|].
    assert (Hu : updated_at r1 = upsert_time E w).
    { unfold rows1 in Hr1. rewrite find_insert_or_update_same in Hr1.
      destruct (find (has_id (id lead)) (leads w)); inversion Hr1;
        reflexivity. }
    split; [exact Hu|].
    split.
    { rewrite find_insert_or_update_same, Hr1. reflexivity. }
    intros Hmono. rewrite Hu. unfold upsert_time, w1. cbn [clock ticks].
    apply int_of_mono.
    pose proof (Hmono (S (S (ticks w)))).
    pose proof (Hmono (S (S (S (ticks w))))).
    pose proof (Hmono (S (S (S (S (ticks w)))))).
    lra. }
  split; [|reflexivity].
  intros j Hj. apply find_insert_or_update_other. exact Hj.
Qed.

Lemma upsert_lead_idempotent_on_id_witness :
  NoDup (lead_ids leads_only) /\
  length (filter (fun r => id (from_row r) = id bright)
            (leads (after (upsert_lead env bright)
                      (after (upsert_lead env bright) leads_only))))
  = 1%nat.
Proof.
  assert (Hkey : NoDup (lead_ids leads_only))
    by (apply (bool_decide_unpack _); vm_compute; exact I).
  split; [exact Hkey|].
  exact (proj1 (proj2 (proj2
           (upsert_lead_idempotent_on_id env bright leads_only Hkey)))).
Defined.

(** Against C1 as first stated: one search result ingested twice (by
    two runs of the search command on an empty store) is stored as two
    leads, equal in name, email and source, under two generated ids. *)
Lemma same_record_ingested_twice_is_stored_twice :
  let w := run_all env unconfigured
             [Search [dentist] 10%nat; Search [dentist] 10%nat]
             empty_world in
  length (leads w) = 2%nat /\
  map (fun r => (id (from_row r), name (from_row r), email (from_row r),
                 source (from_row r))) (leads w)
  = [("u0", "Bright Smiles", Some "hello@brightsmiles.com", "serpapi");
     ("u1", "Bright Smiles", Some "hello@brightsmiles.com", "serpapi")].
Proof. vm_compute. split; reflexivity. Qed.

(* ---- the Dispatcher ---- *)

(** [send_email] never raises; it is entered and left once, and touches
    neither table. *)
Lemma send_email_run (E : Env) (cfg : Config) (to_addr : option string)
    (subject body : string) (w : World) :
  exists c w',
    send_email E cfg to_addr subject body w
    = (Ok (succeeded c, mid_of c), w') /\
    calls w' = calls w ++ [c] /\
    leads w' = leads w /\ outreach w' = outreach w /\
    c_to c = to_addr /\ c_subject c = subject /\ c_body c = body /\
    c_start c = clock w /\ c_end c = clock w' /\
    (smtp_configured cfg = false -> c_outcome c = NotConfigured) /\
    (smtp_configured cfg = true -> c_outcome c <> NotConfigured) /\
    (steady E -> (clock w <= clock w')%Q).
Proof.
  unfold send_email, bind, gets. simpl.
  destruct (smtp_configured cfg) eqn:Hcfg; simpl.
  - destruct (smtp E (length (calls w)) to_addr subject body) as [[|]|];
      simpl;
      match goal with |- context [ calls w ++ [?c] ] => exists c end;
      eexists; (split; [reflexivity|]); simpl;
      repeat split; try congruence; try discriminate;
      intros Hs; pose proof (Hs (ticks w)); lra.
  - match goal with |- context [ calls w ++ [?c] ] => exists c end.
    eexists; (split; [reflexivity|]); simpl.
    repeat split; try congruence; intros; lra.
Qed.

Lemma send_one_dry_run (E : Env) (cfg : Config) (r : Draft) (sent : Z)
    (last_sent : Q) (w : World) :
  exists t1 t2 w',
    send_one E cfg true r (sent, last_sent) w
    = (Ok (sent + 1, last_sent), w') /\
    calls w' = calls w /\
    outreach w' = update_outreach "SENT" t1 None (oid r) (outreach w) /\
    leads w' = update_stage "CONTACTED" t2 (lid r) (leads w).
Proof.
  unfold send_one, now, time_time, execute, tick, modify, gets, ret, bind.
  cbn [fst snd clock ticks leads outreach uuids calls set_outreach
       set_leads].
  eexists _, _, _. split; [reflexivity|].
  cbn [clock ticks leads outreach uuids calls].
  repeat split.
Qed.

Lemma interval_nonneg (cfg : Config) : (0 <= interval cfg)%Q.
Proof.
  unfold interval, float_div. apply round_float_nonneg.
  unfold Qdiv. apply Qmult_le_0_compat; [discriminate|].
  apply Qinv_le_0_compat. apply round_float_nonneg.
  rewrite <- (Zle_Qle 0). lia.
Qed.

Lemma paced_send_run (E : Env) (cfg : Config) (r : Draft)
    (last_sent : Q) (w : World) :
  exists c w',
    paced_send E cfg r last_sent w
    = (Ok (succeeded c, mid_of c, clock w'), w') /\
    calls w' = calls w ++ [c] /\
    leads w' = leads w /\ outreach w' = outreach w /\
    c_to c = d_email r /\ c_subject c = d_subject r /\
    c_body c = d_body r /\
    (smtp_configured cfg = false -> c_outcome c = NotConfigured) /\
    (smtp_configured cfg = true -> c_outcome c <> NotConfigured) /\
    (steady E ->
     ((last_sent <= clock w)%Q ->
      (last_sent + pace cfg <= c_start c)%Q) /\
     (c_start c <= c_end c)%Q /\ (c_end c <= clock w')%Q).
Proof.
  unfold paced_send, time_time, time_sleep, tick, modify, gets, ret, bind.
  cbn [clock ticks leads outreach uuids calls].
  destruct (Qlt_le_dec (float_sub (clock w + elapse E (ticks w)) last_sent)
                       (interval cfg)) as [Hlt|Hge];
    cbn [clock ticks leads outreach uuids calls];
    match goal with
    | |- context [ send_email E cfg ?a ?b ?c ?W ] =>
        destruct (send_email_run E cfg a b c W)
          as (c0 & w1 & Heq & Hcalls & Hleads & Hout & Hto & Hsub & Hbody
              & Hstart & Hend & Hnc & Hcf & Hclk)
    end;
    rewrite Heq; cbn [fst snd clock ticks leads outreach uuids calls] in *;
    exists c0;
    match goal with |- exists w', (Ok _, ?W) = _ /\ _ => exists W end;
    (split; [reflexivity|]);
    cbn [clock ticks leads outreach uuids calls];
    (repeat split; try assumption);
    match goal with
    | Hs : steady E |- _ =>
        specialize (Hclk Hs);
        pose proof (Hs (ticks w)); pose proof (Hs (S (ticks w)));
        pose proof (Hs (ticks w1)); rewrite ?Hstart, ?Hend; intros;
        try match goal with
            | Hle : (last_sent <= clock w)%Q |- _ =>
                destruct (paced_gap (interval cfg) last_sent
                            (clock w + elapse E (ticks w))%Q
                            (interval_nonneg cfg) ltac:(lra))
                  as [Hsleep Hgo];
                first [specialize (Hsleep Hlt) | specialize (Hgo Hge)];
                unfold pace
            end;
        lra
    end.
Qed.

Lemma send_one_run (E : Env) (cfg : Config) (r : Draft) (sent : Z)
    (last_sent : Q) (w : World) :
  exists c t1 t2 last_sent' w',
    send_one E cfg false r (sent, last_sent) w
    = (Ok ((if succeeded c then sent + 1 else sent), last_sent'), w') /\
    calls w' = calls w ++ [c] /\
    c_to c = d_email r /\ c_subject c = d_subject r /\
    c_body c = d_body r /\
    outreach w' =
      update_outreach (if succeeded c then "SENT" else "ERROR")
                      t1 (mid_of c) (oid r) (outreach w) /\
    leads w' = (if succeeded c
                then update_stage "CONTACTED" t2 (lid r) (leads w)
                else leads w) /\
    (smtp_configured cfg = false -> c_outcome c = NotConfigured) /\
    (smtp_configured cfg = true -> c_outcome c <> NotConfigured) /\
    (steady E ->
     ((last_sent <= clock w)%Q ->
      (last_sent + pace cfg <= c_start c)%Q) /\
     (c_start c <= c_end c)%Q /\ (c_end c <= last_sent')%Q /\
     (last_sent' <= clock w')%Q).
Proof.
  destruct (paced_send_run E cfg r last_sent w)
    as (c & w1 & Heq & Hcalls & Hleads & Hout & Hto & Hsub & Hbody
        & Hnc & Hcf & Htime).
  unfold send_one. unfold bind at 1. rewrite Heq.
  exists c. destruct (succeeded c);
    unfold now, time_time, execute, tick, modify, gets, ret, bind;
    cbn [fst snd clock ticks leads outreach uuids calls set_outreach
         set_leads];
    eexists _, _, _, _; (split; [reflexivity|]);
    cbn [clock ticks leads outreach uuids calls];
    rewrite ?Hcalls, ?Hleads, ?Hout;
    (repeat split; try assumption; try reflexivity);
    match goal with
    | Hs : steady E |- _ =>
        destruct (Htime Hs) as (Hgap & Hse & Hend);
        first [ exact Hgap | exact Hse | exact Hend
              | pose proof (Hs (ticks w1)); pose proof (Hs (S (ticks w1)));
                pose proof (Hs (S (S (ticks w1))));
                pose proof (Hs (S (S (S (ticks w1)))));
                unfold set_leads, set_outreach;
                cbn [clock leads outreach ticks uuids calls]; lra ]
    end.
  Unshelve. all: exact 0.
Qed.


Lemma dispatched_snoc (rows : list Draft) (cs : list Call) (r : Draft)
    (c : Call) (t1 t2 : Z) (T T' : Tables) :
  dispatched rows cs T T' ->
  dispatched (rows ++ [r]) (cs ++ [c]) T (dispatch r c t1 t2 T').
Proof.
  induction 1 as [T|r0 c0 u1 u2 rows cs T T' _ IH]; simpl.
  - econstructor. constructor.
  - econstructor. exact IH.
Qed.

Lemma dispatched_length (rows : list Draft) (cs : list Call)
    (T T' : Tables) :
  dispatched rows cs T T' -> length rows = length cs.
Proof. induction 1; simpl; congruence. Qed.

Lemma count_succeeded_snoc (cs : list Call) (c : Call) :
  count_succeeded (cs ++ [c])
  = count_succeeded cs + (if succeeded c then 1 else 0).
Proof.
  unfold count_succeeded. rewrite filter_app, length_app.
  rewrite filter_cons, filter_nil.
  destruct (succeeded c); simpl.
  - destruct (decide (true = true)); [simpl; lia | congruence].
  - destruct (decide (false = true)); [discriminate | simpl; lia].
Qed.

Lemma spaced_snoc (gap last_sent : Q) (cs : list Call) (c : Call) :
  spaced gap cs ->
  (forall c0, last cs = Some c0 ->
     (c_end c0 <= last_sent)%Q /\ (last_sent + gap <= c_start c)%Q) ->
  spaced gap (cs ++ [c]).
Proof.
  intros Hsp Hlast k c1 c2 H1 H2.
  apply lookup_snoc_Some in H2. destruct H2 as [[Hlt H2]|[Hk <-]].
  - apply lookup_snoc_Some in H1. destruct H1 as [[_ H1]|[Hk _]].
    + exact (Hsp k c1 c2 H1 H2).
    + apply lookup_lt_Some in H2. lia.
  - apply lookup_snoc_Some in H1. destruct H1 as [[_ H1]|[Hk' _]]; [|lia].
    assert (Hl : last cs = Some c1).
    { rewrite last_lookup. rewrite <- Hk. simpl. exact H1. }
    destruct (Hlast c1 Hl). lra.
Qed.

(** The loop of [send_all] outside dry-run mode, from any loop state: it
    never raises, calls [send_email] once for each message of the snapshot,
    in order, and leaves the tables as the per-message updates leave them. *)
Lemma send_loop_run (E : Env) (cfg : Config) (rows : list Draft) (sent0 : Z)
    (last0 : Q) (w0 : World) :
  exists cs last_sent w',
    for_each rows (send_one E cfg false) (sent0, last0) w0
    = (Ok (sent0 + count_succeeded cs, last_sent), w') /\
    calls w' = calls w0 ++ cs /\
    Forall2 addressed rows cs /\
    dispatched rows cs (tables w0) (tables w') /\
    (smtp_configured cfg = false ->
     Forall (fun c => c_outcome c = NotConfigured) cs) /\
    (smtp_configured cfg = true ->
     Forall (fun c => c_outcome c <> NotConfigured) cs) /\
    (steady E -> spaced (pace cfg) cs).
Proof.
  pose (I := fun (done : list Draft) (st : Z * Q) (w : World) =>
    exists cs,
      fst st = sent0 + count_succeeded cs /\
      calls w = calls w0 ++ cs /\
      Forall2 addressed done cs /\
      dispatched done cs (tables w0) (tables w) /\
      (smtp_configured cfg = false ->
       Forall (fun c => c_outcome c = NotConfigured) cs) /\
      (smtp_configured cfg = true ->
       Forall (fun c => c_outcome c <> NotConfigured) cs) /\
      (steady E ->
       spaced (pace cfg) cs /\
       forall c, last cs = Some c ->
         (c_end c <= snd st)%Q /\ (snd st <= clock w)%Q)).
  destruct (for_each_inv (send_one E cfg false) rows I) with
    (s := (sent0, last0)) (w := w0) as ([n l] & w' & Hrun & HI).
  - intros done x rest [n l] w _ (cs & Hn & Hcalls & Haddr & Hdisp & Hnc
                                  & Hcf & Htime).
    simpl in Hn. subst n.
    destruct (send_one_run E cfg x (sent0 + count_succeeded cs) l w)
      as (c & t1 & t2 & l' & w' & Heq & Hcalls' & Hto & Hsub & Hbody
          & Hout & Hleads & Hnc' & Hcf' & Htime').
    eexists; exists w'. split; [exact Heq|].
    exists (cs ++ [c]). simpl.
    split.
    { rewrite count_succeeded_snoc. destruct (succeeded c); lia. }
    split; [rewrite Hcalls', Hcalls, app_assoc; reflexivity|].
    split.
    { apply Forall2_app; [exact Haddr|].
      constructor; [|constructor]. repeat split; assumption. }
    split.
    { assert (Ht : tables w' = dispatch x c t1 t2 (tables w)).
      { unfold tables, dispatch. simpl. rewrite Hout, Hleads.
        reflexivity. }
      rewrite Ht. apply dispatched_snoc. exact Hdisp. }
    split.
    { intros Hc. apply Forall_app. split; [apply Hnc; exact Hc|].
      constructor; [apply Hnc'; exact Hc | constructor]. }
    split.
    { intros Hc. apply Forall_app. split; [apply Hcf; exact Hc|].
      constructor; [apply Hcf'; exact Hc | constructor]. }
    intros Hs. destruct (Htime Hs) as [Hsp Hlast].
    destruct (Htime' Hs) as (Hgap & _ & Hend & Hclock).
    split.
    + apply (spaced_snoc _ l); [exact Hsp|].
      intros c0 Hc0. destruct (Hlast c0 Hc0) as [Hc0l Hlw].
      split; [exact Hc0l | exact (Hgap Hlw)].
    + intros c0 Hc0. rewrite last_snoc in Hc0. inversion Hc0; subst c0.
      split; [exact Hend | exact Hclock].
  - exists []. simpl. unfold count_succeeded. simpl.
    split; [lia|]. split; [rewrite app_nil_r; reflexivity|].
    split; [constructor|]. split; [constructor|].
    split; [intros; constructor|]. split; [intros; constructor|].
    intros _. split.
    + intros k c1 c2 H. rewrite lookup_nil in H. discriminate.
    + intros c H. discriminate.
  - destruct HI as (cs & Hn & Hcalls & Haddr & Hdisp & Hnc & Hcf & Htime).
    simpl in Hn. subst n.
    exists cs, l, w'. split; [exact Hrun|].
    repeat (split; [assumption|]).
    intros Hs. apply Htime. exact Hs.
Qed.

(* ---- what the per-message updates do to the tables ---- *)

Lemma has_oid_true (i : string) (o : Outreach.row) :
  has_oid i o = true <-> Outreach.id o = i.
Proof. unfold has_oid. apply bool_decide_eq_true. Qed.

Lemma find_update_outreach_same (st : string) (t : Z) (mid : option string)
    (i : string) (rows : list Outreach.row) :
  find (has_oid i) (update_outreach st t mid i rows) =
  option_map
    (fun o => {| Outreach.id := Outreach.id o;
                 Outreach.lead_id := Outreach.lead_id o;
                 Outreach.subject := Outreach.subject o;
                 Outreach.body := Outreach.body o;
                 Outreach.status := st;
                 Outreach.sent_at := Some t;
                 Outreach.message_id := mid |})
    (find (has_oid i) rows).
Proof.
  induction rows as [|o rows IH]; simpl; [reflexivity|].
  destruct (has_oid i o) eqn:Ho; simpl.
  - unfold has_oid in *. simpl. rewrite Ho. reflexivity.
  - rewrite Ho. exact IH.
Qed.

Lemma find_update_outreach_other (st : string) (t : Z)
    (mid : option string) (i j : string) (rows : list Outreach.row) :
  j <> i ->
  find (has_oid j) (update_outreach st t mid i rows) = find (has_oid j) rows.
Proof.
  intros Hji. induction rows as [|o rows IH]; simpl; [reflexivity|].
  destruct (has_oid i o) eqn:Ho; simpl.
  - apply has_oid_true in Ho.
    assert (Hj : has_oid j o = false)
      by (apply bool_decide_eq_false; congruence).
    unfold has_oid in *. simpl. rewrite Hj. exact IH.
  - rewrite IH. reflexivity.
Qed.

Lemma ids_update_outreach (st : string) (t : Z) (mid : option string)
    (i : string) (rows : list Outreach.row) :
  map Outreach.id (update_outreach st t mid i rows) = map Outreach.id rows.
Proof.
  unfold update_outreach. rewrite map_map. apply map_ext.
  intros o. destruct (has_oid i o); reflexivity.
Qed.

Lemma find_has_oid_In (i : string) (rows : list Outreach.row) :
  In i (map Outreach.id rows) -> exists o, find (has_oid i) rows = Some o.
Proof.
  induction rows as [|o rows IH]; simpl; [contradiction|].
  intros [Ho|Hin].
  - exists o. unfold has_oid. rewrite bool_decide_eq_true_2; auto.
  - destruct (has_oid i o); [eauto | apply IH; exact Hin].
Qed.

Lemma find_has_id_In (i : string) (rows : list LeadRow) :
  In i (map (fun r => id (from_row r)) rows) ->
  exists r, find (has_id i) rows = Some r.
Proof.
  intros Hin. apply existsb_find, existsb_has_id_In. exact Hin.
Qed.

Lemma dispatch_ids (r : Draft) (c : Call) (t1 t2 : Z) (T : Tables) :
  map (fun l => id (from_row l)) (fst (dispatch r c t1 t2 T))
  = map (fun l => id (from_row l)) (fst T) /\
  map Outreach.id (snd (dispatch r c t1 t2 T)) = map Outreach.id (snd T).
Proof.
  unfold dispatch. simpl. split.
  - destruct (succeeded c); [apply lead_ids_update_stage | reflexivity].
  - apply ids_update_outreach.
Qed.

Lemma dispatched_ids (rows : list Draft) (cs : list Call) (T T' : Tables) :
  dispatched rows cs T T' ->
  map (fun l => id (from_row l)) (fst T')
  = map (fun l => id (from_row l)) (fst T) /\
  map Outreach.id (snd T') = map Outreach.id (snd T).
Proof.
  induction 1 as [T|r c t1 t2 rows cs T T' _ [IHl IHo]]; [split; reflexivity|].
  destruct (dispatch_ids r c t1 t2 T) as [Hl Ho].
  split; congruence.
Qed.

(** A message that is not in the snapshot is not touched. *)
Lemma dispatched_message_other (rows : list Draft) (cs : list Call)
    (T T' : Tables) (j : string) :
  dispatched rows cs T T' ->
  ~ In j (map oid rows) ->
  find (has_oid j) (snd T') = find (has_oid j) (snd T).
Proof.
  induction 1 as [T|r c t1 t2 rows cs T T' _ IH]; [reflexivity|].
  simpl. intros Hj. rewrite IH by tauto.
  unfold dispatch. simpl. apply find_update_outreach_other.
  intros Heq. apply Hj. left. congruence.
Qed.

(** The message of the [k]-th row of the snapshot ends with the status its
    own call earned. *)
Lemma dispatched_message (rows : list Draft) (cs : list Call)
    (T T' : Tables) :
  dispatched rows cs T T' ->
  NoDup (map oid rows) ->
  (forall r, In r rows -> In (oid r) (map Outreach.id (snd T))) ->
  forall k r c,
    rows !! k = Some r -> cs !! k = Some c ->
    exists o0 o,
      find (has_oid (oid r)) (snd T) = Some o0 /\
      find (has_oid (oid r)) (snd T') = Some o /\
      Outreach.status o = (if succeeded c then "SENT" else "ERROR") /\
      Outreach.message_id o = mid_of c /\
      is_Some (Outreach.sent_at o) /\
      Outreach.lead_id o = Outreach.lead_id o0 /\
      Outreach.subject o = Outreach.subject o0 /\
      Outreach.body o = Outreach.body o0.
Proof.
  induction 1 as [T|r0 c0 t1 t2 rows cs T T' Hd IH];
    intros Hnd Hin k r c Hr Hc.
  - rewrite lookup_nil in Hr. discriminate.
  - simpl in Hnd. apply NoDup_cons in Hnd. destruct Hnd as [Hfresh Hnd].
    destruct k as [|k]; simpl in Hr, Hc.
    + inversion Hr; subst r0. inversion Hc; subst c0. clear Hr Hc.
      destruct (find_has_oid_In (oid r) (snd T)) as [o0 Ho0].
      { apply Hin. left. reflexivity. }
      exists o0. eexists. split; [exact Ho0|].
      split.
      { rewrite (dispatched_message_other _ _ _ _ (oid r) Hd).
        - unfold dispatch. simpl.
          rewrite find_update_outreach_same, Ho0. reflexivity.
        - intros Hx. apply Hfresh. apply list_elem_of_In. exact Hx. }
      simpl. repeat split; eauto.
    + assert (Hne : oid r <> oid r0).
      { intros Heq. apply Hfresh. rewrite <- Heq.
        apply list_elem_of_fmap. exists r. split; [reflexivity|].
        apply list_elem_of_lookup. eauto. }
      destruct (IH Hnd) with (k := k) (r := r) (c := c)
        as (o0 & o & H0 & H1 & Hrest); try assumption.
      { intros r' Hr'. destruct (dispatch_ids r0 c0 t1 t2 T) as [_ Ho].
        rewrite Ho. apply Hin. right. exact Hr'. }
      exists o0, o. split; [|split; [exact H1 | exact Hrest]].
      rewrite <- H0. unfold dispatch. simpl. symmetry.
      apply find_update_outreach_other. exact Hne.
Qed.

Lemma find_contacted_update (t : Z) (i j : string) (rows : list LeadRow)
    (l : LeadRow) :
  find (has_id j) rows = Some l -> stage (from_row l) = "CONTACTED" ->
  exists l', find (has_id j) (update_stage "CONTACTED" t i rows) = Some l'
             /\ stage (from_row l') = "CONTACTED".
Proof.
  intros Hl Hst. destruct (decide (j = i)) as [->|Hne].
  - rewrite find_update_stage_same, Hl. simpl. eauto.
  - rewrite find_update_stage_other by exact Hne. eauto.
Qed.

(** Once CONTACTED, a lead stays CONTACTED through the rest of the run. *)
Lemma dispatched_contacted_stays (rows : list Draft) (cs : list Call)
    (T T' : Tables) (j : string) :
  dispatched rows cs T T' ->
  forall l, find (has_id j) (fst T) = Some l ->
            stage (from_row l) = "CONTACTED" ->
  exists l', find (has_id j) (fst T') = Some l'
             /\ stage (from_row l') = "CONTACTED".
Proof.
  induction 1 as [T|r c t1 t2 rows cs T T' _ IH]; intros l Hl Hst; [eauto|].
  destruct (succeeded c) eqn:Hc.
  - destruct (find_contacted_update t2 (lid r) j (fst T) l Hl Hst)
      as (l1 & Hl1 & Hst1).
    apply (IH l1); [|exact Hst1].
    unfold dispatch. rewrite Hc. exact Hl1.
  - apply (IH l); [|exact Hst]. unfold dispatch. rewrite Hc. exact Hl.
Qed.

(** The lead of a message that was sent ends CONTACTED. *)
Lemma dispatched_lead_contacted (rows : list Draft) (cs : list Call)
    (T T' : Tables) :
  dispatched rows cs T T' ->
  (forall r, In r rows ->
             In (lid r) (map (fun l => id (from_row l)) (fst T))) ->
  forall k r c,
    rows !! k = Some r -> cs !! k = Some c -> succeeded c = true ->
    exists l, find (has_id (lid r)) (fst T') = Some l
              /\ stage (from_row l) = "CONTACTED".
Proof.
  induction 1 as [T|r0 c0 t1 t2 rows cs T T' Hd IH];
    intros Hin k r c Hr Hc Hok.
  - rewrite lookup_nil in Hr. discriminate.
  - destruct k as [|k]; simpl in Hr, Hc.
    + inversion Hr; subst r0. inversion Hc; subst c0. clear Hr Hc.
      destruct (find_has_id_In (lid r) (fst T)) as [l0 Hl0].
      { apply Hin. left. reflexivity. }
      eapply (dispatched_contacted_stays _ _ _ _ _ Hd).
      * unfold dispatch. rewrite Hok. simpl.
        rewrite find_update_stage_same, Hl0. reflexivity.
      * reflexivity.
    + apply (IH) with (k := k) (c := c); try assumption.
      intros r' Hr'. destruct (dispatch_ids r0 c0 t1 t2 T) as [Hl _].
      rewrite Hl. apply Hin. right. exact Hr'.
Qed.

(** A lead none of whose messages was sent keeps its whole row. *)
Lemma dispatched_lead_untouched (rows : list Draft) (cs : list Call)
    (T T' : Tables) (i : string) :
  dispatched rows cs T T' ->
  (forall k r c, rows !! k = Some r -> cs !! k = Some c -> lid r = i ->
                 succeeded c = false) ->
  find (has_id i) (fst T') = find (has_id i) (fst T).
Proof.
  induction 1 as [T|r c t1 t2 rows cs T T' _ IH]; intros Hfail;
    [reflexivity|].
  rewrite IH.
  - unfold dispatch. simpl. destruct (succeeded c) eqn:Hc; [|reflexivity].
    apply find_update_stage_other. intros Heq.
    specialize (Hfail 0%nat r c eq_refl eq_refl (eq_sym Heq)). congruence.
  - intros k r' c' Hr' Hc'. exact (Hfail (S k) r' c' Hr' Hc').
Qed.

(** When every call failed, the leads table is not written at all. *)
Lemma dispatched_all_failed (rows : list Draft) (cs : list Call)
    (T T' : Tables) :
  dispatched rows cs T T' ->
  Forall (fun c => succeeded c = false) cs ->
  fst T' = fst T.
Proof.
  induction 1 as [T|r c t1 t2 rows cs T T' _ IH]; intros Hall;
    [reflexivity|].
  apply Forall_cons in Hall. destruct Hall as [Hc Hall].
  rewrite IH by exact Hall. unfold dispatch. rewrite Hc. reflexivity.
Qed.

(* ---- the snapshot read by [send_all] ---- *)

Lemma at_most_one_row (j : string) (rows : list LeadRow) :
  NoDup (map (fun r => id (from_row r)) rows) ->
  (length (filter (fun l => id (from_row l) = j) rows) <= 1)%nat.
Proof.
  intros Hnd.
  destruct (in_dec string_dec j (map (fun r => id (from_row r)) rows))
    as [Hin|Hout].
  - rewrite (one_row_per_id j rows Hnd Hin). lia.
  - destruct (filter (fun l => id (from_row l) = j) rows) as [|x xs] eqn:Hf;
      [simpl; lia|].
    exfalso. apply Hout.
    assert (Hx : x ∈ filter (fun l => id (from_row l) = j) rows)
      by (rewrite Hf; left).
    apply list_elem_of_filter in Hx. destruct Hx as [Hid Hx].
    apply in_map_iff. exists x. split; [exact Hid|].
    apply list_elem_of_In. exact Hx.
Qed.

Lemma drafts_in_tables (w : World) (r : Draft) :
  In r (drafts w) ->
  In (oid r) (outreach_ids w) /\ In (lid r) (lead_ids w).
Proof.
  unfold drafts, outreach_ids, lead_ids. intros Hr.
  apply in_flat_map in Hr. destruct Hr as (o & Ho & Hr).
  destruct (bool_decide (Outreach.status o = "DRAFT")); [|contradiction].
  apply in_map_iff in Hr. destruct Hr as (l & <- & Hl). simpl.
  split.
  - apply in_map. exact Ho.
  - apply list_elem_of_In, list_elem_of_filter in Hl.
    destruct Hl as [_ Hl]. apply list_elem_of_In in Hl.
    apply (in_map (fun r => id (from_row r))). exact Hl.
Qed.

(** Under the primary keys, a message occurs at most once in the
    snapshot. *)
Lemma drafts_NoDup (w : World) :
  keys_unique w -> NoDup (map oid (drafts w)).
Proof.
  intros [Hl Ho]. apply (sublist_NoDup _ (outreach_ids w)); [exact Ho|].
  unfold drafts, outreach_ids. clear Ho.
  induction (outreach w) as [|o outs IH]; simpl; [constructor|].
  rewrite map_app.
  destruct (bool_decide (Outreach.status o = "DRAFT")).
  - pose proof (at_most_one_row (Outreach.lead_id o) (leads w) Hl) as Hone.
    destruct (filter (fun l => id (from_row l) = Outreach.lead_id o)
                     (leads w)) as [|l [|l' ls]]; simpl in *.
    + apply sublist_cons. exact IH.
    + apply sublist_skip. exact IH.
    + lia.
  - simpl. apply sublist_cons. exact IH.
Qed.

(** [send_all] outside dry-run mode: it never raises, and its loop is run
    on the snapshot taken from the tables it was started with. *)
Lemma send_all_run (E : Env) (cfg : Config) (w : World) :
  exists cs w',
    send_all E cfg false w = (Ok (count_succeeded cs), w') /\
    calls w' = calls w ++ cs /\
    Forall2 addressed (drafts w) cs /\
    dispatched (drafts w) cs (tables w) (tables w') /\
    (smtp_configured cfg = false ->
     Forall (fun c => c_outcome c = NotConfigured) cs) /\
    (smtp_configured cfg = true ->
     Forall (fun c => c_outcome c <> NotConfigured) cs) /\
    (steady E -> spaced (pace cfg) cs).
Proof.
  set (w0 := {| leads := leads w; outreach := outreach w;
                clock := (clock w + elapse E (ticks w))%Q;
                ticks := S (ticks w); uuids := uuids w;
                calls := calls w |}).
  assert (Hfetch : fetchall E drafts w = (Ok (drafts w), w0))
    by reflexivity.
  destruct (send_loop_run E cfg (drafts w) 0 0%Q w0)
    as (cs & l & w' & Hrun & Hcalls & Haddr & Hdisp & Hnc & Hcf & Hsp).
  exists cs, w'. unfold send_all.
  unfold bind at 1. rewrite Hfetch.
  unfold bind at 1. rewrite Hrun. unfold ret. cbn [fst].
  rewrite Z.add_0_l.
  split; [reflexivity|]. split; [exact Hcalls|].
  split; [exact Haddr|]. split; [exact Hdisp|]. tauto.
Qed.

(** C7. Failures are isolated per message.  In a store with unique keys,
    [send_all] outside dry-run mode never raises and calls [send_email]
    once for each message of its snapshot of DRAFT messages, in snapshot
    order, whatever the earlier calls returned; it returns the number of
    successful calls; the message of each call ends SENT when the call
    succeeded and ERROR when it failed; the lead of a sent message ends
    CONTACTED; and a lead none of whose messages was sent keeps its row,
    stage included. *)
Theorem send_all_isolates_failures (E : Env) (cfg : Config) (w : World)
    (Hkeys : keys_unique w) :
  let w' := after (send_all E cfg false) w in
  exists cs,
    fst (send_all E cfg false w) = Ok (count_succeeded cs) /\
    calls w' = calls w ++ cs /\
    Forall2 addressed (drafts w) cs /\
    (forall k r c,
        drafts w !! k = Some r -> cs !! k = Some c ->
        (exists o, find_message (oid r) w' = Some o /\
                   Outreach.status o
                   = (if succeeded c then "SENT" else "ERROR")) /\
        (succeeded c = true ->
         exists l, find_lead (lid r) w' = Some l /\
                   stage (from_row l) = "CONTACTED")) /\
    (forall i,
        (forall k r c, drafts w !! k = Some r -> cs !! k = Some c ->
                       lid r = i -> succeeded c = false) ->
        find_lead i w' = find_lead i w).
Proof.
  intros w'. subst w'. unfold after.
  destruct (send_all_run E cfg w)
    as (cs & w' & Hrun & Hcalls & Haddr & Hdisp & _).
  rewrite Hrun. simpl. exists cs.
  split; [reflexivity|]. split; [exact Hcalls|]. split; [exact Haddr|].
  split.
  - intros k r c Hr Hc. split.
    + destruct (dispatched_message _ _ _ _ Hdisp (drafts_NoDup w Hkeys))
        with (k := k) (r := r) (c := c)
        as (o0 & o & _ & Ho & Hst & _); try assumption.
      { intros r' Hr'. apply (drafts_in_tables w r' Hr'). }
      exists o. split; [exact Ho | exact Hst].
    + intros Hok.
      apply (dispatched_lead_contacted _ _ _ _ Hdisp) with (k := k) (c := c);
        try assumption.
      intros r' Hr'. apply (drafts_in_tables w r' Hr').
  - intros i Hfail.
    exact (dispatched_lead_untouched _ _ _ _ i Hdisp Hfail).
Qed.

Lemma send_all_isolates_failures_witness :
  keys_unique with_drafts /\
  exists cs,
    fst (send_all env configured false with_drafts)
    = Ok (count_succeeded cs) /\
    calls (after (send_all env configured false) with_drafts)
    = calls with_drafts ++ cs /\
    Forall2 addressed (drafts with_drafts) cs.
Proof.
  assert (Hkeys : keys_unique with_drafts)
    by (split; apply (bool_decide_unpack _); vm_compute; exact I).
  split; [exact Hkeys|].
  destruct (send_all_isolates_failures env configured with_drafts Hkeys)
    as (cs & Hn & Hcalls & Haddr & _).
  exists cs. split; [exact Hn|]. split; [exact Hcalls | exact Haddr].
Defined.

(** The scenario of the specification: of three DRAFT messages the second
    send fails; that message ends ERROR and its lead stays QUALIFIED, the
    other two end SENT and their leads CONTACTED, and the run reports 2. *)
Example one_failure_among_three :
  let run := send_all env configured false in
  fst (run with_drafts) = Ok 2 /\
  map Outreach.status (outreach (after run with_drafts))
  = ["SENT"; "ERROR"; "SENT"] /\
  map (fun r => stage (from_row r)) (leads (after run with_drafts))
  = ["CONTACTED"; "QUALIFIED"; "CONTACTED"] /\
  map c_outcome (calls (after run with_drafts))
  = [Delivered (Some "u0"); Failed; Delivered (Some "u1")].
Proof. vm_compute. repeat split; reflexivity. Qed.

(** In dry-run mode the three messages are taken as sent without one call
    of [send_email]; the tables are written all the same. *)
Example dry_run_of_three :
  let run := send_all env configured true in
  fst (run with_drafts) = Ok 3 /\
  calls (after run with_drafts) = [] /\
  map Outreach.status (outreach (after run with_drafts))
  = ["SENT"; "SENT"; "SENT"] /\
  map (fun r => stage (from_row r)) (leads (after run with_drafts))
  = ["CONTACTED"; "CONTACTED"; "CONTACTED"].
Proof. vm_compute. repeat split; reflexivity. Qed.

Lemma count_succeeded_none (cs : list Call) :
  Forall (fun c => succeeded c = false) cs -> count_succeeded cs = 0.
Proof.
  unfold count_succeeded. induction 1 as [|c cs Hc _ IH]; [reflexivity|].
  rewrite filter_cons. destruct (decide (succeeded c = true)); [congruence|].
  exact IH.
Qed.

Lemma not_configured_failed (cs : list Call) :
  Forall (fun c => c_outcome c = NotConfigured) cs ->
  Forall (fun c => succeeded c = false /\ mid_of c = None) cs.
Proof.
  intros H. eapply Forall_impl; [exact H|].
  intros c Hc. unfold succeeded, mid_of.
  rewrite Hc. split; reflexivity.
Qed.

(** C4 (as amended). With no send transport configured, [send_all] outside
    dry-run mode does not halt and raises nothing: it returns 0 after
    calling [send_email] once for each DRAFT message of its snapshot, each
    call returning a failure before any SMTP session is opened; every lead
    is left unchanged, and (in a store with unique keys) every message of
    the snapshot ends with status ERROR, [sent_at] set and no provider id,
    while messages outside the snapshot are left as they were. *)
Theorem send_all_without_transport (E : Env) (cfg : Config) (w : World)
    (Hcfg : smtp_configured cfg = false) (Hkeys : keys_unique w) :
  let w' := after (send_all E cfg false) w in
  fst (send_all E cfg false w) = Ok 0 /\
  (exists cs,
      calls w' = calls w ++ cs /\
      Forall2 addressed (drafts w) cs /\
      Forall (fun c => c_outcome c = NotConfigured) cs) /\
  leads w' = leads w /\
  outreach_ids w' = outreach_ids w /\
  (forall r, In r (drafts w) ->
     exists o0 o,
       find_message (oid r) w = Some o0 /\
       find_message (oid r) w' = Some o /\
       Outreach.status o = "ERROR" /\
       Outreach.message_id o = None /\
       is_Some (Outreach.sent_at o) /\
       Outreach.lead_id o = Outreach.lead_id o0 /\
       Outreach.subject o = Outreach.subject o0 /\
       Outreach.body o = Outreach.body o0) /\
  (forall j, ~ In j (map oid (drafts w)) ->
     find_message j w' = find_message j w).
Proof.
  intros w'. subst w'. unfold after.
  destruct (send_all_run E cfg w)
    as (cs & w' & Hrun & Hcalls & Haddr & Hdisp & Hnc & _).
  specialize (Hnc Hcfg).
  pose proof (not_configured_failed cs Hnc) as Hfailed.
  assert (Hnone : Forall (fun c => succeeded c = false) cs)
    by (eapply Forall_impl; [exact Hfailed|]; simpl; tauto).
  rewrite Hrun. simpl.
  split; [rewrite (count_succeeded_none cs Hnone); reflexivity|].
  split; [exists cs; auto|].
  split; [exact (dispatched_all_failed _ _ _ _ Hdisp Hnone)|].
  split; [exact (proj2 (dispatched_ids _ _ _ _ Hdisp))|].
  split.
  - intros r Hr.
    apply list_elem_of_In, list_elem_of_lookup in Hr. destruct Hr as [k Hk].
    destruct (cs !! k) as [c|] eqn:Hc.
    2: { apply lookup_ge_None in Hc. apply lookup_lt_Some in Hk.
         apply Forall2_length in Haddr. lia. }
    destruct (dispatched_message _ _ _ _ Hdisp (drafts_NoDup w Hkeys))
      with (k := k) (r := r) (c := c)
      as (o0 & o & H0 & H1 & Hst & Hmid & Hrest); try assumption.
    { intros r' Hr'. apply (drafts_in_tables w r' Hr'). }
    assert (Hf : succeeded c = false /\ mid_of c = None).
    { rewrite Forall_forall in Hfailed. apply Hfailed.
      apply list_elem_of_lookup. eauto. }
    destruct Hf as [Hf Hm]. rewrite Hf in Hst. rewrite Hm in Hmid.
    exists o0, o. unfold find_message. tauto.
  - intros j Hj. exact (dispatched_message_other _ _ _ _ j Hdisp Hj).
Qed.

Lemma send_all_without_transport_witness :
  smtp_configured unconfigured = false /\
  keys_unique with_drafts /\
  fst (send_all env unconfigured false with_drafts) = Ok 0 /\
  leads (after (send_all env unconfigured false) with_drafts)
  = leads with_drafts.
Proof.
  assert (Hkeys : keys_unique with_drafts)
    by (split; apply (bool_decide_unpack _); vm_compute; exact I).
  split; [reflexivity|]. split; [exact Hkeys|].
  pose proof (send_all_without_transport env unconfigured with_drafts
                eq_refl Hkeys) as H.
  split; [exact (proj1 H) | exact (proj1 (proj2 (proj2 H)))].
Defined.

(** Against C4 as first stated: with no SMTP variable set and three
    DRAFT messages, the run returns 0 instead of halting with an error, and
    the three messages are no longer DRAFT but ERROR. *)
Lemma send_all_without_transport_marks_errors :
  let run := send_all env unconfigured false in
  smtp_configured unconfigured = false /\
  map Outreach.status (outreach with_drafts) = ["DRAFT"; "DRAFT"; "DRAFT"] /\
  fst (run with_drafts) = Ok 0 /\
  map Outreach.status (outreach (after run with_drafts))
  = ["ERROR"; "ERROR"; "ERROR"] /\
  ~ ((exists e, fst (run with_drafts) = Raise e) /\
     outreach (after run with_drafts) = outreach with_drafts).
Proof.
  cbv zeta.
  split; [reflexivity|]. split; [reflexivity|].
  split; [vm_compute; reflexivity|]. split; [vm_compute; reflexivity|].
  intros [[e He] _]. vm_compute in He. discriminate.
Qed.

(** The interval of the rate limit is 60 divided by the rate only up to
    the rounding of the quotient: at 7 messages a minute it is the float
    just below 60/7, at 20 it is 3. *)
Example interval_at_seven_a_minute :
  (interval seven_a_minute == 4825285315039817 # (2 ^ 49))%Q /\
  (interval seven_a_minute < 60 / 7)%Q /\
  (interval configured == 3)%Q.
Proof. vm_compute. repeat split; reflexivity. Qed.

(** For a rate of 2^53 at most, the pause the loop is sure to keep falls
    short of 60 divided by the rate by less than one part in 2^52; for a
    rate of zero or less the loop uses the interval of one message a
    minute. *)
Lemma pace_lower (cfg : Config) :
  (SMTP_RATE_PER_MIN cfg <= 2 ^ 53)%Z ->
  (60 / inject_Z (SMTP_RATE_PER_MIN cfg) * (1 - 2 * unit_roundoff)
   <= pace cfg)%Q.
Proof.
  intros Hrate.
  set (n := Z.max 1 (SMTP_RATE_PER_MIN cfg)).
  assert (Hn : (1 <= n <= 2 ^ 53)%Z) by (unfold n; lia).
  assert (HN1 : (1 <= inject_Z n)%Q) by (rewrite <- (Zle_Qle 1); lia).
  assert (HN2 : (inject_Z n <= 9007199254740992)%Q).
  { change 9007199254740992%Q with (inject_Z (2 ^ 53)).
    rewrite <- Zle_Qle. lia. }
  pose proof (float_of_int_exact n Hn) as Hexact.
  assert (Hz : (0 <= 60 / float_of_int n)%Q).
  { rewrite Hexact. apply Qle_shift_div_l; lra. }
  pose proof (round_float_error _ Hz) as [Hlo _].
  change (round_float (60 / float_of_int n)) with (interval cfg) in Hlo.
  unfold pace. set (i := interval cfg) in *. clearbody i.
  rewrite Hexact in Hlo.
  assert (Hbig : ((60 # 9007199254740992) <= 60 / inject_Z n)%Q).
  { apply Qle_shift_div_l; lra. }
  assert (Hrel : (60 / inject_Z (SMTP_RATE_PER_MIN cfg)
                  <= 60 / inject_Z n)%Q).
  { destruct (Z_le_gt_dec 1 (SMTP_RATE_PER_MIN cfg)) as [Hge|Hlt].
    - unfold n. rewrite Z.max_r by exact Hge. apply Qle_refl.
    - apply Qle_trans with 0%Q; [|apply Qle_shift_div_l; lra].
      destruct (SMTP_RATE_PER_MIN cfg) as [|p|p]; [| lia |];
        unfold Qle, Qdiv, Qmult, Qinv, inject_Z; simpl; lia. }
  set (z := (60 / inject_Z n)%Q) in *. clearbody z.
  set (z0 := (60 / inject_Z (SMTP_RATE_PER_MIN cfg))%Q) in *. clearbody z0.
  clear Hz Hexact HN1 HN2 Hn Hrate. clear n.
  unfold unit_roundoff, tiny in *. lra.
Qed.




(** The three calls of the sample run, at 20 messages a minute: each starts
    3 seconds or more after the one before it returned. *)
Example spacing_of_three_calls :
  let cs := calls (after (send_all env configured false) with_drafts) in
  length cs = 3%nat /\
  forall c1 c2,
    (cs !! 0%nat = Some c1 /\ cs !! 1%nat = Some c2) \/
    (cs !! 1%nat = Some c1 /\ cs !! 2%nat = Some c2) ->
    (c_end c1 + 3 <= c_start c2)%Q.
Proof.
  cbv zeta. split; [vm_compute; reflexivity|].
  intros c1 c2 [[H1 H2]|[H1 H2]]; vm_compute in H1, H2;
    inversion H1; inversion H2; subst; vm_compute; discriminate.
Qed.

(* ---- Qualification ---- *)

Lemma Forall2_map_r_In {A B : Type} (P Q : A -> B -> Prop) (f : B -> B)
    (l : list A) (l' : list B) :
  Forall2 P l l' ->
  (forall x y, In x l -> P x y -> Q x (f y)) ->
  Forall2 Q l (map f l').
Proof.
  induction 1 as [|x y l l' Hxy _ IH]; intros Hpq; simpl; constructor.
  - apply Hpq; [left; reflexivity | exact Hxy].
  - apply IH. intros x' y' Hin. apply Hpq. right. exact Hin.
Qed.

Lemma Forall2_impl_In {A B : Type} (P Q : A -> B -> Prop)
    (l : list A) (l' : list B) :
  Forall2 P l l' ->
  (forall x y, In x l -> P x y -> Q x y) ->
  Forall2 Q l l'.
Proof.
  intros H Hpq. rewrite <- (map_id l').
  apply (Forall2_map_r_In P Q (fun y => y) l l' H Hpq).
Qed.

Lemma same_id_same_row (rows : list LeadRow) (r x : LeadRow) :
  NoDup (map (fun r => id (from_row r)) rows) ->
  In r rows -> In x rows -> id (from_row r) = id (from_row x) -> r = x.
Proof.
  induction rows as [|y rows IH]; simpl; intros Hnd Hr Hx Hid;
    [contradiction|].
  apply NoDup_cons in Hnd. destruct Hnd as [Hy Hnd].
  destruct Hr as [<-|Hr], Hx as [<-|Hx].
  - reflexivity.
  - exfalso. apply Hy. rewrite Hid. apply list_elem_of_In.
    apply (in_map (fun r => id (from_row r))). exact Hx.
  - exfalso. apply Hy. rewrite <- Hid. apply list_elem_of_In.
    apply (in_map (fun r => id (from_row r))). exact Hr.
  - apply IH; assumption.
Qed.

Lemma leads_at_In (st : string) (w : World) (r : LeadRow) :
  In r (leads_at st w) <-> In r (leads w) /\ stage (from_row r) = st.
Proof.
  unfold leads_at. rewrite <- !list_elem_of_In, list_elem_of_filter.
  tauto.
Qed.

Lemma leads_at_NoDup (st : string) (w : World) :
  NoDup (lead_ids w) ->
  NoDup (map (fun r => id (from_row r)) (leads_at st w)).
Proof.
  intros Hnd. apply (sublist_NoDup _ (lead_ids w)); [exact Hnd|].
  unfold leads_at, lead_ids.
  apply (fmap_sublist (fun r => id (from_row r))), sublist_filter.
Qed.

(** One iteration of the loop of [qualify_all]. *)
Lemma qualify_one_run (E : Env) (min_rating : Q) (min_reviews min_score : Z)
    (x : LeadRow) (count : Z) (w : World) :
  (let lead := from_row x in
   let score := fst (rule_based_score lead min_rating min_reviews) in
   if Z.leb min_score score
   then bind (set_stage E (id lead) "QUALIFIED")
             (fun _ => ret (count + 1))
   else bind (set_stage E (id lead) "DISQUALIFIED")
             (fun _ => ret count)) w
  = (Ok (if qualifies min_rating min_reviews min_score (from_row x)
         then count + 1 else count),
     {| leads := update_stage
                   (verdict min_rating min_reviews min_score (from_row x))
                   (now_at E w) (id (from_row x)) (leads w);
        outreach := outreach w;
        clock := (clock w + elapse E (ticks w) + elapse E (S (ticks w)))%Q;
        ticks := S (S (ticks w));
        uuids := uuids w;
        calls := calls w |}).
Proof.
  unfold verdict, qualifies. cbn zeta.
  destruct (Z.leb min_score
              (fst (rule_based_score (from_row x) min_rating min_reviews)));
    unfold bind; rewrite set_stage_run; reflexivity.
Qed.

Lemma verdict_not_new (min_rating : Q) (min_reviews min_score : Z)
    (lead : Lead) :
  verdict min_rating min_reviews min_score lead <> "NEW".
Proof.
  unfold verdict.
  destruct (qualifies min_rating min_reviews min_score lead); discriminate.
Qed.

Lemma partly_same_id (a : Q) (b c : Z) (done : list LeadRow)
    (r r' : LeadRow) :
  partly a b c done r r' -> id (from_row r') = id (from_row r).
Proof.
  intros [Hin Hout].
  destruct (in_dec string_dec (id (from_row r))
              (map (fun r => id (from_row r)) done)) as [H|H].
  - destruct (Hin H) as [-> _]. reflexivity.
  - rewrite (Hout H). reflexivity.
Qed.

(** The loop of [qualify_all] over the NEW rows of the table it started
    with. *)
Lemma qualify_loop_run (E : Env) (a : Q) (b c : Z) (w0 : World) :
  NoDup (lead_ids w0) ->
  exists w',
    for_each (leads_at "NEW" w0)
      (fun row count =>
         let lead := from_row row in
         let score := fst (rule_based_score lead a b) in
         if Z.leb c score
         then bind (set_stage E (id lead) "QUALIFIED")
                   (fun _ => ret (count + 1))
         else bind (set_stage E (id lead) "DISQUALIFIED")
                   (fun _ => ret count))
      0 w0
    = (Ok (Z.of_nat (length (filter
                       (fun r => qualifies a b c (from_row r) = true)
                       (leads_at "NEW" w0)))), w') /\
    ticks w' = (ticks w0 + 2 * length (leads_at "NEW" w0))%nat /\
    outreach w' = outreach w0 /\
    Forall2 (partly a b c (leads_at "NEW" w0)) (leads w0) (leads w').
Proof.
  intros Hnd.
  pose (I := fun (done : list LeadRow) (n : Z) (w : World) =>
    n = Z.of_nat (length (filter
                    (fun r => qualifies a b c (from_row r) = true) done)) /\
    ticks w = (ticks w0 + 2 * length done)%nat /\
    outreach w = outreach w0 /\
    Forall2 (partly a b c done) (leads w0) (leads w)).
  match goal with
  | |- exists w', for_each ?rows ?body _ _ = _ /\ _ =>
      destruct (for_each_inv body rows I) with (s := 0) (w := w0)
        as (n & w' & Hrun & Hn & Hticks & Hout & Hrows)
  end.
  - intros done x rest n w Hsplit (Hn & Hticks & Hout & Hrows).
    rewrite qualify_one_run. eexists; eexists. split; [reflexivity|].
    unfold I. cbn [leads outreach ticks].
    assert (Hx : In x (leads w0) /\ stage (from_row x) = "NEW").
    { apply leads_at_In. rewrite Hsplit. apply in_or_app. right. left.
      reflexivity. }
    assert (Hfresh : ~ In (id (from_row x))
                       (map (fun r => id (from_row r)) done)).
    { pose proof (leads_at_NoDup "NEW" w0 Hnd) as Hnd'.
      rewrite Hsplit, map_app in Hnd'. simpl in Hnd'.
      apply NoDup_app in Hnd'. destruct Hnd' as (_ & Hdisj & _).
      intros Hin. apply (Hdisj (id (from_row x))).
      - apply list_elem_of_In. exact Hin.
      - left. }
    split.
    { rewrite filter_app, length_app, filter_cons, filter_nil. subst n.
      destruct (qualifies a b c (from_row x)); simpl.
      - destruct (decide (true = true)); [simpl; lia | congruence].
      - destruct (decide (false = true)); [discriminate | simpl; lia]. }
    split; [rewrite length_app; simpl; lia|].
    split; [exact Hout|].
    unfold update_stage.
    apply (Forall2_map_r_In (partly a b c done)); [exact Hrows|].
    intros r r1 Hr Hp.
    pose proof (partly_same_id _ _ _ _ _ _ Hp) as Hid.
    destruct Hp as [Hin Hnot].
    destruct (has_id (id (from_row x)) r1) eqn:Hh.
    + apply has_id_true in Hh.
      assert (r = x).
      { apply (same_id_same_row (leads w0)); try tauto. congruence. }
      subst r. rewrite (Hnot Hfresh). split.
      * intros _. simpl. split; reflexivity.
      * intros Hout'. exfalso. apply Hout'. rewrite map_app.
        apply in_or_app. right. left. reflexivity.
    + apply has_id_false in Hh. split.
      * intros Hin'. apply Hin. rewrite map_app in Hin'.
        apply in_app_or in Hin'. destruct Hin' as [H|[H|[]]];
          [exact H | congruence].
      * intros Hout'. apply Hnot. intros H. apply Hout'.
        rewrite map_app. apply in_or_app. left. exact H.
  - unfold I. simpl. split; [reflexivity|]. split; [lia|].
    split; [reflexivity|].
    apply Forall2_same_length_lookup. split; [reflexivity|].
    intros i x y Hx Hy. rewrite Hx in Hy. inversion Hy; subst y.
    split; [intros []|reflexivity].
  - exists w'. subst n. split; [exact Hrun|]. tauto.
Qed.

Lemma partly_resolved (a : Q) (b c : Z) (w : World) (rows' : list LeadRow) :
  NoDup (lead_ids w) ->
  Forall2 (partly a b c (leads_at "NEW" w)) (leads w) rows' ->
  Forall2 (resolved a b c) (leads w) rows'.
Proof.
  intros Hnd H. apply (Forall2_impl_In _ _ _ _ H).
  intros x y Hx [Hin Hout]. unfold resolved.
  destruct (decide (stage (from_row x) = "NEW")) as [Hnew|Hold].
  - apply Hin. apply (in_map (fun r => id (from_row r))).
    apply leads_at_In. tauto.
  - apply Hout. intros Hid. apply in_map_iff in Hid.
    destruct Hid as (z & Hz & Hzin). apply leads_at_In in Hzin.
    destruct Hzin as [Hzin Hznew].
    assert (z = x) by (apply (same_id_same_row (leads w)); assumption).
    congruence.
Qed.

Lemma resolved_none_new (a : Q) (b c : Z) (rows rows' : list LeadRow) :
  Forall2 (resolved a b c) rows rows' ->
  filter (fun r => stage (from_row r) = "NEW") rows' = [].
Proof.
  induction 1 as [|x y rows rows' Hxy _ IH]; [reflexivity|].
  rewrite filter_cons, IH.
  destruct (decide (stage (from_row y) = "NEW")) as [Hy|]; [|reflexivity].
  exfalso. unfold resolved in Hxy.
  destruct (decide (stage (from_row x) = "NEW")) as [Hx|Hx].
  - destruct Hxy as [Hrow _]. rewrite Hrow in Hy. simpl in Hy.
    exact (verdict_not_new a b c (from_row x) Hy).
  - subst y. contradiction.
Qed.

(** With no NEW lead, a pass only reads. *)
Lemma qualify_all_idle (E : Env) (a : Q) (b c : Z) (w : World) :
  leads_at "NEW" w = [] ->
  fst (qualify_all E a b c w) = Ok 0 /\
  leads (after (qualify_all E a b c) w) = leads w /\
  outreach (after (qualify_all E a b c) w) = outreach w.
Proof.
  intros Hnone.
  assert (Hrun : qualify_all E a b c w =
            (Ok 0, {| leads := leads w; outreach := outreach w;
                      clock := (clock w + elapse E (ticks w))%Q;
                      ticks := S (ticks w); uuids := uuids w;
                      calls := calls w |})).
  { unfold qualify_all. unfold bind at 1. rewrite fetchall_run.
    change (leads_at "NEW" {| leads := leads w; outreach := outreach w;
              clock := (clock w + elapse E (ticks w))%Q;
              ticks := S (ticks w); uuids := uuids w; calls := calls w |})
      with (leads_at "NEW" w).
    rewrite Hnone. reflexivity. }
  unfold after. rewrite Hrun. repeat split.
Qed.

(** C6. In a store with unique ids, a qualification pass returns (it never
    raises) the number of NEW leads whose score reaches [min_score]; it
    resolves every NEW lead, to QUALIFIED when its score reaches
    [min_score] and to DISQUALIFIED otherwise, keeping the other columns,
    and leaves every other lead exactly as it was; no lead is NEW
    afterwards; each NEW lead is written once (the pass takes one step for
    its query and two, a reading of the clock and an update, per NEW lead);
    and running the pass again changes no lead and qualifies none. *)
Theorem qualify_all_resolves_new (E : Env) (min_rating : Q)
    (min_reviews min_score : Z) (w : World) (Hkeys : NoDup (lead_ids w)) :
  let pass := qualify_all E min_rating min_reviews min_score in
  let w' := after pass w in
  fst (pass w) =
    Ok (Z.of_nat (length (filter
          (fun r => qualifies min_rating min_reviews min_score (from_row r)
                    = true)
          (leads_at "NEW" w)))) /\
  Forall2 (resolved min_rating min_reviews min_score) (leads w) (leads w') /\
  leads_at "NEW" w' = [] /\
  ticks w' = (ticks w + 1 + 2 * length (leads_at "NEW" w))%nat /\
  outreach w' = outreach w /\
  fst (pass w') = Ok 0 /\
  leads (after pass w') = leads w'.
Proof.
  intros pass w'.
  set (w0 := {| leads := leads w; outreach := outreach w;
                clock := (clock w + elapse E (ticks w))%Q;
                ticks := S (ticks w); uuids := uuids w;
                calls := calls w |}).
  destruct (qualify_loop_run E min_rating min_reviews min_score w0 Hkeys)
    as (w1 & Hrun & Hticks & Hout & Hrows).
  change (leads_at "NEW" w0) with (leads_at "NEW" w) in *.
  change (leads w0) with (leads w) in *.
  assert (Hpass : pass w =
            (Ok (Z.of_nat (length (filter
                   (fun r => qualifies min_rating min_reviews min_score
                               (from_row r) = true)
                   (leads_at "NEW" w)))), w1)).
  { unfold pass, qualify_all. unfold bind at 1. rewrite fetchall_run.
    fold w0. change (leads_at "NEW" w0) with (leads_at "NEW" w).
    exact Hrun. }
  assert (Hw' : w' = w1) by (unfold w', after; rewrite Hpass; reflexivity).
  rewrite Hw', Hpass. cbn [fst].
  pose proof (partly_resolved _ _ _ w (leads w1) Hkeys Hrows) as Hres.
  assert (Hnone : leads_at "NEW" w1 = [])
    by (exact (resolved_none_new _ _ _ _ _ Hres)).
  destruct (qualify_all_idle E min_rating min_reviews min_score w1 Hnone)
    as (Hok & Hsame & _).
  split; [reflexivity|]. split; [exact Hres|]. split; [exact Hnone|].
  split; [rewrite Hticks; simpl; lia|].
  split; [exact Hout|].
  split; [exact Hok | exact Hsame].
Qed.

Lemma qualify_all_resolves_new_witness :
  NoDup (lead_ids leads_only) /\
  leads_at "NEW" (after (qualify_all env (38 # 10) 5 3) leads_only) = [].
Proof.
  assert (Hkey : NoDup (lead_ids leads_only))
    by (apply (bool_decide_unpack _); vm_compute; exact I).
  split; [exact Hkey|].
  exact (proj1 (proj2 (proj2
           (qualify_all_resolves_new env (38 # 10) 5 3 leads_only Hkey)))).
Defined.

(** A pass with the default thresholds over the sample store: the first
    lead qualifies, the second does not, the third, not NEW, is kept. *)
Example qualify_sample_store :
  let pass := qualify_all env (38 # 10) 5 3 in
  fst (pass leads_only) = Ok 1 /\
  map (fun r => stage (from_row r)) (leads (after pass leads_only))
  = ["QUALIFIED"; "DISQUALIFIED"; "CONTACTED"].
Proof. vm_compute. split; reflexivity. Qed.

(* ---- Email Generation and drafting ---- *)

Lemma generate_email_body_key_error (cfg : Config) (lead : Lead)
    (offer lead_magnet : string) (cta_duration : Z) :
  generate_email_body cfg lead offer lead_magnet cta_duration
  = Raise (KeyError "first_name or 'there'").
Proof.
  unfold generate_email_body, format.
  vm_compute. reflexivity.
Qed.

(** The loop of the draft step stops at the first lead with an email
    address, where rendering raises; it writes nothing before that. *)
Lemma draft_loop_run (E : Env) (cfg : Config) (offer : string)
    (rows : list LeadRow) (count : Z) (w : World) :
  for_each rows
    (fun row count =>
       let lead := from_row row in
       if negb (PyStr.truthy_opt (email lead)) then ret count
       else
         bind (lift (generate_email_body cfg lead offer "free audit" 15))
           (fun sb =>
              bind (new_uuid E)
                (fun u =>
                   bind (execute E (set_outreach (insert_or_replace
                      {| Outreach.id := u; Outreach.lead_id := id lead;
                         Outreach.subject := fst sb;
                         Outreach.body := snd sb;
                         Outreach.status := "DRAFT";
                         Outreach.sent_at := None;
                         Outreach.message_id := None |})))
                     (fun _ => ret (count + 1)))))
    count w
  = ((if existsb (fun r => PyStr.truthy_opt (email (from_row r))) rows
      then Raise (KeyError "first_name or 'there'")
      else Ok count), w).
Proof.
  revert count w. induction rows as [|x rows IH]; intros count w;
    [reflexivity|].
  cbn [for_each existsb]. unfold bind at 1. cbn zeta.
  destruct (PyStr.truthy_opt (email (from_row x))); cbn [negb orb].
  - unfold bind at 1. unfold lift.
    rewrite generate_email_body_key_error. reflexivity.
  - unfold ret at 1. apply IH.
Qed.

Lemma draft_emails_run (E : Env) (cfg : Config) (st offer : string)
    (w : World) :
  draft_emails_for_stage E cfg st offer w
  = ((if existsb (fun r => PyStr.truthy_opt (email (from_row r)))
                 (leads_at st w)
      then Raise (KeyError "first_name or 'there'")
      else Ok 0),
     {| leads := leads w; outreach := outreach w;
        clock := (clock w + elapse E (ticks w))%Q;
        ticks := S (ticks w); uuids := uuids w; calls := calls w |}).
Proof.
  unfold draft_emails_for_stage, draft_emails_with.
  unfold bind at 1. rewrite fetchall_run.
  rewrite draft_loop_run. reflexivity.
Qed.

(* ---- what each command may do to the outreach table ---- *)

Lemma keeps_ret {A X : Type} (f : World -> X) (a : A) : keeps f (ret a).
Proof. intros w. reflexivity. Qed.

Lemma keeps_lift {A X : Type} (f : World -> X) (r : result A) :
  keeps f (lift r).
Proof. intros w. reflexivity. Qed.

Lemma keeps_gets {A X : Type} (f : World -> X) (g : World -> A) :
  keeps f (gets g).
Proof. intros w. reflexivity. Qed.

Lemma keeps_bind {A B X : Type} (f : World -> X) (m : M A) (k : A -> M B) :
  keeps f m -> (forall a, keeps f (k a)) -> keeps f (bind m k).
Proof.
  intros Hm Hk w. unfold after, bind. specialize (Hm w). unfold after in Hm.
  destruct (m w) as [[a|e] w1]; simpl in *.
  - rewrite <- Hm. apply (Hk a w1).
  - exact Hm.
Qed.

Lemma keeps_for_each {A S X : Type} (f : World -> X)
    (body : A -> S -> M S) (l : list A) :
  (forall x s, keeps f (body x s)) -> forall s, keeps f (for_each l body s).
Proof.
  intros Hbody. induction l as [|x l IH]; intros s; simpl.
  - apply keeps_ret.
  - apply keeps_bind; [apply Hbody | exact IH].
Qed.

Lemma keeps_outreach_tick (E : Env) : keeps outreach (tick E).
Proof. intros w. reflexivity. Qed.

Lemma keeps_outreach_now (E : Env) : keeps outreach (now E).
Proof. intros w. reflexivity. Qed.

Lemma keeps_outreach_new_uuid (E : Env) : keeps outreach (new_uuid E).
Proof. intros w. reflexivity. Qed.

Lemma keeps_outreach_fetchall {A : Type} (E : Env) (q : World -> list A) :
  keeps outreach (fetchall E q).
Proof. intros w. reflexivity. Qed.

Lemma keeps_outreach_set_leads (E : Env)
    (g : list LeadRow -> list LeadRow) :
  keeps outreach (execute E (set_leads g)).
Proof. intros w. reflexivity. Qed.

Lemma keeps_outreach_set_stage (E : Env) (i st : string) :
  keeps outreach (set_stage E i st).
Proof. intros w. reflexivity. Qed.

Lemma keeps_outreach_upsert_lead (E : Env) (lead : Lead) :
  keeps outreach (upsert_lead E lead).
Proof. intros w. reflexivity. Qed.

Create HintDb keeps.
#[local] Hint Resolve keeps_ret keeps_lift keeps_gets keeps_outreach_tick
  keeps_outreach_now keeps_outreach_new_uuid keeps_outreach_fetchall
  keeps_outreach_set_leads keeps_outreach_set_stage
  keeps_outreach_upsert_lead : keeps.

Ltac keeps_outreach :=
  repeat first
    [ progress cbn beta zeta
    | solve [auto with keeps]
    | match goal with |- keeps _ (if ?b then _ else _) => destruct b end
    | apply keeps_for_each; intros
    | apply keeps_bind; [|intro] ].

Lemma keeps_outreach_qualify_all (E : Env) (a : Q) (b c : Z) :
  keeps outreach (qualify_all E a b c).
Proof. unfold qualify_all. keeps_outreach. Qed.

Lemma keeps_outreach_cmd_search (E : Env) (results : list Item)
    (limit : nat) :
  keeps outreach (cmd_search E results limit).
Proof. unfold cmd_search, search_serpapi. keeps_outreach. Qed.

Lemma keeps_outreach_draft (E : Env) (cfg : Config) (st offer : string) :
  keeps outreach (draft_emails_for_stage E cfg st offer).
Proof. intros w. unfold after. rewrite draft_emails_run. reflexivity. Qed.

Lemma in_flight_update_outreach (st : string) (t : Z)
    (mid : option string) (j i : string) (rows : list Outreach.row) :
  st <> "DRAFT" -> st <> "SENDING" ->
  (in_flight_rows i (update_outreach st t mid j rows)
   <= in_flight_rows i rows)%nat.
Proof.
  intros Hd Hs. unfold in_flight_rows.
  induction rows as [|o rows IH]; simpl; [lia|].
  rewrite !filter_cons.
  destruct (has_oid j o).
  - match goal with
    | |- context [decide (Outreach.lead_id ?o' = i /\ non_terminal ?o' = true)] =>
        destruct (decide (Outreach.lead_id o' = i /\ non_terminal o' = true))
          as [[_ Hnt]|_]
    end.
    + exfalso. unfold non_terminal in Hnt. simpl in Hnt.
      rewrite !bool_decide_eq_false_2 in Hnt by assumption. discriminate.
    + destruct (decide (Outreach.lead_id o = i /\ non_terminal o = true));
        simpl; lia.
  - destruct (decide (Outreach.lead_id o = i /\ non_terminal o = true));
      simpl; lia.
Qed.

(** The updates of a run of the Dispatcher start no message: they only end
    some. *)
Lemma dispatched_settles (rows : list Draft) (cs : list Call)
    (T T' : Tables) (i : string) :
  dispatched rows cs T T' ->
  (in_flight_rows i (snd T') <= in_flight_rows i (snd T))%nat.
Proof.
  induction 1 as [T|r c t1 t2 rows cs T T' _ IH]; [lia|].
  etransitivity; [exact IH|].
  unfold dispatch. simpl.
  destruct (succeeded c); apply in_flight_update_outreach; discriminate.
Qed.

(** The loop of [send_all] in dry-run mode: no call of [send_email], every
    message taken as sent. *)
Lemma send_loop_dry_run (E : Env) (cfg : Config) (rows : list Draft)
    (sent0 : Z) (last0 : Q) (w0 : World) :
  exists w',
    for_each rows (send_one E cfg true) (sent0, last0) w0
    = (Ok (sent0 + Z.of_nat (length rows), last0), w') /\
    calls w' = calls w0 /\
    dispatched rows (repeat simulated (length rows)) (tables w0) (tables w').
Proof.
  pose (I := fun (done : list Draft) (st : Z * Q) (w : World) =>
    st = (sent0 + Z.of_nat (length done), last0) /\
    calls w = calls w0 /\
    dispatched done (repeat simulated (length done)) (tables w0) (tables w)).
  destruct (for_each_inv (send_one E cfg true) rows I) with
    (s := (sent0, last0)) (w := w0) as (st & w' & Hrun & Hst & Hcalls & Hd).
  - intros done x rest st w _ (-> & Hcalls & Hd).
    destruct (send_one_dry_run E cfg x (sent0 + Z.of_nat (length done))
                last0 w) as (t1 & t2 & w' & Heq & Hc & Hout & Hleads).
    eexists; exists w'. split; [exact Heq|].
    split; [rewrite length_app; simpl; f_equal; lia|].
    split; [congruence|].
    rewrite length_app. simpl. rewrite repeat_app. simpl.
    assert (Ht : tables w' = dispatch x simulated t1 t2 (tables w)).
    { unfold tables, dispatch. simpl. rewrite Hout, Hleads. reflexivity. }
    rewrite Ht. apply dispatched_snoc. exact Hd.
  - split; [simpl; f_equal; lia|]. split; [reflexivity | constructor].
  - subst st. eauto.
Qed.

Lemma send_all_settles (E : Env) (cfg : Config) (dry_run : bool)
    (w : World) (i : string) :
  (in_flight i (after (send_all E cfg dry_run) w) <= in_flight i w)%nat.
Proof.
  unfold in_flight, after. destruct dry_run.
  - set (w0 := {| leads := leads w; outreach := outreach w;
                  clock := (clock w + elapse E (ticks w))%Q;
                  ticks := S (ticks w); uuids := uuids w;
                  calls := calls w |}).
    assert (Hfetch : fetchall E drafts w = (Ok (drafts w), w0))
      by reflexivity.
    destruct (send_loop_dry_run E cfg (drafts w) 0 0%Q w0)
      as (w' & Hrun & _ & Hd).
    unfold send_all. unfold bind at 1. rewrite Hfetch.
    unfold bind at 1. rewrite Hrun. unfold ret. cbn [fst snd].
    apply (dispatched_settles _ _ _ _ i) in Hd. exact Hd.
  - destruct (send_all_run E cfg w) as (cs & w' & Hrun & _ & _ & Hd & _).
    rewrite Hrun. simpl.
    apply (dispatched_settles _ _ _ _ i) in Hd. exact Hd.
Qed.

(** No command starts a message. *)
Lemma run_settles (E : Env) (cfg : Config) (c : command) (w : World)
    (i : string) :
  (in_flight i (after (run E cfg c) w) <= in_flight i w)%nat.
Proof.
  assert (Hbind : forall (m : M Z) w,
             after (bind m (fun _ => ret tt)) w = after m w).
  { intros m w0. unfold after, bind. destruct (m w0) as [[a|e] w1];
      reflexivity. }
  destruct c as [results limit|a b c|offer|dry_run]; simpl.
  - unfold in_flight. rewrite keeps_outreach_cmd_search. lia.
  - unfold cmd_qualify. rewrite Hbind. unfold in_flight.
    rewrite keeps_outreach_qualify_all. lia.
  - unfold cmd_draft_emails. rewrite Hbind. unfold in_flight.
    rewrite keeps_outreach_draft. lia.
  - unfold cmd_send_emails. rewrite Hbind. apply send_all_settles.
Qed.

(** An [INSERT OR REPLACE] under an identifier the table does not have
    appends the row. *)
Lemma insert_or_replace_fresh (m : Outreach.row)
    (rows : list Outreach.row) :
  ~ In (Outreach.id m) (map Outreach.id rows) ->
  insert_or_replace m rows = rows ++ [m].
Proof.
  intros Hnew. unfold insert_or_replace. f_equal.
  induction rows as [|o rows IH]; [reflexivity|].
  simpl in Hnew. rewrite filter_cons.
  destruct (decide (Outreach.id o ≠ Outreach.id m)) as [_|Heq].
  - f_equal. apply IH. tauto.
  - exfalso. apply Hnew. left.
    destruct (decide (Outreach.id o = Outreach.id m)); [assumption|].
    contradiction.
Qed.

Lemma in_flight_rows_app (i : string) (rows more : list Outreach.row) :
  in_flight_rows i (rows ++ more)
  = (in_flight_rows i rows + in_flight_rows i more)%nat.
Proof. unfold in_flight_rows. rewrite filter_app, length_app. reflexivity. Qed.

(** Every row the draft step inserts is a non-terminal message of its
    lead. *)
Lemma in_flight_rows_new_drafts (i offer : string)
    (render : Lead -> string -> string * string)
    (us : list string) (ts : list LeadRow) :
  length us = length ts ->
  in_flight_rows i
    (zip_with (fun u r => new_draft u (from_row r)
                            (render (from_row r) offer)) us ts)
  = length (filter (fun r => id (from_row r) = i) ts).
Proof.
  revert us. induction ts as [|t ts IH]; intros [|u us] Hlen;
    try discriminate; [reflexivity|].
  simpl in Hlen. injection Hlen as Hlen.
  unfold in_flight_rows in *. simpl zip_with.
  rewrite !filter_cons.
  destruct (decide (id (from_row t) = i)) as [Hi|Hi].
  - destruct (decide (Outreach.lead_id
                        (new_draft u (from_row t)
                           (render (from_row t) offer)) = i
                      /\ non_terminal
                           (new_draft u (from_row t)
                              (render (from_row t) offer)) = true))
      as [_|Hn].
    + simpl. f_equal. apply IH. exact Hlen.
    + exfalso. apply Hn. split; [exact Hi | reflexivity].
  - destruct (decide (Outreach.lead_id
                        (new_draft u (from_row t)
                           (render (from_row t) offer)) = i
                      /\ non_terminal
                           (new_draft u (from_row t)
                              (render (from_row t) offer)) = true))
      as [[Hn _]|_].
    + exfalso. apply Hi. exact Hn.
    + apply IH. exact Hlen.
Qed.

(** The loop of the draft step with a renderer that returns: it skips the
    leads without an email address and inserts one DRAFT row for each of
    the others, whatever the outreach table holds. *)
Lemma draft_loop_with_run (E : Env)
    (render : Lead -> string -> string * string) (offer : string)
    (rows : list LeadRow) (count : Z) (w : World) :
  let targets :=
    filter (fun r => PyStr.truthy_opt (email (from_row r)) = true) rows in
  NoDup (outreach_ids w ++ next_uuids E w (length targets)) ->
  exists w',
    for_each rows
      (fun row count =>
         let lead := from_row row in
         if negb (PyStr.truthy_opt (email lead)) then ret count
         else
           bind (lift (Ok (render lead offer)))
             (fun sb =>
                bind (new_uuid E)
                  (fun u =>
                     bind (execute E (set_outreach (insert_or_replace
                        {| Outreach.id := u; Outreach.lead_id := id lead;
                           Outreach.subject := fst sb;
                           Outreach.body := snd sb;
                           Outreach.status := "DRAFT";
                           Outreach.sent_at := None;
                           Outreach.message_id := None |})))
                       (fun _ => ret (count + 1)))))
      count w
    = (Ok (count + Z.of_nat (length targets)), w') /\
    leads w' = leads w /\
    outreach w'
    = outreach w
      ++ zip_with (fun u r => new_draft u (from_row r)
                                (render (from_row r) offer))
                  (next_uuids E w (length targets)) targets /\
    uuids w' = (uuids w + length targets)%nat /\
    calls w' = calls w.
Proof.
  cbv zeta.
  set (body := fun (row : LeadRow) (count : Z) => _).
  revert count w. induction rows as [|x rows IH]; intros count w Hnd.
  - exists w. simpl. unfold ret. rewrite Z.add_0_r, Nat.add_0_r.
    rewrite app_nil_r. auto.
  - cbn [for_each]. unfold bind at 1. rewrite filter_cons in Hnd |- *.
    destruct (PyStr.truthy_opt (email (from_row x))) eqn:He.
    + destruct (decide (true = true)) as [_|Hf]; [|congruence].
      cbn [length] in Hnd |- *. unfold next_uuids in Hnd. cbn [seq map] in Hnd.
      set (m := new_draft (uuid4 E (uuids w)) (from_row x)
                  (render (from_row x) offer)).
      set (w1 := {| leads := leads w;
                    outreach := outreach w ++ [m];
                    clock := (clock w + elapse E (ticks w))%Q;
                    ticks := S (ticks w); uuids := S (uuids w);
                    calls := calls w |}).
      assert (Hfresh : ~ In (Outreach.id m) (map Outreach.id (outreach w))).
      { apply NoDup_app in Hnd. destruct Hnd as (_ & Hdis & _).
        intros Hin. apply (Hdis (uuid4 E (uuids w))).
        - apply list_elem_of_In. exact Hin.
        - left. }
      assert (Hstep : body x count w = (Ok (count + 1), w1)).
      { unfold body. cbv zeta. rewrite He. cbn [negb].
        unfold lift, new_uuid, execute, tick, modify, gets, ret, bind.
        cbn [uuids leads outreach clock ticks calls set_outreach].
        pose proof (insert_or_replace_fresh m _ Hfresh) as Hins.
        unfold set_outreach. cbn [uuids leads outreach clock ticks calls].
        unfold w1, m, new_draft in *. rewrite Hins. reflexivity. }
      rewrite Hstep.
      destruct (IH (count + 1) w1) as (w' & Hrun & Hl & Ho & Hu & Hc).
      { unfold outreach_ids, next_uuids, w1. cbn [outreach uuids].
        rewrite map_app. cbn [map]. rewrite <- app_assoc. exact Hnd. }
      exists w'. split.
      { rewrite Hrun. f_equal. f_equal. lia. }
      split; [exact Hl|]. split.
      { rewrite Ho. unfold w1, next_uuids. cbn [outreach uuids seq map].
        cbn [zip_with]. rewrite <- app_assoc. reflexivity. }
      split; [rewrite Hu; unfold w1; cbn [uuids]; lia | exact Hc].
    + destruct (decide (false = true)) as [Hf|_]; [discriminate|].
      assert (Hstep : body x count w = (Ok count, w)).
      { unfold body. cbv zeta. rewrite He. reflexivity. }
      rewrite Hstep. apply IH. exact Hnd.
Qed.




(** What the draft step does on a store whose first lead has an email
    address: it raises, and the outreach table stays empty. *)
Example draft_step_raises :
  fst (draft_emails_for_stage env configured "NEW" "Free audit" leads_only)
  = Raise (KeyError "first_name or 'there'") /\
  outreach (after (draft_emails_for_stage env configured "NEW" "Free audit")
              leads_only) = [].
Proof. vm_compute. split; reflexivity. Qed.

(** [str.format] on a template whose fields are keyword names: values are
    rendered as [str] renders them and doubled braces give one brace. *)
Example format_fills_named_fields :
  format "Hi {first_name}, a {cta_duration}-minute chat? {{{category}}}"
    (list_to_map [("first_name", VStr "Al"); ("cta_duration", VInt 15);
                  ("category", VNone)])
  = Ok "Hi Al, a 15-minute chat? {None}".
Proof. vm_compute. reflexivity. Qed.

(** C3. The renderer is not total.  [EMAIL_TEMPLATE] has the replacement
    field [first_name or 'there'] (and, further on, [category or
    'businesses']), written as an expression with its fallback but looked
    up by [str.format] as a keyword name; no such keyword is passed, so for
    every configuration, lead, offer, lead magnet and duration
    [generate_email_body] raises [KeyError] and renders nothing. *)
Theorem generate_email_body_raises (cfg : Config) (lead : Lead)
    (offer lead_magnet : string) (cta_duration : Z) :
  generate_email_body cfg lead offer lead_magnet cta_duration
  = Raise (KeyError "first_name or 'there'").
Proof.
  unfold generate_email_body, format, EMAIL_TEMPLATE.
  (* the subject line is filled in; the next field has no keyword *)
  vm_compute.
  reflexivity.
Qed.

End LeadGenSpec.

(* ===================================================================== *)
(* Further properties of src/cursor_dxb_video_agent.py                    *)
(* ===================================================================== *)
Module AgentLeadsSpec.
Import Agent AgentLeads.

(* ---- dedupe ---- *)

Lemma dedupe_from_fresh (seen : gset (string * string * string))
    (leads : list Lead) (x : Lead) :
  x ∈ dedupe_from seen leads -> key x ∉ seen.
Proof.
  revert seen. induction leads as [|l rest IH]; intros seen Hx; simpl in Hx.
  - apply elem_of_nil in Hx. contradiction.
  - destruct (decide (key l ∈ seen)) as [Hin|Hout].
    + apply IH. exact Hx.
    + apply elem_of_cons in Hx. destruct Hx as [->|Hx]; [exact Hout|].
      apply IH in Hx. intros H. apply Hx. apply elem_of_union. right.
      exact H.
Qed.

Lemma dedupe_from_NoDup (seen : gset (string * string * string))
    (leads : list Lead) :
  NoDup (map key (dedupe_from seen leads)).
Proof.
  revert seen. induction leads as [|l rest IH]; intros seen; simpl.
  - constructor.
  - destruct (decide (key l ∈ seen)); [apply IH|].
    simpl. apply NoDup_cons. split; [|apply IH].
    intros Hin. apply list_elem_of_fmap in Hin.
    destruct Hin as (y & Hy & Hin).
    apply dedupe_from_fresh in Hin. apply Hin.
    apply elem_of_union. left. apply elem_of_singleton. congruence.
Qed.

Lemma dedupe_from_sublist (seen : gset (string * string * string))
    (leads : list Lead) :
  dedupe_from seen leads `sublist_of` leads.
Proof.
  revert seen. induction leads as [|l rest IH]; intros seen; simpl.
  - constructor.
  - destruct (decide (key l ∈ seen)).
    + apply sublist_cons. apply IH.
    + apply sublist_skip. apply IH.
Qed.

(** A lead is kept when its key is new, both to [seen] and to the leads
    before it. *)
Lemma dedupe_from_keeps (seen : gset (string * string * string))
    (pre post : list Lead) (x : Lead) :
  key x ∉ seen -> key x ∉ map key pre ->
  x ∈ dedupe_from seen (pre ++ x :: post).
Proof.
  revert seen. induction pre as [|l pre IH]; intros seen Hseen Hpre; simpl.
  - destruct (decide (key x ∈ seen)); [contradiction|]. left.
  - simpl in Hpre. apply not_elem_of_cons in Hpre. destruct Hpre as [Hne Hpre].
    destruct (decide (key l ∈ seen)).
    + apply IH; assumption.
    + right. apply IH; [|exact Hpre].
      intros H. apply elem_of_union in H. destruct H as [H|H];
        [apply elem_of_singleton in H; congruence | contradiction].
Qed.

Lemma dedupe_from_covers (seen : gset (string * string * string))
    (leads : list Lead) (x : Lead) :
  x ∈ leads -> key x ∉ seen ->
  exists y, y ∈ dedupe_from seen leads /\ key y = key x.
Proof.
  revert seen. induction leads as [|l rest IH]; intros seen Hx Hseen.
  - apply elem_of_nil in Hx. contradiction.
  - simpl. apply elem_of_cons in Hx.
    destruct (decide (key l ∈ seen)) as [Hin|Hout].
    + destruct Hx as [->|Hx]; [contradiction|]. apply IH; assumption.
    + destruct (decide (key l = key x)) as [Heq|Hne].
      * exists l. split; [left | exact Heq].
      * destruct Hx as [->|Hx]; [congruence|].
        destruct (IH ({[key l]} ∪ seen) Hx) as (y & Hy & Hk).
        { intros H. apply elem_of_union in H. destruct H as [H|H];
            [apply elem_of_singleton in H; congruence | contradiction]. }
        exists y. split; [right; exact Hy | exact Hk].
Qed.

(** Leads whose keys are new and pairwise distinct all pass. *)
Lemma dedupe_from_fixed (seen : gset (string * string * string))
    (leads : list Lead) :
  NoDup (map key leads) -> (forall x, x ∈ leads -> key x ∉ seen) ->
  dedupe_from seen leads = leads.
Proof.
  revert seen. induction leads as [|l rest IH]; intros seen Hnd Hnew;
    [reflexivity|].
  simpl in *. apply NoDup_cons in Hnd. destruct Hnd as [Hl Hnd].
  destruct (decide (key l ∈ seen)) as [Hin|_].
  - exfalso. apply (Hnew l); [left | exact Hin].
  - f_equal. apply IH; [exact Hnd|].
    intros x Hx Hin. apply elem_of_union in Hin. destruct Hin as [Hin|Hin].
    + apply elem_of_singleton in Hin. apply Hl. rewrite <- Hin.
      apply list_elem_of_fmap. eauto.
    + apply (Hnew x); [right; exact Hx | exact Hin].
Qed.

(** X1. [dedupe] returns leads with pairwise distinct keys (name, contact
    and platform compared in lower case), in their input order, and keeps
    of each key the first lead that has it: a lead no earlier lead shares
    its key with is kept, and every input lead has a kept lead of its
    key. *)
Theorem dedupe_keeps_first_of_each_key (leads : list Lead) :
  NoDup (map key (dedupe leads)) /\
  dedupe leads `sublist_of` leads /\
  (forall pre x post,
      leads = pre ++ x :: post -> key x ∉ map key pre ->
      x ∈ dedupe leads) /\
  (forall x, x ∈ leads -> exists y, y ∈ dedupe leads /\ key y = key x).
Proof.
  unfold dedupe. split; [apply dedupe_from_NoDup|].
  split; [apply dedupe_from_sublist|]. split.
  - intros pre x post -> Hpre.
    apply dedupe_from_keeps; [apply not_elem_of_empty | exact Hpre].
  - intros x Hx.
    apply dedupe_from_covers; [exact Hx | apply not_elem_of_empty].
Qed.

(** X2. [dedupe] is idempotent: a list it returned, and any list whose
    keys are pairwise distinct, comes back unchanged. *)
Theorem dedupe_idempotent (leads : list Lead) :
  dedupe (dedupe leads) = dedupe leads /\
  (NoDup (map key leads) -> dedupe leads = leads).
Proof.
  assert (Hfix : forall l, NoDup (map key l) -> dedupe l = l).
  { intros l Hnd. unfold dedupe. apply dedupe_from_fixed; [exact Hnd|].
    intros x _. apply not_elem_of_empty. }
  split; [|apply Hfix].
  apply Hfix. apply dedupe_from_NoDup.
Qed.

(* ---- strings ---- *)

Lemma append_cons (c : ascii) (s t : string) :
  String c s +:+ t = String c (s +:+ t).
Proof. reflexivity. Qed.

Lemma append_empty_l (t : string) : EmptyString +:+ t = t.
Proof. reflexivity. Qed.

Lemma append_assoc (s t u : string) : (s +:+ t) +:+ u = s +:+ (t +:+ u).
Proof.
  induction s as [|c s IH]; [reflexivity|].
  rewrite !append_cons, IH. reflexivity.
Qed.

Lemma rev_string_acc (acc s : string) :
  Py.rev_string acc s = Py.rev_string EmptyString s +:+ acc.
Proof.
  revert acc. induction s as [|c s IH]; intros acc; simpl; [reflexivity|].
  rewrite (IH (String c acc)), (IH (String c EmptyString)).
  rewrite append_assoc. reflexivity.
Qed.

Lemma rev_string_app (acc s t : string) :
  Py.rev_string acc (s +:+ t) = Py.rev_string (Py.rev_string acc s) t.
Proof.
  revert acc. induction s as [|c s IH]; intros acc; [reflexivity|].
  rewrite append_cons. simpl. apply IH.
Qed.

Lemma rev_string_involutive (s : string) :
  Py.rev_string EmptyString (Py.rev_string EmptyString s) = s.
Proof.
  induction s as [|c s IH]; [reflexivity|].
  simpl. rewrite (rev_string_acc (String c EmptyString)).
  rewrite rev_string_app, IH. reflexivity.
Qed.

(** What [lstrip] returns is empty or starts with a character that is not
    a blank. *)
Lemma lstrip_head (s : string) :
  Py.lstrip s = EmptyString \/
  exists c r, Py.lstrip s = String c r /\ Py.is_space c = false.
Proof.
  induction s as [|c s IH]; simpl; [left; reflexivity|].
  destruct (Py.is_space c) eqn:Hc; [exact IH|].
  right. exists c, s. split; [reflexivity | exact Hc].
Qed.

Lemma lstrip_idempotent (s : string) :
  Py.lstrip (Py.lstrip s) = Py.lstrip s.
Proof.
  destruct (lstrip_head s) as [->|(c & r & -> & Hc)]; [reflexivity|].
  simpl. rewrite Hc. reflexivity.
Qed.

Lemma lstrip_keeps_last (u : string) (c : ascii) :
  Py.is_space c = false ->
  exists v, Py.lstrip (u +:+ String c EmptyString) = v +:+ String c EmptyString.
Proof.
  intros Hc. induction u as [|a u IH].
  - exists EmptyString. rewrite append_empty_l. simpl. rewrite Hc.
    reflexivity.
  - rewrite append_cons. simpl. destruct (Py.is_space a); [exact IH|].
    exists (String a u). reflexivity.
Qed.

(** [rstrip] leaves in place a first character that is not a blank. *)
Lemma rstrip_keeps_head (c : ascii) (r : string) :
  Py.is_space c = false ->
  exists r', Py.rstrip (String c r) = String c r'.
Proof.
  intros Hc. unfold Py.rstrip. simpl.
  rewrite (rev_string_acc (String c EmptyString)).
  destruct (lstrip_keeps_last (Py.rev_string EmptyString r) c Hc)
    as [v Hv].
  rewrite Hv, rev_string_app. simpl. eauto.
Qed.

Lemma rstrip_idempotent (s : string) :
  Py.rstrip (Py.rstrip s) = Py.rstrip s.
Proof.
  unfold Py.rstrip. rewrite rev_string_involutive, lstrip_idempotent.
  reflexivity.
Qed.

(** What [strip] returns is empty or starts with a character that is not a
    blank. *)
Lemma strip_head (s : string) :
  Py.strip s = EmptyString \/
  exists c r, Py.strip s = String c r /\ Py.is_space c = false.
Proof.
  unfold Py.strip.
  destruct (lstrip_head s) as [->|(c & r & -> & Hc)]; [left; reflexivity|].
  destruct (rstrip_keeps_head c r Hc) as [r' ->]. right. eauto.
Qed.

Lemma strip_idempotent (s : string) : Py.strip (Py.strip s) = Py.strip s.
Proof.
  destruct (strip_head s) as [->|(c & r & Heq & Hc)]; [reflexivity|].
  unfold Py.strip at 1. rewrite Heq. simpl. rewrite Hc.
  rewrite <- Heq. unfold Py.strip. apply rstrip_idempotent.
Qed.

Lemma truthy_true (s : string) :
  PyStr.truthy s = true <-> s <> EmptyString.
Proof.
  unfold PyStr.truthy. rewrite negb_true_iff, bool_decide_eq_false.
  reflexivity.
Qed.

Lemma snoc_truthy (s : string) (c : ascii) :
  PyStr.truthy (Py.snoc s c) = true.
Proof.
  apply truthy_true. unfold Py.snoc. destruct s; discriminate.
Qed.

(** [s.split()] is empty exactly when [s] has blanks only. *)
Lemma split_from_nil (cur s : string) :
  Py.split_from cur s = [] <-> cur = EmptyString /\ all_blank s = true.
Proof.
  revert cur. induction s as [|c s IH]; intros cur; simpl.
  - destruct (PyStr.truthy cur) eqn:Hcur.
    + apply truthy_true in Hcur. split; [discriminate | tauto].
    + unfold PyStr.truthy in Hcur. apply negb_false_iff in Hcur.
      apply bool_decide_eq_true in Hcur. tauto.
  - destruct (Py.is_space c); simpl.
    + destruct (PyStr.truthy cur) eqn:Hcur.
      * apply truthy_true in Hcur. split; [discriminate | tauto].
      * unfold PyStr.truthy in Hcur. apply negb_false_iff in Hcur.
        apply bool_decide_eq_true in Hcur. rewrite IH. tauto.
    + rewrite IH. split; [|intros [_ H]; discriminate].
      intros [H _]. pose proof (snoc_truthy cur c) as Ht.
      apply truthy_true in Ht. contradiction.
Qed.

Lemma lower_char_idempotent (c : ascii) :
  lower_char (lower_char c) = lower_char c.
Proof.
  destruct c as [[] [] [] [] [] [] [] []]; vm_compute; reflexivity.
Qed.

Lemma lower_idempotent (s : string) : lower (lower s) = lower s.
Proof.
  induction s as [|c s IH]; simpl; [reflexivity|].
  rewrite lower_char_idempotent, IH. reflexivity.
Qed.

(* ---- loading ---- *)

Lemma collect_loaded (field : Row -> string -> string)
    (uuid4 : nat -> string) (n : nat) (rows : list Row) (x : Lead) :
  x ∈ collect field uuid4 n rows -> loaded x.
Proof.
  revert n. induction rows as [|row rest IH]; intros n Hx; simpl in Hx.
  - apply elem_of_nil in Hx. contradiction.
  - destruct (PyStr.truthy (Py.strip (field row "Name"))) eqn:Hn;
      [|exact (IH _ Hx)].
    destruct (PyStr.truthy (Py.strip (field row "Contact"))) eqn:Hc;
      [|exact (IH _ Hx)].
    destruct (PyStr.truthy (lower (Py.strip (field row "Platform"))))
      eqn:Hp; [|exact (IH _ Hx)].
    simpl in Hx. apply elem_of_cons in Hx.
    destruct Hx as [->|Hx]; [|exact (IH _ Hx)].
    unfold loaded. simpl.
    rewrite !strip_idempotent, !lower_idempotent.
    apply truthy_true in Hn, Hc, Hp. tauto.
Qed.

Lemma collect_length (field : Row -> string -> string)
    (uuid4 : nat -> string) (n : nat) (rows : list Row) :
  (length (collect field uuid4 n rows) <= length rows)%nat.
Proof.
  revert n. induction rows as [|row rest IH]; intros n; simpl; [lia|].
  destruct (negb _ || negb _ || negb _); simpl.
  - specialize (IH n). lia.
  - specialize (IH (S n)). lia.
Qed.

(** The leads built take the identifiers [uuid4 n], [uuid4 (n+1)], ... in
    turn. *)
Lemma collect_ids (field : Row -> string -> string)
    (uuid4 : nat -> string) (n : nat) (rows : list Row) :
  map id (collect field uuid4 n rows)
  = map uuid4 (seq n (length (collect field uuid4 n rows))).
Proof.
  revert n. induction rows as [|row rest IH]; intros n; simpl;
    [reflexivity|].
  destruct (negb _ || negb _ || negb _); simpl; [apply IH|].
  f_equal. apply IH.
Qed.

Lemma collect_ids_NoDup (field : Row -> string -> string)
    (uuid4 : nat -> string) (n : nat) (rows : list Row) :
  (forall i j, uuid4 i = uuid4 j -> i = j) ->
  NoDup (map id (collect field uuid4 n rows)).
Proof.
  intros Hinj. rewrite collect_ids.
  apply (@NoDup_fmap_2 _ _ uuid4 Hinj). apply NoDup_seq.
Qed.

Lemma loader_spec (field : Row -> string -> string)
    (uuid4 : nat -> string) (rows : list Row) :
  let out := dedupe (collect field uuid4 0 rows) in
  (forall x, x ∈ out -> loaded x) /\
  NoDup (map key out) /\
  (length out <= length rows)%nat /\
  ((forall i j, uuid4 i = uuid4 j -> i = j) -> NoDup (map id out)).
Proof.
  intros out.
  assert (Hsub : out `sublist_of` collect field uuid4 0 rows)
    by apply dedupe_from_sublist.
  split.
  { intros x Hx. apply (collect_loaded field uuid4 0 rows).
    eapply elem_of_submseteq; [exact Hx|].
    apply sublist_submseteq. exact Hsub. }
  split; [apply dedupe_from_NoDup|].
  split.
  { etransitivity; [apply sublist_length; exact Hsub|].
    apply collect_length. }
  intros Hinj.
  apply (sublist_NoDup _ (map id (collect field uuid4 0 rows))).
  - apply collect_ids_NoDup. exact Hinj.
  - apply (fmap_sublist id). exact Hsub.
Qed.

Lemma loaders_loaded (uuid4 : nat -> string) (rows : list Row) (x : Lead) :
  x ∈ read_csv_leads uuid4 rows \/ x ∈ embedded_leads uuid4 rows ->
  loaded x.
Proof.
  intros [Hx|Hx].
  - exact (proj1 (loader_spec csv_field uuid4 rows) x Hx).
  - exact (proj1 (loader_spec get_or_empty uuid4 rows) x Hx).
Qed.

(** X3. Every lead returned by [read_csv_leads] or by [embedded_leads] has
    a name, a contact and a platform that are not empty, name and contact
    without blanks at either end, niche and platform in lower case, score 0
    and empty notes; the leads returned have pairwise distinct keys, are no
    more than the rows read, and have pairwise distinct ids when [uuid4]
    never repeats itself. *)
Theorem loaders_return_well_formed_leads (uuid4 : nat -> string)
    (rows : list Row) :
  (forall x, x ∈ read_csv_leads uuid4 rows \/ x ∈ embedded_leads uuid4 rows
             -> loaded x) /\
  NoDup (map key (read_csv_leads uuid4 rows)) /\
  NoDup (map key (embedded_leads uuid4 rows)) /\
  (length (read_csv_leads uuid4 rows) <= length rows)%nat /\
  (length (embedded_leads uuid4 rows) <= length rows)%nat /\
  ((forall i j, uuid4 i = uuid4 j -> i = j) ->
   NoDup (map id (read_csv_leads uuid4 rows)) /\
   NoDup (map id (embedded_leads uuid4 rows))).
Proof.
  destruct (loader_spec csv_field uuid4 rows) as (Hc1 & Hc2 & Hc3 & Hc4).
  destruct (loader_spec get_or_empty uuid4 rows)
    as (He1 & He2 & He3 & He4).
  split; [intros x [Hx|Hx]; [apply Hc1 | apply He1]; exact Hx|].
  repeat (split; [assumption|]).
  intros Hinj. split; [apply Hc4 | apply He4]; exact Hinj.
Qed.

(** The six embedded entries load as six leads. *)
Example embedded_leads_load :
  map (fun l => (name l, niche l, platform l))
      (embedded_leads (fun n => pretty (Z.of_nat n)) EMBEDDED_LEADS)
  = [("Al Noor Realty", "real estate", "email");
     ("Emaar Agent Team", "real estate", "linkedin");
     ("Taste of Dubai", "restaurant", "instagram");
     ("Marina Fitness JLT", "gym", "whatsapp");
     ("Glow Aesthetics Clinic", "clinic", "email");
     ("Prime Motors Deira", "auto", "instagram")].
Proof. vm_compute. reflexivity. Qed.

(** Rows that differ in case and outer blanks only are one lead; a row
    without a contact is dropped; the lower-case column names are read. *)
Example read_csv_leads_sample :
  map (fun l => (id l, name l, niche l, contact l, platform l))
      (read_csv_leads (fun n => pretty (Z.of_nat n))
         [entry "  Oasis Cafe " "Cafe" "oasis@cafe.ae" "Email";
          entry "OASIS CAFE" "cafe" " Oasis@Cafe.ae" "email";
          entry "No Contact" "gym" "   " "email";
          list_to_map [("name", "Dune Gym"); ("niche", "GYM");
                       ("contact", "@dunegym"); ("platform", "Instagram")]])
  = [("0", "Oasis Cafe", "cafe", "oasis@cafe.ae", "email");
     ("2", "Dune Gym", "gym", "@dunegym", "instagram")].
Proof. vm_compute. reflexivity. Qed.

(* ---- messages ---- *)

Lemma loaded_name_not_blank (x : Lead) :
  loaded x -> all_blank (name x) = false.
Proof.
  intros (Hn & _ & _ & Hs & _).
  destruct (strip_head (name x)) as [He|(c & r & Heq & Hc)].
  - rewrite Hs in He. contradiction.
  - rewrite Hs in Heq. rewrite Heq. simpl. rewrite Hc. reflexivity.
Qed.

(** X4. [whatsapp_template] raises [IndexError] exactly for a lead whose
    name is not empty but made of blanks only, and renders a text for every
    other lead; the leads that [read_csv_leads] and [embedded_leads] return
    are never of that kind. *)
Theorem whatsapp_template_raises_on_blank_name (lead : Lead)
    (city brand offer_text : string) :
  (whatsapp_template lead city brand offer_text = IndexError <->
   name lead <> EmptyString /\ all_blank (name lead) = true) /\
  (forall uuid4 rows,
      lead ∈ read_csv_leads uuid4 rows \/ lead ∈ embedded_leads uuid4 rows ->
      exists text, whatsapp_template lead city brand offer_text = Text text).
Proof.
  assert (Hiff : whatsapp_template lead city brand offer_text = IndexError
                 <-> name lead <> EmptyString
                     /\ all_blank (name lead) = true).
  { unfold whatsapp_template.
    destruct (PyStr.truthy (name lead)) eqn:Hn.
    - apply truthy_true in Hn.
      destruct (Py.split (name lead)) as [|first rest] eqn:Hsplit.
      + apply split_from_nil in Hsplit. tauto.
      + split; [discriminate|]. intros [_ Hb].
        assert (Py.split (name lead) = [])
          by (apply split_from_nil; tauto).
        congruence.
    - unfold PyStr.truthy in Hn. apply negb_false_iff in Hn.
      apply bool_decide_eq_true in Hn. split; [discriminate | tauto]. }
  split; [exact Hiff|].
  intros uuid4 rows Hin.
  pose proof (loaders_loaded uuid4 rows lead Hin) as Hl.
  destruct (whatsapp_template lead city brand offer_text) as [text|] eqn:Hw;
    [eauto|].
  exfalso. destruct (proj1 Hiff eq_refl) as [_ Hb].
  rewrite (loaded_name_not_blank lead Hl) in Hb. discriminate.
Qed.

(* ---- scoring ---- *)

Lemma get_at_most (d : gmap string Z) (k : string) (dflt hi : Z) :
  map_Forall (fun _ v => v <= hi) d -> dflt <= hi -> get d k dflt <= hi.
Proof.
  intros Hd Hdflt. unfold get.
  destruct (d !! k) as [v|] eqn:Hk; simpl.
  - exact (Hd k v Hk).
  - exact Hdflt.
Qed.

Lemma niche_weights_at_most_three :
  map_Forall (fun _ v => v <= 3) NICHE_WEIGHTS.
Proof.
  unfold NICHE_WEIGHTS. simpl.
  repeat (apply map_Forall_insert_2; [lia|]).
  apply map_Forall_empty.
Qed.

Lemma platform_weights_at_most_three :
  map_Forall (fun _ v => v <= 3) PLATFORM_WEIGHTS.
Proof.
  unfold PLATFORM_WEIGHTS. simpl.
  repeat (apply map_Forall_insert_2; [lia|]).
  apply map_Forall_empty.
Qed.

(** X5. For every lead, [qualify] gives a score of at most 9, and at most
    one of the four tags for the shape of the contact (valid_email,
    valid_phone, handle_ok, linkedin_url): the tag is chosen by the
    platform and a platform is one string. *)
Theorem qualify_score_at_most_nine (lead : Lead) (city : string) :
  score (qualify lead city) <= 9 /\
  (length (List.filter (fun t => mem t contact_tags)
                       (snd (qualify_acc lead))) <= 1)%nat.
Proof.
  unfold qualify; cbn [score]. unfold qualify_acc.
  pose proof (get_at_most NICHE_WEIGHTS (niche lead) 1 3
                niche_weights_at_most_three ltac:(lia)) as Hn.
  pose proof (get_at_most PLATFORM_WEIGHTS (platform lead) 1 3
                platform_weights_at_most_three ltac:(lia)) as Hp.
  set (wn := get NICHE_WEIGHTS (niche lead) 1) in *.
  set (wp := get PLATFORM_WEIGHTS (platform lead) 1) in *.
  set (e := Regex.search EMAIL_RE (contact lead)).
  set (ph := Regex.search PHONE_RE (contact lead)).
  set (ig := Regex.search_anchored IG_RE (contact lead)).
  set (li := PyStr.contains "linkedin.com" (contact lead)).
  set (v := bool_decide (niche lead ∈ VISUAL_NICHES)).
  assert (Hcase : platform lead = "email" \/ platform lead = "whatsapp" \/
                  platform lead = "instagram" \/ platform lead = "linkedin"
                  \/ (platform lead <> "email" /\ platform lead <> "whatsapp"
                      /\ platform lead <> "instagram"
                      /\ platform lead <> "linkedin")).
  { destruct (decide (platform lead = "email")); [tauto|].
    destruct (decide (platform lead = "whatsapp")); [tauto|].
    destruct (decide (platform lead = "instagram")); [tauto|].
    destruct (decide (platform lead = "linkedin")); tauto. }
  destruct Hcase as [H|[H|[H|[H|(H1 & H2 & H3 & H4)]]]];
    try rewrite H;
    repeat match goal with
      | |- context [bool_decide (?a = ?b)] =>
          first [ rewrite (bool_decide_eq_true_2 (a = b)) by reflexivity
                | rewrite (bool_decide_eq_false_2 (a = b))
                    by (assumption || discriminate) ]
      end;
    destruct e, ph, ig, li, v; unfold bonus; cbn [andb fst snd];
    (split; [lia | vm_compute; lia]).
Qed.

(* ---- filtering ---- *)

Lemma mem_In (x : string) (l : list string) : mem x l = true <-> In x l.
Proof.
  unfold mem. rewrite existsb_exists. split.
  - intros (y & Hy & Heq). apply bool_decide_eq_true in Heq. congruence.
  - intros Hin. exists x. split; [exact Hin|].
    apply bool_decide_eq_true. reflexivity.
Qed.

Lemma nonempty_false {A : Type} (l : list A) : nonempty l = false <-> l = [].
Proof. destruct l; simpl; split; congruence. Qed.

Lemma map_lower_nil (l : list string) : map lower l = [] <-> l = [].
Proof. destruct l; simpl; split; congruence. Qed.

Lemma apply_filters_test (cfg : Filters) (l : Lead) :
  (if nonempty (map lower (FILTER_NICHES cfg))
      && negb (mem (niche l) (map lower (FILTER_NICHES cfg)))
   then false
   else if nonempty (map lower (FILTER_PLATFORMS cfg))
           && negb (mem (platform l) (map lower (FILTER_PLATFORMS cfg)))
   then false else true) = true
  <-> passes cfg l.
Proof.
  unfold passes.
  pose proof (map_lower_nil (FILTER_NICHES cfg)) as Hn.
  pose proof (map_lower_nil (FILTER_PLATFORMS cfg)) as Hp.
  pose proof (nonempty_false (map lower (FILTER_NICHES cfg))) as Hn'.
  pose proof (nonempty_false (map lower (FILTER_PLATFORMS cfg))) as Hp'.
  pose proof (mem_In (niche l) (map lower (FILTER_NICHES cfg))) as Hmn.
  pose proof (mem_In (platform l) (map lower (FILTER_PLATFORMS cfg))) as Hmp.
  destruct (nonempty (map lower (FILTER_NICHES cfg)));
    destruct (mem (niche l) (map lower (FILTER_NICHES cfg)));
    destruct (nonempty (map lower (FILTER_PLATFORMS cfg)));
    destruct (mem (platform l) (map lower (FILTER_PLATFORMS cfg)));
    simpl; intuition (congruence || discriminate).
Qed.

(** X6. [apply_filters] keeps, in their order, exactly the leads whose
    niche is in the niche filter and whose platform is in the platform
    filter, an empty filter letting every lead through; the filter entries
    are compared in lower case and the lead's fields as they are.  With
    both filters empty the list comes back unchanged, and filtering twice
    is filtering once. *)
Theorem apply_filters_keeps_matching_leads (cfg : Filters)
    (leads : list Lead) :
  (forall x, In x (apply_filters cfg leads) <-> In x leads /\ passes cfg x) /\
  apply_filters cfg leads `sublist_of` leads /\
  (FILTER_NICHES cfg = [] -> FILTER_PLATFORMS cfg = [] ->
   apply_filters cfg leads = leads) /\
  apply_filters cfg (apply_filters cfg leads) = apply_filters cfg leads.
Proof.
  unfold apply_filters. cbn zeta.
  split.
  { intros x. rewrite filter_In, apply_filters_test. reflexivity. }
  split.
  { induction leads as [|l rest IH]; simpl; [constructor|].
    destruct (if nonempty (map lower (FILTER_NICHES cfg)) && _
              then false else _).
    - apply sublist_skip. exact IH.
    - apply sublist_cons. exact IH. }
  split.
  { intros Hn Hp. rewrite Hn, Hp. simpl.
    induction leads as [|l rest IH]; simpl; [reflexivity|].
    rewrite IH. reflexivity. }
  induction leads as [|l rest IH]; simpl; [reflexivity|].
  destruct (if nonempty (map lower (FILTER_NICHES cfg)) && _
            then false else _) eqn:Hl; [|exact IH].
  simpl. rewrite Hl, IH. reflexivity.
Qed.

(* ---- exporting ---- *)

Lemma insert_desc_perm (x : Lead) (l : list Lead) :
  insert_desc x l ≡ₚ x :: l.
Proof.
  induction l as [|y l IH]; simpl; [reflexivity|].
  destruct (Z.ltb (score x) (score y)); [|reflexivity].
  rewrite IH. apply Permutation_swap.
Qed.

Lemma insert_desc_descending (x : Lead) (l : list Lead) :
  descending l -> descending (insert_desc x l).
Proof.
  induction l as [|y l IH]; simpl; intros Hd.
  - split; [constructor | exact I].
  - destruct Hd as [Hy Hd].
    destruct (Z.ltb (score x) (score y)) eqn:Hlt; simpl.
    + apply Z.ltb_lt in Hlt. split; [|apply IH; exact Hd].
      rewrite (insert_desc_perm x l). constructor; [lia | exact Hy].
    + apply Z.ltb_ge in Hlt. split; [|split; assumption].
      constructor; [exact Hlt|].
      eapply Forall_impl; [exact Hy|]. simpl. intros z Hz. lia.
Qed.

(** Inserting a lead leaves it ahead of the leads of its score. *)
Lemma insert_desc_stable (v : Z) (x : Lead) (l : list Lead) :
  filter (fun y => score y = v) (insert_desc x l)
  = filter (fun y => score y = v) (x :: l).
Proof.
  induction l as [|y l IH]; simpl; [reflexivity|].
  destruct (Z.ltb (score x) (score y)) eqn:Hlt; [|reflexivity].
  apply Z.ltb_lt in Hlt.
  rewrite (filter_cons _ y), IH, !(filter_cons _ x), (filter_cons _ y).
  destruct (decide (score y = v)), (decide (score x = v));
    try reflexivity.
  lia.
Qed.

Lemma sorted_by_score_perm (leads : list Lead) :
  sorted_by_score leads ≡ₚ leads.
Proof.
  unfold sorted_by_score. induction leads as [|x l IH]; simpl;
    [reflexivity|].
  rewrite insert_desc_perm, IH. reflexivity.
Qed.

(** X7. [export_scored_csv] writes the header and then one row for each
    lead, each lead once, by score from the highest down, leads of equal
    score in the order they were given. *)
Theorem export_scored_csv_sorts_by_score (leads : list Lead) :
  export_scored_csv leads
  = ["ID"; "Name"; "Niche"; "Contact"; "Platform"; "Score"; "Notes"]
    :: map (fun l => [id l; name l; niche l; contact l; platform l;
                      pretty (score l); notes l])
           (sorted_by_score leads) /\
  length (export_scored_csv leads) = S (length leads) /\
  sorted_by_score leads ≡ₚ leads /\
  descending (sorted_by_score leads) /\
  (forall v, filter (fun y => score y = v) (sorted_by_score leads)
             = filter (fun y => score y = v) leads).
Proof.
  split; [reflexivity|]. split.
  { unfold export_scored_csv. simpl. rewrite length_map.
    f_equal. apply Permutation_length, sorted_by_score_perm. }
  split; [apply sorted_by_score_perm|]. split.
  - unfold sorted_by_score. induction leads as [|x l IH]; simpl;
      [exact I|].
    apply insert_desc_descending, IH.
  - intros v. unfold sorted_by_score.
    induction leads as [|x l IH]; simpl; [reflexivity|].
    rewrite insert_desc_stable, !filter_cons, IH. reflexivity.
Qed.

(** Four leads with two scores: the higher score first, ties as given. *)
Example export_scored_csv_sample :
  map (fun r => (r !! 1%nat, r !! 5%nat))
      (export_scored_csv
         [mkLead "1" "A" "gym" "a" "email" 6 EmptyString;
          mkLead "2" "B" "gym" "b" "email" 8 EmptyString;
          mkLead "3" "C" "gym" "c" "email" 6 EmptyString;
          mkLead "4" "D" "gym" "d" "email" 8 EmptyString])
  = [(Some "Name", Some "Score"); (Some "B", Some "8"); (Some "D", Some "8");
     (Some "A", Some "6"); (Some "C", Some "6")].
Proof. vm_compute. reflexivity. Qed.

(* ---- directory names ---- *)

Lemma hyphenate_safe (in_run : bool) (s : string) :
  slug_safe (hyphenate in_run s) = true.
Proof.
  revert in_run. induction s as [|c s IH]; intros in_run; simpl;
    [reflexivity|].
  destruct (slug_char c) eqn:Hc; simpl.
  - rewrite Hc, IH. reflexivity.
  - destruct in_run; [apply IH|].
    change (slug_safe (String "-" (hyphenate true s)))
      with ((slug_char "-" || bool_decide ("-"%char = "-"%char))
            && slug_safe (hyphenate true s)).
    rewrite IH. reflexivity.
Qed.

Lemma prefix_safe (n : nat) (s : string) :
  slug_safe s = true -> slug_safe (prefix n s) = true.
Proof.
  revert s. induction n as [|n IH]; intros s; [reflexivity|].
  destruct s as [|c s]; simpl; [reflexivity|].
  intros H. apply andb_true_iff in H. destruct H as [Hc Hs].
  rewrite Hc, (IH s Hs). reflexivity.
Qed.

Lemma prefix_length (n : nat) (s : string) :
  (String.length (prefix n s) <= n)%nat.
Proof.
  revert s. induction n as [|n IH]; intros s; simpl; [lia|].
  destruct s as [|c s]; simpl; [lia|]. specialize (IH s). lia.
Qed.

(** X8. The directory name [export_outreach_pack] makes of a lead's name
    is never empty, is at most 40 characters long, and has lower-case
    letters, digits and hyphens only: no dot, slash or blank, whatever the
    name. *)
Theorem slug_is_a_safe_name (nm : string) :
  slug nm <> EmptyString /\
  (String.length (slug nm) <= 40)%nat /\
  slug_safe (slug nm) = true.
Proof.
  unfold slug. split; [|split].
  - assert (Hne : (if PyStr.truthy nm then nm else "lead") <> EmptyString).
    { destruct (PyStr.truthy nm) eqn:Hn; [|discriminate].
      apply truthy_true. exact Hn. }
    destruct (if PyStr.truthy nm then nm else "lead") as [|c s];
      [contradiction|].
    simpl. destruct (slug_char (lower_char c)); discriminate.
  - apply prefix_length.
  - apply prefix_safe, hyphenate_safe.
Qed.

(** Names that differ in case or punctuation only share a directory. *)
Example slug_samples :
  slug "Al Noor Realty" = "al-noor-realty" /\
  slug "AL NOOR -- realty" = "al-noor-realty" /\
  slug "../../etc/passwd" = "-etc-passwd" /\
  slug EmptyString = "lead" /\
  slug "Glow Aesthetics Clinic and Wellness Centre, Dubai Marina"
  = "glow-aesthetics-clinic-and-wellness-cent".
Proof. vm_compute. repeat split; reflexivity. Qed.

End AgentLeadsSpec.

(* ===================================================================== *)
(* Further properties of src/mian.py                                      *)
(* ===================================================================== *)
Module LeadGenMoreSpec.
Import Py LeadGen LeadGenExport Samples LeadGenSpec.

(** Both modes of [send_all] leave the tables as the per-message updates
    of its snapshot leave them. *)
Lemma send_all_dispatched (E : Env) (cfg : Config) (dry_run : bool)
    (w : World) :
  exists n cs w',
    send_all E cfg dry_run w = (Ok n, w') /\
    length cs = length (drafts w) /\
    (dry_run = true ->
     cs = repeat simulated (length (drafts w)) /\ calls w' = calls w /\
     n = Z.of_nat (length (drafts w))) /\
    dispatched (drafts w) cs (tables w) (tables w').
Proof.
  destruct dry_run.
  - set (w0 := {| leads := leads w; outreach := outreach w;
                  clock := (clock w + elapse E (ticks w))%Q;
                  ticks := S (ticks w); uuids := uuids w;
                  calls := calls w |}).
    assert (Hfetch : fetchall E drafts w = (Ok (drafts w), w0))
      by reflexivity.
    destruct (send_loop_dry_run E cfg (drafts w) 0 0%Q w0)
      as (w' & Hrun & Hcalls & Hd).
    exists (Z.of_nat (length (drafts w))),
           (repeat simulated (length (drafts w))), w'.
    split.
    { unfold send_all. unfold bind at 1. rewrite Hfetch.
      unfold bind at 1. rewrite Hrun. reflexivity. }
    split; [apply repeat_length|]. split; [|exact Hd].
    intros _. split; [reflexivity|]. split; [exact Hcalls | reflexivity].
  - destruct (send_all_run E cfg w) as (cs & w' & Hrun & _ & Haddr & Hd & _).
    exists (count_succeeded cs), cs, w'.
    split; [exact Hrun|].
    split; [symmetry; apply (Forall2_length _ _ _ Haddr)|].
    split; [discriminate | exact Hd].
Qed.

(* ---- what every command keeps ---- *)

Section Steps.
Variable R : World -> World -> Prop.
Hypothesis R_refl : forall w, R w w.
Hypothesis R_trans : forall w1 w2 w3, R w1 w2 -> R w2 w3 -> R w1 w3.
Hypothesis R_tables :
  forall w w', leads w' = leads w -> outreach w' = outreach w -> R w w'.
Hypothesis R_upsert :
  forall lead c u w, R w (set_leads (insert_or_update lead c u) w).
Hypothesis R_stage :
  forall st t i w, st <> "NEW" -> R w (set_leads (update_stage st t i) w).
Hypothesis R_outreach :
  forall st t mid i w, R w (set_outreach (update_outreach st t mid i) w).

Lemma step_bind {A B : Type} (m : M A) (k : A -> M B) :
  (forall w, R w (after m w)) -> (forall a w, R w (after (k a) w)) ->
  forall w, R w (after (bind m k) w).
Proof.
  intros Hm Hk w. unfold after, bind. specialize (Hm w). unfold after in Hm.
  destruct (m w) as [[a|e] w1]; simpl in *; [|exact Hm].
  apply (R_trans _ w1); [exact Hm | apply (Hk a w1)].
Qed.

Lemma step_for_each {A S : Type} (body : A -> S -> M S) (l : list A) :
  (forall x s w, R w (after (body x s) w)) ->
  forall s w, R w (after (for_each l body s) w).
Proof.
  intros Hbody. induction l as [|x l IH]; intros s w; simpl.
  - apply R_refl.
  - apply step_bind; [apply Hbody | exact IH].
Qed.

Lemma step_set_stage (E : Env) (i st : string) (w : World) :
  st <> "NEW" -> R w (after (set_stage E i st) w).
Proof.
  intros Hst. unfold after. rewrite set_stage_run. simpl.
  apply (R_trans _ (set_leads (update_stage st (now_at E w) i) w));
    [apply R_stage; exact Hst | apply R_tables; reflexivity].
Qed.

Lemma step_upsert_lead (E : Env) (lead : Lead) (w : World) :
  R w (after (upsert_lead E lead) w).
Proof.
  unfold after. rewrite upsert_lead_run. simpl.
  apply (R_trans _ (set_leads (insert_or_update lead (now_at E w)
                                 (upsert_time E w)) w));
    [apply R_upsert | apply R_tables; reflexivity].
Qed.

Lemma step_dispatch (r : Draft) (c : Call) (t1 t2 : Z) (T : Tables) :
  R (world_of T) (world_of (dispatch r c t1 t2 T)).
Proof.
  unfold dispatch.
  apply (R_trans _ (set_outreach
                      (update_outreach
                         (if succeeded c then "SENT" else "ERROR") t1
                         (mid_of c) (oid r)) (world_of T)));
    [apply R_outreach|].
  destruct (succeeded c).
  - apply (R_trans _ (set_leads (update_stage "CONTACTED" t2 (lid r))
                        (set_outreach
                           (update_outreach "SENT" t1 (mid_of c) (oid r))
                           (world_of T))));
      [apply R_stage; discriminate | apply R_tables; reflexivity].
  - apply R_tables; reflexivity.
Qed.

Lemma step_dispatched (rows : list Draft) (cs : list Call) (T T' : Tables) :
  dispatched rows cs T T' -> R (world_of T) (world_of T').
Proof.
  induction 1 as [T|r c t1 t2 rows cs T T' _ IH]; [apply R_refl|].
  apply (R_trans _ (world_of (dispatch r c t1 t2 T)));
    [apply step_dispatch | exact IH].
Qed.

Lemma step_send_all (E : Env) (cfg : Config) (dry_run : bool) (w : World) :
  R w (after (send_all E cfg dry_run) w).
Proof.
  destruct (send_all_dispatched E cfg dry_run w)
    as (n & cs & w' & Hrun & _ & _ & Hd).
  unfold after. rewrite Hrun. simpl.
  apply (R_trans _ (world_of (tables w))); [apply R_tables; reflexivity|].
  apply (R_trans _ (world_of (tables w'))); [|apply R_tables; reflexivity].
  apply (step_dispatched _ _ _ _ Hd).
Qed.

Lemma step_qualify_all (E : Env) (a : Q) (b c : Z) (w : World) :
  R w (after (qualify_all E a b c) w).
Proof.
  revert w. unfold qualify_all. apply step_bind.
  - intros w. apply R_tables; reflexivity.
  - intros rows. apply step_for_each. intros x s. cbn zeta.
    destruct (Z.leb c (fst (rule_based_score (from_row x) a b)));
      (apply step_bind;
       [intros w; apply step_set_stage; discriminate
       |intros _ w; apply R_refl]).
Qed.

Lemma step_cmd_search (E : Env) (results : list Item) (limit : nat)
    (w : World) :
  R w (after (cmd_search E results limit) w).
Proof.
  revert w. unfold cmd_search, search_serpapi. apply step_bind.
  - apply step_for_each. intros item out. apply step_bind.
    + intros w. apply R_tables; reflexivity.
    + intros lid w. apply R_refl.
  - intros found. apply step_for_each. intros lead _.
    apply step_upsert_lead.
Qed.

Lemma step_run (E : Env) (cfg : Config) (c : command) (w : World) :
  R w (after (run E cfg c) w).
Proof.
  revert w.
  destruct c as [results limit|a b c|offer|dry_run]; simpl.
  - apply step_cmd_search.
  - unfold cmd_qualify. apply step_bind.
    + apply step_qualify_all.
    + intros _ w. apply R_refl.
  - unfold cmd_draft_emails. apply step_bind.
    + intros w. unfold after. rewrite draft_emails_run. simpl.
      apply R_tables; reflexivity.
    + intros _ w. apply R_refl.
  - unfold cmd_send_emails. apply step_bind.
    + apply step_send_all.
    + intros _ w. apply R_refl.
Qed.

Lemma step_run_all (E : Env) (cfg : Config) (cmds : list command)
    (w : World) :
  R w (run_all E cfg cmds w).
Proof.
  revert w. induction cmds as [|c cmds IH]; intros w; simpl.
  - apply R_refl.
  - apply (R_trans _ (after (run E cfg c) w)); [apply step_run | apply IH].
Qed.

End Steps.

(* ---- the primary keys ---- *)

Lemma NoDup_insert_or_replace (m : Outreach.row)
    (rows : list Outreach.row) :
  NoDup (map Outreach.id rows) ->
  NoDup (map Outreach.id (insert_or_replace m rows)).
Proof.
  intros Hnd. unfold insert_or_replace. rewrite map_app. simpl.
  apply NoDup_app. split; [|split].
  - apply (sublist_NoDup _ (map Outreach.id rows)); [exact Hnd|].
    apply (fmap_sublist Outreach.id), sublist_filter.
  - intros x Hx Hx'. apply list_elem_of_In in Hx'. simpl in Hx'.
    destruct Hx' as [<-|[]].
    apply list_elem_of_fmap in Hx. destruct Hx as (o & Ho & Hin).
    apply list_elem_of_filter in Hin. destruct Hin as [Hne _].
    congruence.
  - apply NoDup_singleton.
Qed.

(** X9. The primary keys are an invariant of the program: from a store in
    which no two leads and no two messages share an id, every sequence of
    commands (search, qualify, draft, send) leads to such a store; so does
    an [INSERT OR REPLACE] into the outreach table. *)
Theorem commands_keep_keys_unique (E : Env) (cfg : Config)
    (cmds : list command) (w : World) (Hkeys : keys_unique w) :
  keys_unique (run_all E cfg cmds w) /\
  (forall m, NoDup (map Outreach.id (insert_or_replace m (outreach w)))).
Proof.
  split; [|intros m; apply NoDup_insert_or_replace; exact (proj2 Hkeys)].
  revert Hkeys.
  apply (step_run_all keeps_keys); unfold keeps_keys, keys_unique,
    lead_ids, outreach_ids; simpl.
  - tauto.
  - tauto.
  - intros w1 w2 -> ->. tauto.
  - intros lead c u w1 [Hl Ho]. split; [|exact Ho].
    apply NoDup_insert_or_update. exact Hl.
  - intros st t i w1 _ [Hl Ho]. split; [|exact Ho].
    rewrite lead_ids_update_stage. exact Hl.
  - intros st t mid i w1 [Hl Ho]. split; [exact Hl|].
    rewrite ids_update_outreach. exact Ho.
Qed.

Lemma commands_keep_keys_unique_witness :
  keys_unique with_drafts /\
  keys_unique
    (run_all env configured
       [Search [dentist] 10%nat; Qualify (38 # 10) 5 3; SendEmails false]
       with_drafts).
Proof.
  assert (Hkeys : keys_unique with_drafts)
    by (split; apply (bool_decide_unpack _); vm_compute; exact I).
  split; [exact Hkeys|].
  exact (proj1 (commands_keep_keys_unique env configured _ with_drafts
                  Hkeys)).
Defined.

(* ---- leads are never removed ---- *)

Lemma extends_refl (w : World) : extends w w.
Proof.
  exists (leads w), []. split; [rewrite app_nil_r; reflexivity|].
  apply Forall2_same_length_lookup. split; [reflexivity|].
  intros i x y Hx Hy. rewrite Hx in Hy. inversion Hy. tauto.
Qed.

Lemma extends_trans (w1 w2 w3 : World) :
  extends w1 w2 -> extends w2 w3 -> extends w1 w3.
Proof.
  intros (k1 & a1 & H1 & F1) (k2 & a2 & H2 & F2).
  rewrite H1 in F2. apply Forall2_app_inv_l in F2.
  destruct F2 as (k2a & k2b & Fa & Fb & ->).
  exists k2a, (k2b ++ a2). split; [rewrite H2, app_assoc; reflexivity|].
  clear - F1 Fa. revert k2a Fa.
  induction F1 as [|x y l l' [Hid Hc] _ IH]; intros k2a Fa.
  - apply Forall2_nil_inv_l in Fa. subst. constructor.
  - apply Forall2_cons_inv_l in Fa.
    destruct Fa as (z & k' & [Hid' Hc'] & Fa & ->).
    constructor; [split; congruence | apply IH; exact Fa].
Qed.

Lemma extends_map (f : LeadRow -> LeadRow) (w : World) :
  (forall r, id (from_row (f r)) = id (from_row r)
             /\ created_at (f r) = created_at r) ->
  extends w (set_leads (map f) w).
Proof.
  intros Hf. exists (map f (leads w)), [].
  split; [simpl; rewrite app_nil_r; reflexivity|].
  induction (leads w) as [|r rows IH]; simpl; constructor;
    [apply Hf | exact IH].
Qed.

(** X10. No command removes a lead, moves it, or changes its id or its
    creation time: after any sequence of commands the rows the leads table
    had are still there, in place, each with its id and [created_at],
    possibly followed by new rows. *)
Theorem commands_never_remove_leads (E : Env) (cfg : Config)
    (cmds : list command) (w : World) :
  extends w (run_all E cfg cmds w).
Proof.
  apply (step_run_all extends).
  - apply extends_refl.
  - apply extends_trans.
  - intros w1 w2 Hl _. exists (leads w2), [].
    split; [rewrite app_nil_r; reflexivity|]. rewrite Hl.
    apply Forall2_same_length_lookup. split; [reflexivity|].
    intros i x y Hx Hy. rewrite Hx in Hy. inversion Hy. tauto.
  - intros lead c u w1. unfold extends, set_leads, insert_or_update. simpl.
    destruct (existsb (has_id (id lead)) (leads w1)).
    + apply (extends_map
               (fun r => if has_id (id lead) r then do_update lead u r
                         else r) w1).
      intros r. destruct (has_id (id lead) r); simpl; tauto.
    + exists (leads w1), [ {| from_row := lead; created_at := c;
                             updated_at := u |} ].
      split; [reflexivity|].
      apply Forall2_same_length_lookup. split; [reflexivity|].
      intros i x y Hx Hy. rewrite Hx in Hy. inversion Hy. tauto.
  - intros st t i w1 _. unfold update_stage. apply extends_map.
    intros r. destruct (has_id i r); simpl; tauto.
  - intros st t mid i w1. exists (leads w1), [].
    split; [simpl; rewrite app_nil_r; reflexivity|].
    apply Forall2_same_length_lookup. split; [reflexivity|].
    intros j x y Hx Hy. rewrite Hx in Hy. inversion Hy. tauto.
Qed.

(* ---- the stage never goes back ---- *)

(** X11. No command puts a lead back to NEW: a lead that is found by its
    id with a stage other than NEW is still found, with a stage other than
    NEW, after any sequence of commands.  (NEW is written only by the
    insertion of a lead under a new id.) *)
Theorem commands_never_reset_stage (E : Env) (cfg : Config)
    (cmds : list command) (w : World) :
  not_renewed w (run_all E cfg cmds w).
Proof.
  apply (step_run_all not_renewed); unfold not_renewed, find_lead.
  - intros w1 i r Hr Hst. eauto.
  - intros w1 w2 w3 H12 H23 i r Hr Hst.
    destruct (H12 i r Hr Hst) as (r2 & Hr2 & Hst2).
    exact (H23 i r2 Hr2 Hst2).
  - intros w1 w2 Hl _ i r Hr Hst. rewrite Hl. eauto.
  - intros lead c u w1 i r Hr Hst. simpl.
    destruct (decide (i = id lead)) as [->|Hne].
    + rewrite find_insert_or_update_same, Hr. eexists. split; [reflexivity|].
      exact Hst.
    + rewrite find_insert_or_update_other by exact Hne. eauto.
  - intros st t j w1 Hnew i r Hr Hst. simpl.
    destruct (decide (i = j)) as [->|Hne].
    + rewrite find_update_stage_same, Hr. simpl.
      eexists. split; [reflexivity|]. exact Hnew.
    + rewrite find_update_stage_other by exact Hne. eauto.
  - intros st t mid j w1 i r Hr Hst. simpl. eauto.
Qed.

(* ---- scoring ---- *)

(** X12. [rule_based_score] gives between 0 and 6 points; an email address
    and a website are worth 3 together, whatever the rating and the
    reviews, and a lead without an email address gets 4 at most.  Its
    notes hold the rating of every lead that has one, even below
    [min_rating], but the review count only when it reaches
    [min_reviews]. *)
Theorem rule_based_score_bounds (lead : Lead) (min_rating : Q)
    (min_reviews : Z) :
  let score := fst (rule_based_score lead min_rating min_reviews) in
  let notes := snd (rule_based_score lead min_rating min_reviews) in
  0 <= score <= 6 /\
  (PyStr.truthy_opt (email lead) = true ->
   PyStr.truthy_opt (website lead) = true -> 3 <= score) /\
  (PyStr.truthy_opt (email lead) = false -> score <= 4) /\
  notes !! "rating" = rating lead /\
  notes !! "reviews" =
    match review_count lead with
    | Some n => if Z.leb min_reviews n then Some (inject_Z n) else None
    | None => None
    end.
Proof.
  unfold rule_based_score.
  destruct (rating lead) as [r|]; destruct (review_count lead) as [n|];
    try destruct (Qle_bool min_rating r);
    try destruct (Z.leb min_reviews n);
    destruct (PyStr.truthy_opt (website lead));
    destruct (PyStr.truthy_opt (email lead));
    cbn zeta; cbn [fst snd];
    (split; [lia|]); (split; [intros; (lia || discriminate)|]);
    (split; [intros; (lia || discriminate)|]);
    split; reflexivity.
Qed.

(* ---- inserting ---- *)

Lemma find_app_new (i : string) (rows : list LeadRow) (r : LeadRow) :
  ~ In i (map (fun r => id (from_row r)) rows) ->
  id (from_row r) = i ->
  find (has_id i) (rows ++ [r]) = Some r.
Proof.
  intros Hout Hid. induction rows as [|x rows IH]; simpl.
  - unfold has_id. rewrite bool_decide_eq_true_2 by exact Hid. reflexivity.
  - simpl in Hout. destruct (has_id i x) eqn:Hx.
    + apply has_id_true in Hx. tauto.
    + apply IH. tauto.
Qed.

(** X13. Upserting a lead under an id the store does not have appends one
    row that holds the lead exactly as given, its stage included (it is not
    reset to NEW), with both timestamps taken from the clock, and a read by
    that id returns this row; with a clock that does not run backwards
    [created_at] is not after [updated_at]. *)
Theorem upsert_lead_inserts_as_given (E : Env) (lead : Lead) (w : World)
    (Hnew : ~ In (id lead) (lead_ids w)) :
  let w' := after (upsert_lead E lead) w in
  let r := {| from_row := lead; created_at := now_at E w;
              updated_at := upsert_time E w |} in
  leads w' = leads w ++ [r] /\
  find_lead (id lead) w' = Some r /\
  (forall j, j <> id lead -> find_lead j w' = find_lead j w) /\
  (steady E -> created_at r <= updated_at r).
Proof.
  intros w' r. subst w'. unfold after. rewrite upsert_lead_run. simpl.
  unfold find_lead, lead_ids in *. simpl.
  assert (Hex : existsb (has_id (id lead)) (leads w) = false).
  { destruct (existsb (has_id (id lead)) (leads w)) eqn:Hex;
      [|reflexivity].
    apply existsb_has_id_In in Hex. contradiction. }
  assert (Hrows : insert_or_update lead (now_at E w) (upsert_time E w)
                    (leads w) = leads w ++ [r]).
  { unfold insert_or_update. rewrite Hex. reflexivity. }
  rewrite Hrows.
  split; [reflexivity|]. split; [apply find_app_new; [exact Hnew|reflexivity]|].
  split.
  - intros j Hj. rewrite <- Hrows. apply find_insert_or_update_other.
    exact Hj.
  - intros Hs. unfold r, now_at, upsert_time. simpl.
    apply int_of_mono. pose proof (Hs (S (ticks w))). lra.
Qed.

Lemma upsert_lead_inserts_as_given_witness :
  ~ In (id oak) (lead_ids empty_world) /\
  leads (after (upsert_lead env oak) empty_world)
  = [ {| from_row := oak; created_at := now_at env empty_world;
         updated_at := upsert_time env empty_world |} ].
Proof.
  assert (Hnew : ~ In (id oak) (lead_ids empty_world)) by (intros []).
  split; [exact Hnew|].
  exact (proj1 (upsert_lead_inserts_as_given env oak empty_world Hnew)).
Defined.

(* ---- drafting ---- *)

(** X14. The draft step on a stage none of whose leads has an email
    address returns 0; on a stage with such a lead it raises the
    [KeyError] of the renderer at the first of them.  Either way it leaves
    both tables as they were, takes no identifier and sends nothing. *)
Theorem draft_emails_outcome (E : Env) (cfg : Config) (st offer : string)
    (w : World) :
  let has_email := fun r => PyStr.truthy_opt (email (from_row r)) in
  let w' := after (draft_emails_for_stage E cfg st offer) w in
  (Forall (fun r => has_email r = false) (leads_at st w) ->
   fst (draft_emails_for_stage E cfg st offer w) = Ok 0) /\
  (Exists (fun r => has_email r = true) (leads_at st w) ->
   fst (draft_emails_for_stage E cfg st offer w)
   = Raise (KeyError "first_name or 'there'")) /\
  leads w' = leads w /\ outreach w' = outreach w /\
  uuids w' = uuids w /\ calls w' = calls w.
Proof.
  intros has_email w'. subst w'. unfold after.
  rewrite draft_emails_run. simpl.
  split; [|split; [|tauto]].
  - intros Hall.
    destruct (existsb _ (leads_at st w)) eqn:Hex; [|reflexivity].
    apply existsb_exists in Hex. destruct Hex as (r & Hr & He).
    rewrite Forall_forall in Hall.
    apply list_elem_of_In in Hr. specialize (Hall r Hr).
    unfold has_email in Hall. congruence.
  - intros Hex. apply Exists_exists in Hex. destruct Hex as (r & Hr & He).
    assert (Hb : existsb
                   (fun r => PyStr.truthy_opt (email (from_row r)))
                   (leads_at st w) = true).
    { apply existsb_exists. exists r. split; [|exact He].
      apply list_elem_of_In. exact Hr. }
    rewrite Hb. reflexivity.
Qed.

(* ---- dry runs ---- *)

Lemma lookup_repeat_simulated (n k : nat) (c : Call) :
  repeat simulated n !! k = Some c -> c = simulated.
Proof.
  intros H. apply list_elem_of_lookup_2, list_elem_of_In, repeat_spec in H.
  exact H.
Qed.

(** X15. A dry run is not free of effects on the store.  In a store with
    unique keys, [send_all] in dry-run mode makes no call of [send_email]
    and returns the number of messages of its snapshot, but it writes the
    tables as if every send had succeeded: each message of the snapshot
    ends SENT with no provider id, and its lead ends CONTACTED. *)
Theorem send_all_dry_run_writes (E : Env) (cfg : Config) (w : World)
    (Hkeys : keys_unique w) :
  let w' := after (send_all E cfg true) w in
  fst (send_all E cfg true w) = Ok (Z.of_nat (length (drafts w))) /\
  calls w' = calls w /\
  (forall r, In r (drafts w) ->
     (exists o, find_message (oid r) w' = Some o /\
                Outreach.status o = "SENT" /\
                Outreach.message_id o = None /\
                is_Some (Outreach.sent_at o)) /\
     (exists l, find_lead (lid r) w' = Some l /\
                stage (from_row l) = "CONTACTED")).
Proof.
  intros w'. subst w'. unfold after.
  destruct (send_all_dispatched E cfg true w)
    as (n & cs & w' & Hrun & Hlen & Hdry & Hd).
  destruct (Hdry eq_refl) as (Hcs & Hcalls & Hn).
  rewrite Hrun. simpl. subst n.
  split; [reflexivity|]. split; [exact Hcalls|].
  intros r Hr.
  apply list_elem_of_In, list_elem_of_lookup in Hr. destruct Hr as [k Hk].
  destruct (cs !! k) as [c|] eqn:Hc.
  2: { apply lookup_ge_None in Hc. apply lookup_lt_Some in Hk. lia. }
  assert (c = simulated)
    by (rewrite Hcs in Hc; exact (lookup_repeat_simulated _ _ _ Hc)).
  subst c. split.
  - destruct (dispatched_message _ _ _ _ Hd (drafts_NoDup w Hkeys))
      with (k := k) (r := r) (c := simulated)
      as (o0 & o & _ & Ho & Hst & Hmid & Hsent & _); try assumption.
    { intros r' Hr'. apply (drafts_in_tables w r' Hr'). }
    exists o. unfold find_message. tauto.
  - apply (dispatched_lead_contacted _ _ _ _ Hd) with (k := k)
      (c := simulated); try assumption; [|reflexivity].
    intros r' Hr'. apply (drafts_in_tables w r' Hr').
Qed.

Lemma send_all_dry_run_writes_witness :
  keys_unique with_drafts /\
  fst (send_all env unconfigured true with_drafts) = Ok 3 /\
  calls (after (send_all env unconfigured true) with_drafts) = [].
Proof.
  assert (Hkeys : keys_unique with_drafts)
    by (split; apply (bool_decide_unpack _); vm_compute; exact I).
  split; [exact Hkeys|].
  pose proof (send_all_dry_run_writes env unconfigured with_drafts Hkeys)
    as H.
  split; [exact (proj1 H) | exact (proj1 (proj2 H))].
Defined.

(* ---- nothing is sent twice ---- *)

(** What a run makes of a message: a terminal status if the message is in
    the snapshot, nothing otherwise. *)
Lemma dispatched_rows (rows : list Draft) (cs : list Call) (T T' : Tables) :
  dispatched rows cs T T' ->
  Forall2
    (fun o o' =>
       (In (Outreach.id o) (map oid rows) -> Outreach.status o' <> "DRAFT")
       /\ (~ In (Outreach.id o) (map oid rows) -> o' = o))
    (snd T) (snd T').
Proof.
  induction 1 as [T|r c t1 t2 rows cs T T' _ IH].
  - apply Forall2_same_length_lookup. split; [reflexivity|].
    intros i x y Hx Hy. rewrite Hx in Hy. inversion Hy. subst y.
    split; [intros [] | reflexivity].
  - unfold dispatch in IH. simpl in IH. unfold update_outreach in IH.
    apply Forall2_fmap_l in IH.
    eapply Forall2_impl; [exact IH|]. clear IH.
    intros o o' [Hin Hout]. simpl in *.
    destruct (has_oid (oid r) o) eqn:Ho; simpl in *.
    + apply has_oid_true in Ho. split; [|intros Hn; exfalso; apply Hn; left;
                                          congruence].
      intros _.
      destruct (in_dec string_dec (Outreach.id o) (map oid rows))
        as [Hi|Hi]; [exact (Hin Hi)|].
      rewrite (Hout Hi). simpl. destruct (succeeded c); discriminate.
    + assert (Hne : oid r <> Outreach.id o).
      { intros Heq. apply has_oid_true in Heq || idtac.
        unfold has_oid in Ho. apply bool_decide_eq_false in Ho.
        congruence. }
      split.
      * intros [Heq|Hi]; [contradiction | exact (Hin Hi)].
      * intros Hn. apply Hout. tauto.
Qed.

Lemma filter_by_id_nil (j : string) (rows rows' : list LeadRow) :
  map (fun l => id (from_row l)) rows' = map (fun l => id (from_row l)) rows ->
  filter (fun l => id (from_row l) = j) rows = [] ->
  filter (fun l => id (from_row l) = j) rows' = [].
Proof.
  revert rows'. induction rows as [|r rows IH]; intros rows' Hids Hnil.
  - destruct rows'; [reflexivity | discriminate].
  - destruct rows' as [|r' rows']; [discriminate|].
    simpl in Hids. inversion Hids as [[Hid Hrest]].
    rewrite filter_cons in Hnil. rewrite filter_cons.
    destruct (decide (id (from_row r) = j)) as [|Hne]; [discriminate|].
    destruct (decide (id (from_row r') = j)); [congruence|].
    apply IH; assumption.
Qed.

(** A DRAFT message with a lead is in the snapshot. *)
Lemma draft_in_snapshot (w : World) (o : Outreach.row) :
  In o (outreach w) -> Outreach.status o = "DRAFT" ->
  filter (fun l => id (from_row l) = Outreach.lead_id o) (leads w) <> [] ->
  In (Outreach.id o) (map oid (drafts w)).
Proof.
  intros Ho Hst Hl. unfold drafts.
  destruct (filter (fun l => id (from_row l) = Outreach.lead_id o)
                   (leads w)) as [|l ls] eqn:Hf; [contradiction|].
  apply in_map_iff.
  exists {| oid := Outreach.id o; d_subject := Outreach.subject o;
            d_body := Outreach.body o; d_email := email (from_row l);
            lid := id (from_row l) |}.
  split; [reflexivity|].
  apply in_flat_map. exists o. split; [exact Ho|].
  rewrite bool_decide_eq_true_2 by exact Hst. rewrite Hf. left. reflexivity.
Qed.

Lemma drafts_after_dispatch (w w' : World) (cs : list Call) :
  dispatched (drafts w) cs (tables w) (tables w') -> drafts w' = [].
Proof.
  intros Hd.
  pose proof (proj1 (dispatched_ids _ _ _ _ Hd)) as Hids.
  pose proof (dispatched_rows _ _ _ _ Hd) as Hrows.
  unfold tables in *. simpl in *. unfold drafts.
  assert (Hall : forall o', In o' (outreach w') ->
            Outreach.status o' = "DRAFT" ->
            filter (fun l => id (from_row l) = Outreach.lead_id o')
                   (leads w') = []).
  { intros o' Ho' Hst.
    apply list_elem_of_In, list_elem_of_lookup in Ho'.
    destruct Ho' as [k Hk].
    destruct (Forall2_lookup_r _ _ _ _ _ Hrows Hk)
      as (o & Hko & Hin & Hout).
    destruct (in_dec string_dec (Outreach.id o) (map oid (drafts w)))
      as [Hi|Hi]; [exfalso; exact (Hin Hi Hst)|].
    rewrite (Hout Hi) in *.
    apply (filter_by_id_nil _ (leads w) (leads w') Hids).
    destruct (filter (fun l => id (from_row l) = Outreach.lead_id o)
                     (leads w)) as [|l ls] eqn:Hf; [reflexivity|].
    exfalso. apply Hi. apply draft_in_snapshot; [|exact Hst|].
    - apply list_elem_of_In, list_elem_of_lookup. eauto.
    - rewrite Hf. discriminate. }
  clear Hrows Hids Hd. revert Hall.
  generalize (outreach w'). intros outs.
  induction outs as [|o' outs IH]; intros Hall; [reflexivity|].
  simpl.
  destruct (bool_decide (Outreach.status o' = "DRAFT")) eqn:Hst.
  - apply bool_decide_eq_true in Hst.
    rewrite (Hall o' (or_introl eq_refl) Hst). simpl.
    apply IH. intros o Ho. apply Hall. right. exact Ho.
  - simpl. apply IH. intros o Ho. apply Hall. right. exact Ho.
Qed.

(** With no DRAFT message to send, [send_all] only reads. *)
Lemma send_all_idle (E : Env) (cfg : Config) (dry_run : bool) (w : World) :
  drafts w = [] ->
  send_all E cfg dry_run w =
  (Ok 0, {| leads := leads w; outreach := outreach w;
            clock := (clock w + elapse E (ticks w))%Q;
            ticks := S (ticks w); uuids := uuids w; calls := calls w |}).
Proof.
  intros Hnone. unfold send_all. unfold bind at 1. rewrite fetchall_run.
  change (drafts {| leads := leads w; outreach := outreach w;
            clock := (clock w + elapse E (ticks w))%Q;
            ticks := S (ticks w); uuids := uuids w; calls := calls w |})
    with (drafts w).
  rewrite Hnone. reflexivity.
Qed.

(** When the snapshot of [send_all] is empty, a message that is DRAFT has
    a [lead_id] that matches no lead: the JOIN drops it. *)
Lemma drafts_nil_orphans (w : World) (o : Outreach.row) :
  drafts w = [] -> In o (outreach w) -> Outreach.status o = "DRAFT" ->
  ~ In (Outreach.lead_id o) (lead_ids w).
Proof.
  intros Hnone Ho Hst Hin. unfold lead_ids in Hin.
  apply in_map_iff in Hin. destruct Hin as (l & Hid & Hl).
  assert (Hx : In {| oid := Outreach.id o;
                     d_subject := Outreach.subject o;
                     d_body := Outreach.body o;
                     d_email := email (from_row l);
                     lid := id (from_row l) |} (drafts w)).
  { unfold drafts. apply in_flat_map. exists o. split; [exact Ho|].
    rewrite bool_decide_eq_true_2 by exact Hst.
    apply in_map_iff. exists l. split; [reflexivity|].
    apply list_elem_of_In. apply list_elem_of_filter.
    split; [exact Hid | apply list_elem_of_In; exact Hl]. }
  rewrite Hnone in Hx. exact Hx.
Qed.

(** X16. A run of [send_all], dry or not, leaves no message for a later
    run: its snapshot is emptied, failed messages included (they are
    ERROR, not DRAFT), and the only messages still DRAFT are those whose
    [lead_id] matches no lead, which the JOIN of the query never selects.
    So a second run, in either mode, returns 0, calls [send_email] for
    nothing and writes nothing.  In particular a real run after a dry run
    sends no message. *)
Theorem send_all_sends_nothing_twice (E : Env) (cfg : Config)
    (first second : bool) (w : World) :
  let w' := after (send_all E cfg first) w in
  let w'' := after (send_all E cfg second) w' in
  drafts w' = [] /\
  (forall o, In o (outreach w') -> Outreach.status o = "DRAFT" ->
             ~ In (Outreach.lead_id o) (lead_ids w')) /\
  fst (send_all E cfg second w') = Ok 0 /\
  calls w'' = calls w' /\ leads w'' = leads w' /\ outreach w'' = outreach w'.
Proof.
  intros w' w''.
  assert (Hnone : drafts w' = []).
  { unfold w', after.
    destruct (send_all_dispatched E cfg first w)
      as (n & cs & w1 & Hrun & _ & _ & Hd).
    rewrite Hrun. simpl. exact (drafts_after_dispatch w w1 cs Hd). }
  split; [exact Hnone|].
  split; [intros o; apply drafts_nil_orphans; exact Hnone|].
  unfold w'', after. rewrite (send_all_idle E cfg second w' Hnone).
  simpl. repeat split.
Qed.

(** A DRAFT message whose lead is not in the table is not in the snapshot:
    a run leaves it DRAFT, in either mode. *)
Example orphan_draft_is_never_sent :
  let w := {| leads := [row bright]; outreach := [draft "m9" "zz"];
              clock := 1000; ticks := 0; uuids := 0; calls := [] |} in
  keys_unique w /\
  map Outreach.status (outreach (after (send_all env configured true) w))
  = ["DRAFT"] /\
  map Outreach.status (outreach (after (send_all env configured false) w))
  = ["DRAFT"] /\
  calls (after (send_all env configured false) w) = [].
Proof.
  cbv zeta. split.
  - split; vm_compute; repeat constructor; intros H; inversion H.
  - vm_compute. repeat split; reflexivity.
Qed.

(** A dry run of the sample store, then a real one: the real run has
    nothing left to send. *)
Example dry_run_then_real_run :
  let w' := after (send_all env configured true) with_drafts in
  fst (send_all env configured false w') = Ok 0 /\
  calls (after (send_all env configured false) w') = [].
Proof. vm_compute. split; reflexivity. Qed.

(* ---- exporting ---- *)

Lemma qualify_all_run_resolved (E : Env) (a : Q) (b c : Z) (w : World) :
  NoDup (lead_ids w) ->
  exists w1,
    qualify_all E a b c w =
      (Ok (Z.of_nat (length (filter
             (fun r => qualifies a b c (from_row r) = true)
             (leads_at "NEW" w)))), w1) /\
    Forall2 (resolved a b c) (leads w) (leads w1) /\
    outreach w1 = outreach w.
Proof.
  intros Hkeys.
  set (w0 := {| leads := leads w; outreach := outreach w;
                clock := (clock w + elapse E (ticks w))%Q;
                ticks := S (ticks w); uuids := uuids w;
                calls := calls w |}).
  destruct (qualify_loop_run E a b c w0 Hkeys)
    as (w1 & Hrun & _ & Hout & Hrows).
  change (leads_at "NEW" w0) with (leads_at "NEW" w) in *.
  change (leads w0) with (leads w) in *.
  exists w1. split.
  { unfold qualify_all. unfold bind at 1. rewrite fetchall_run.
    fold w0. change (leads_at "NEW" w0) with (leads_at "NEW" w).
    exact Hrun. }
  split; [exact (partly_resolved _ _ _ w (leads w1) Hkeys Hrows)|].
  exact Hout.
Qed.

(** X17. [export_csv] returns the number of leads at the stage and hands
    the writer the column names and those leads, in table order; when no
    lead is at the stage it returns 0 and writes no file.  It changes
    neither table.  After a qualification pass over a store with unique
    ids, an export of stage NEW writes no file. *)
Theorem export_csv_counts_leads_at_stage (E : Env) (st : string)
    (w : World) :
  let out := fst (export_csv E st w) in
  let w' := after (export_csv E st) w in
  out = Ok (Z.of_nat (length (leads_at st w)),
            match leads_at st w with
            | [] => None
            | _ :: _ => Some (columns, leads_at st w)
            end) /\
  leads w' = leads w /\ outreach w' = outreach w /\
  (forall a b c,
      NoDup (lead_ids w) ->
      fst (export_csv E "NEW" (after (qualify_all E a b c) w))
      = Ok (0, None)).
Proof.
  assert (Hrun : forall s v,
            export_csv E s v =
            (Ok (Z.of_nat (length (leads_at s v)),
                 match leads_at s v with
                 | [] => None
                 | _ :: _ => Some (columns, leads_at s v)
                 end),
             {| leads := leads v; outreach := outreach v;
                clock := (clock v + elapse E (ticks v))%Q;
                ticks := S (ticks v); uuids := uuids v;
                calls := calls v |})).
  { intros s v. unfold export_csv. unfold bind. rewrite fetchall_run.
    change (leads_at s {| leads := leads v; outreach := outreach v;
              clock := (clock v + elapse E (ticks v))%Q;
              ticks := S (ticks v); uuids := uuids v; calls := calls v |})
      with (leads_at s v).
    destruct (leads_at s v); reflexivity. }
  intros out w'. subst out w'. unfold after. rewrite Hrun. simpl.
  split; [reflexivity|]. split; [reflexivity|]. split; [reflexivity|].
  intros a b c Hkeys.
  destruct (qualify_all_run_resolved E a b c w Hkeys)
    as (w1 & Hq & Hres & _).
  rewrite Hq. simpl. rewrite Hrun. simpl.
  assert (Hnone : leads_at "NEW" w1 = [])
    by (exact (resolved_none_new _ _ _ _ _ Hres)).
  rewrite Hnone. reflexivity.
Qed.

End LeadGenMoreSpec.
